(** * StatsD core metrics engine: matchers, state tracker, uid map, config update

    A shallow embedding of the parts of the statsd module that the
    specification's properties talk about:

    - [packages/UidMap.cpp]: the uid/package map, its change log and guardrail;
    - [matchers/matcher_util.cpp]: [combinationMatch] and the field-value
      matching of [matchesSimple];
    - [state/StateTracker.cpp]: the per-primary-key state machine;
    - the configuration updater and the periodic alarm, whose implementation
      files are not part of the sources at hand and are modelled from the
      specification and from [config_update_utils_test.cpp].

    Integers of the C++ code are [Z]; where the code relies on a fixed width
    the wrap-around is written out.  Hash maps are [gmap]s.

    The file has three parts: the embedding (one module per source file), the
    properties of the specification (one module of facts per embedding
    module), and further properties of the embedded code: the operations of
    the uid map and its snapshot, the ranges and leaf matchers of
    [matchesSimple], and the events of the state tracker.  Two properties of
    the specification stand in the third part, next to the lemmas they rest
    on: the high-water marks of the uid map, and the elements of a repeated
    field under ANY. *)

From Stdlib Require Import ZArith Lia Bool Ascii String.
From Stdlib Require Import Floats.
From stdpp Require Import base option list gmap strings pretty.

#[local] Open Scope Z_scope.

(** * Part I: the embedding *)

(** [v[i]] on a [std::vector] with an [int] index.  Reading outside the vector
    is undefined behaviour in C++; the embedding makes it [None]. *)
Definition at_index {A : Type} (v : list A) (i : Z) : option A :=
  if i <? 0 then None else v !! Z.to_nat i.

(** Conversions to fixed-width integers. *)
Definition to_int32 (z : Z) : Z := (z + 2 ^ 31) mod 2 ^ 32 - 2 ^ 31.
Definition to_size_t (z : Z) : Z := z mod 2 ^ 64.

(** ** packages/UidMap.cpp *)

Module UidMap.

(** [struct AppData] (UidMap.h); its four-argument constructor leaves
    [deleted] false. *)
Record AppData : Type := mkAppData {
  versionCode : Z;
  versionString : string;
  installer : string;
  deleted : bool;
  certificateHash : string
}.

Definition AppData_new (versionCode : Z) (versionString installer certificateHash : string)
    : AppData :=
  mkAppData versionCode versionString installer false certificateHash.

(** [struct ChangeRecord] (UidMap.h), fields in the order of its constructor
    as [updateApp] and [removeApp] call it. *)
Record ChangeRecord : Type := mkChangeRecord {
  deletion : bool;
  timestampNs : Z;
  package : string;
  uid : Z;
  version : Z;
  versionString_ : string;
  prevVersion : Z;
  prevVersionString : string
}.

(** One [app_info] entry of the [UidData] message given to [updateMap]. *)
Record ApplicationInfo : Type := mkApplicationInfo {
  info_uid : Z;
  info_package_name : string;
  info_version : Z;
  info_version_string : string;
  info_installer : string;
  info_certificate_hash : string
}.

(** [ConfigKey(uid, id)]. *)
Definition ConfigKey : Type := (Z * Z)%type.

(** The [PackageInfoListener] callbacks an operation makes once it has
    released the lock. *)
Inductive Callback : Type :=
  | onUidMapReceived (timestamp : Z)
  | notifyAppUpgrade (timestamp : Z) (appName : string) (uid : Z) (versionCode : Z)
  | notifyAppRemoved (timestamp : Z) (app : string) (uid : Z).

(** The state of a [UidMap] object.  [mSubscriber] is a weak handle: it is
    [true] when a listener is registered and still alive, so that
    [promote()] yields it; a cleared or dead handle is [false]. *)
Record t : Type := mkUidMap {
  mMap : gmap (Z * string) AppData;
  mChanges : list ChangeRecord;
  mDeletedApps : list (Z * string);
  mBytesUsed : Z;
  mLastUpdatePerConfigKey : gmap ConfigKey Z;
  mSubscriber : bool;
  maxBytesOverride : Z
}.

(** What [appendUidMap] hands to the report: the change records it writes, in
    order, and the entries of the snapshot.  How each one is encoded (strings
    or their hashes, installer indices, truncated certificate hashes) is the
    sink's business and is left out. *)
Record Output : Type := mkOutput {
  out_changes : list ChangeRecord;
  out_snapshot_timestamp : Z;
  out_snapshot : list ((Z * string) * AppData)
}.

(** [UidMap::sAidToUidMapping]. *)
Definition sAidToUidMapping : list (string * Z) :=
  [("AID_ROOT", 0);
   ("AID_SYSTEM", 1000);
   ("AID_RADIO", 1001);
   ("AID_BLUETOOTH", 1002);
   ("AID_GRAPHICS", 1003);
   ("AID_INPUT", 1004);
   ("AID_AUDIO", 1005);
   ("AID_CAMERA", 1006);
   ("AID_LOG", 1007);
   ("AID_COMPASS", 1008);
   ("AID_MOUNT", 1009);
   ("AID_WIFI", 1010);
   ("AID_ADB", 1011);
   ("AID_INSTALL", 1012);
   ("AID_MEDIA", 1013);
   ("AID_DHCP", 1014);
   ("AID_SDCARD_RW", 1015);
   ("AID_VPN", 1016);
   ("AID_KEYSTORE", 1017);
   ("AID_USB", 1018);
   ("AID_DRM", 1019);
   ("AID_MDNSR", 1020);
   ("AID_GPS", 1021);
   ("AID_MEDIA_RW", 1023);
   ("AID_MTP", 1024);
   ("AID_DRMRPC", 1026);
   ("AID_NFC", 1027);
   ("AID_SDCARD_R", 1028);
   ("AID_CLAT", 1029);
   ("AID_LOOP_RADIO", 1030);
   ("AID_MEDIA_DRM", 1031);
   ("AID_PACKAGE_INFO", 1032);
   ("AID_SDCARD_PICS", 1033);
   ("AID_SDCARD_AV", 1034);
   ("AID_SDCARD_ALL", 1035);
   ("AID_LOGD", 1036);
   ("AID_SHARED_RELRO", 1037);
   ("AID_DBUS", 1038);
   ("AID_TLSDATE", 1039);
   ("AID_MEDIA_EX", 1040);
   ("AID_AUDIOSERVER", 1041);
   ("AID_METRICS_COLL", 1042);
   ("AID_METRICSD", 1043);
   ("AID_WEBSERV", 1044);
   ("AID_DEBUGGERD", 1045);
   ("AID_MEDIA_CODEC", 1046);
   ("AID_CAMERASERVER", 1047);
   ("AID_FIREWALL", 1048);
   ("AID_TRUNKS", 1049);
   ("AID_NVRAM", 1050);
   ("AID_DNS", 1051);
   ("AID_DNS_TETHER", 1052);
   ("AID_WEBVIEW_ZYGOTE", 1053);
   ("AID_VEHICLE_NETWORK", 1054);
   ("AID_MEDIA_AUDIO", 1055);
   ("AID_MEDIA_VIDEO", 1056);
   ("AID_MEDIA_IMAGE", 1057);
   ("AID_TOMBSTONED", 1058);
   ("AID_MEDIA_OBB", 1059);
   ("AID_ESE", 1060);
   ("AID_OTA_UPDATE", 1061);
   ("AID_AUTOMOTIVE_EVS", 1062);
   ("AID_LOWPAN", 1063);
   ("AID_HSM", 1064);
   ("AID_RESERVED_DISK", 1065);
   ("AID_STATSD", 1066);
   ("AID_INCIDENTD", 1067);
   ("AID_SECURE_ELEMENT", 1068);
   ("AID_LMKD", 1069);
   ("AID_LLKD", 1070);
   ("AID_IORAPD", 1071);
   ("AID_GPU_SERVICE", 1072);
   ("AID_NETWORK_STACK", 1073);
   ("AID_GSID", 1074);
   ("AID_FSVERITY_CERT", 1075);
   ("AID_CREDSTORE", 1076);
   ("AID_EXTERNAL_STORAGE", 1077);
   ("AID_EXT_DATA_RW", 1078);
   ("AID_EXT_OBB_RW", 1079);
   ("AID_CONTEXT_HUB", 1080);
   ("AID_VIRTUALIZATIONSERVICE", 1081);
   ("AID_ARTD", 1082);
   ("AID_UWB", 1083);
   ("AID_THREAD_NETWORK", 1084);
   ("AID_DICED", 1085);
   ("AID_DMESGD", 1086);
   ("AID_JC_WEAVER", 1087);
   ("AID_JC_STRONGBOX", 1088);
   ("AID_JC_IDENTITYCRED", 1089);
   ("AID_SDK_SANDBOX", 1090);
   ("AID_SECURITY_LOG_WRITER", 1091);
   ("AID_PRNG_SEEDER", 1092);
   ("AID_SHELL", 2000);
   ("AID_CACHE", 2001);
   ("AID_DIAG", 2002);
   ("AID_NOBODY", 9999)]%string.

Definition aid_find (name : string) : option Z :=
  snd <$> List.find (fun kv => String.eqb (fst kv) name) sAidToUidMapping.

(** [::tolower] in the C locale. *)
Definition tolower (c : ascii) : ascii :=
  let n := N_of_ascii c in
  if ((65 <=? n) && (n <=? 90))%N then ascii_of_N (n + 32) else c.

Fixpoint normalizeAppName (appName : string) : string :=
  match appName with
  | EmptyString => EmptyString
  | String c rest => String (tolower c) (normalizeAppName rest)
  end.

Section Guardrail.

(** Constants of [UidMap.h] and [StatsdStats.h], which are not among the
    sources: the cost of one change record, the default byte budget and the
    bound on remembered deletions. *)
Variable kBytesChangeRecord : Z.
Variable kMaxBytesUsedUidMap : Z.
Variable kMaxDeletedAppsInUidMap : Z.

(** [UidMap::UidMap() : mBytesUsed(0)]. *)
Definition init (maxBytesOverride : Z) : t :=
  mkUidMap ∅ [] [] 0 ∅ false maxBytesOverride.

Definition hasApp (u : t) (uid : Z) (packageName : string) : bool :=
  match mMap u !! (uid, packageName) with
  | Some a => negb (deleted a)
  | None => false
  end.

Definition getAppNamesFromUidLocked (u : t) (uid : Z) (returnNormalized : bool)
    : gset string :=
  list_to_set
    (omap (fun kv : (Z * string) * AppData =>
             if (fst (fst kv) =? uid) && negb (deleted (snd kv))
             then Some (if returnNormalized then normalizeAppName (snd (fst kv))
                        else snd (fst kv))
             else None)
          (map_to_list (mMap u))).

Definition getAppNamesFromUid (u : t) (uid : Z) (returnNormalized : bool) : gset string :=
  getAppNamesFromUidLocked u uid returnNormalized.

Definition getAppVersion (u : t) (uid : Z) (packageName : string) : Z :=
  match mMap u !! (uid, packageName) with
  | Some a => if deleted a then 0 else versionCode a
  | None => 0
  end.

Definition getAppUid (u : t) (package : string) : gset Z :=
  list_to_set
    (omap (fun kv : (Z * string) * AppData =>
             if String.eqb (snd (fst kv)) package && negb (deleted (snd kv))
             then Some (fst (fst kv)) else None)
          (map_to_list (mMap u))).

(** The limit [ensureBytesUsedBelowLimit] computes. *)
Definition limit (u : t) : Z :=
  if maxBytesOverride u <=? 0 then kMaxBytesUsedUidMap else maxBytesOverride u.

(** The [while (mBytesUsed > limit)] loop.  It drops the front of the change
    log on each turn; with an empty log it changes nothing and so never
    leaves: that run has no result ([None]). *)
Fixpoint ensure_loop (lim : Z) (bytesUsed : Z) (changes : list ChangeRecord)
    : option (Z * list ChangeRecord) :=
  if bytesUsed >? lim then
    match changes with
    | [] => None
    | _ :: rest => ensure_loop lim (to_size_t (bytesUsed - kBytesChangeRecord)) rest
    end
  else Some (bytesUsed, changes).

Definition ensureBytesUsedBelowLimit (u : t) : option t :=
  match ensure_loop (limit u) (mBytesUsed u) (mChanges u) with
  | None => None
  | Some (b, c) =>
      Some (mkUidMap (mMap u) c (mDeletedApps u) b (mLastUpdatePerConfigKey u)
              (mSubscriber u) (maxBytesOverride u))
  end.

(** The callback made through the copied handle, if it promotes. *)
Definition broadcast_to (handle : bool) (c : Callback) : list Callback :=
  if handle then [c] else [].

Definition updateMap (timestamp : Z) (uidData : list ApplicationInfo) (u : t)
    : option (t * list Callback) :=
  (* Copy all the deleted apps. *)
  let deletedApps :=
    filter (fun kv : (Z * string) * AppData => deleted (snd kv) = true) (mMap u) in
  let fresh :=
    foldl (fun (m : gmap (Z * string) AppData) appInfo =>
             <[(info_uid appInfo, info_package_name appInfo) :=
                 AppData_new (info_version appInfo) (info_version_string appInfo)
                             (info_installer appInfo) (info_certificate_hash appInfo)]> m)
          ∅ uidData in
  (* Insert the deleted apps that are listed again back into the map. *)
  let merged :=
    map_imap (fun k a => match deletedApps !! k with
                         | Some d => Some d
                         | None => Some a
                         end) fresh in
  match ensureBytesUsedBelowLimit
          (mkUidMap merged (mChanges u) (mDeletedApps u) (mBytesUsed u)
             (mLastUpdatePerConfigKey u) (mSubscriber u) (maxBytesOverride u)) with
  | None => None
  | Some u' => Some (u', broadcast_to (mSubscriber u') (onUidMapReceived timestamp))
  end.

Definition updateApp (timestamp : Z) (appName : string) (uid : Z) (versionCode : Z)
    (versionString installer certificateHash : string) (u : t)
    : option (t * list Callback) :=
  let key := (uid, appName) in
  let '(prevVersion, prevVersionString, map', broadcast) :=
    match mMap u !! key with
    | Some old =>
        (* int32_t prevVersion = it->second.versionCode *)
        (to_int32 (UidMap.versionCode old), UidMap.versionString old,
         <[key := mkAppData versionCode versionString installer false certificateHash]>
           (mMap u),
         mSubscriber u)
    | None =>
        (0, EmptyString,
         <[key := AppData_new versionCode versionString installer certificateHash]> (mMap u),
         false)
    end in
  let changes' :=
    mChanges u ++ [mkChangeRecord false timestamp appName uid versionCode versionString
                     prevVersion prevVersionString] in
  match ensureBytesUsedBelowLimit
          (mkUidMap map' changes' (mDeletedApps u)
             (to_size_t (mBytesUsed u + kBytesChangeRecord))
             (mLastUpdatePerConfigKey u) (mSubscriber u) (maxBytesOverride u)) with
  | None => None
  | Some u' =>
      Some (u', broadcast_to broadcast (notifyAppUpgrade timestamp appName uid versionCode))
  end.

Definition removeApp (timestamp : Z) (app : string) (uid : Z) (u : t)
    : option (t * list Callback) :=
  let key := (uid, app) in
  let '(prevVersion, prevVersionString, map1, deleted1) :=
    match mMap u !! key with
    | Some old =>
        if deleted old then (0, EmptyString, mMap u, mDeletedApps u)
        else (UidMap.versionCode old, UidMap.versionString old,
              <[key := mkAppData (UidMap.versionCode old) (UidMap.versionString old)
                         (UidMap.installer old) true (UidMap.certificateHash old)]> (mMap u),
              mDeletedApps u ++ [key])
    | None => (0, EmptyString, mMap u, mDeletedApps u)
    end in
  let '(map2, deleted2) :=
    if Z.of_nat (length deleted1) >? kMaxDeletedAppsInUidMap then
      (* Delete the oldest one. *)
      match deleted1 with
      | oldest :: rest => (delete oldest map1, rest)
      | [] => (map1, deleted1)
      end
    else (map1, deleted1) in
  let changes' :=
    mChanges u ++ [mkChangeRecord true timestamp app uid 0 EmptyString
                     prevVersion prevVersionString] in
  match ensureBytesUsedBelowLimit
          (mkUidMap map2 changes' deleted2
             (to_size_t (mBytesUsed u + kBytesChangeRecord))
             (mLastUpdatePerConfigKey u) (mSubscriber u) (maxBytesOverride u)) with
  | None => None
  | Some u' => Some (u', broadcast_to (mSubscriber u') (notifyAppRemoved timestamp app uid))
  end.

Definition setListener (listener : bool) (u : t) : t :=
  mkUidMap (mMap u) (mChanges u) (mDeletedApps u) (mBytesUsed u)
    (mLastUpdatePerConfigKey u) listener (maxBytesOverride u).

Definition clearOutput (u : t) : t :=
  mkUidMap (mMap u) [] (mDeletedApps u) 0
    (mLastUpdatePerConfigKey u) (mSubscriber u) (maxBytesOverride u).

(** One turn of the loop of [getMinimumTimestampNs]: [m == 0] means that no
    entry was seen yet. *)
Definition min_step (m : Z) (kv : ConfigKey * Z) : Z :=
  if m =? 0 then snd kv else if snd kv <? m then snd kv else m.

Definition minimumOf (marks : gmap ConfigKey Z) : Z :=
  foldl min_step 0 (map_to_list marks).

Definition getMinimumTimestampNs (u : t) : Z :=
  minimumOf (mLastUpdatePerConfigKey u).

(** The pruning loop of [appendUidMap]: erase the records older than the
    cutoff, giving back [kBytesChangeRecord] for each. *)
Fixpoint prune_loop (cutoff_nanos : Z) (bytesUsed : Z) (changes : list ChangeRecord)
    : Z * list ChangeRecord :=
  match changes with
  | [] => (bytesUsed, [])
  | r :: rest =>
      if timestampNs r <? cutoff_nanos then
        prune_loop cutoff_nanos (to_size_t (bytesUsed - kBytesChangeRecord)) rest
      else
        let '(b, kept) := prune_loop cutoff_nanos bytesUsed rest in (b, r :: kept)
  end.

Definition appendUidMap (timestamp : Z) (key : ConfigKey) (u : t) : t * Output :=
  (* [mLastUpdatePerConfigKey[key]] in the loop condition creates the entry,
     with value 0, when the loop body runs and the key is not there yet. *)
  let marks1 :=
    match mChanges u, mLastUpdatePerConfigKey u !! key with
    | _ :: _, None => <[key := 0]> (mLastUpdatePerConfigKey u)
    | _, _ => mLastUpdatePerConfigKey u
    end in
  let lastUpdate := default 0 (mLastUpdatePerConfigKey u !! key) in
  let written := List.filter (fun r => timestampNs r >? lastUpdate) (mChanges u) in
  (* Write snapshot from current uid map state. *)
  let out := mkOutput written timestamp (map_to_list (mMap u)) in
  let prevMin := minimumOf marks1 in
  let marks2 := <[key := timestamp]> marks1 in
  let newMin := minimumOf marks2 in
  let '(bytes', changes') :=
    if newMin >? prevMin then prune_loop newMin (mBytesUsed u) (mChanges u)
    else (mBytesUsed u, mChanges u) in
  (mkUidMap (mMap u) changes' (mDeletedApps u) bytes' marks2
     (mSubscriber u) (maxBytesOverride u), out).

Definition OnConfigUpdated (key : ConfigKey) (u : t) : t :=
  mkUidMap (mMap u) (mChanges u) (mDeletedApps u) (mBytesUsed u)
    (<[key := -1]> (mLastUpdatePerConfigKey u)) (mSubscriber u) (maxBytesOverride u).

Definition OnConfigRemoved (key : ConfigKey) (u : t) : t :=
  mkUidMap (mMap u) (mChanges u) (mDeletedApps u) (mBytesUsed u)
    (delete key (mLastUpdatePerConfigKey u)) (mSubscriber u) (maxBytesOverride u).

(** The calls a client can make on the map, and their effect in sequence. *)
Inductive Op : Type :=
  | OpUpdateMap (timestamp : Z) (uidData : list ApplicationInfo)
  | OpUpdateApp (timestamp : Z) (appName : string) (uid : Z) (versionCode : Z)
      (versionString installer certificateHash : string)
  | OpRemoveApp (timestamp : Z) (app : string) (uid : Z)
  | OpSetListener (listener : bool)
  | OpClearOutput
  | OpAppendUidMap (timestamp : Z) (key : ConfigKey)
  | OpOnConfigUpdated (key : ConfigKey)
  | OpOnConfigRemoved (key : ConfigKey).

Definition step (u : t) (op : Op) : option t :=
  match op with
  | OpUpdateMap ts d => fst <$> updateMap ts d u
  | OpUpdateApp ts n i v vs ins c => fst <$> updateApp ts n i v vs ins c u
  | OpRemoveApp ts a i => fst <$> removeApp ts a i u
  | OpSetListener l => Some (setListener l u)
  | OpClearOutput => Some (clearOutput u)
  | OpAppendUidMap ts k => Some (fst (appendUidMap ts k u))
  | OpOnConfigUpdated k => Some (OnConfigUpdated k u)
  | OpOnConfigRemoved k => Some (OnConfigRemoved k u)
  end.

Fixpoint run (u : t) (ops : list Op) : option t :=
  match ops with
  | [] => Some u
  | op :: rest =>
      match step u op with
      | None => None
      | Some u' => run u' rest
      end
  end.

End Guardrail.

End UidMap.

(** ** packages/UidMap.cpp: the snapshot and the isolated uids *)

Module Snapshot.
Import UidMap.

(** A string of the report: written as it is or, when the report hashes its
    strings ([str_set != nullptr]), as its [Hash64]. *)
Inductive Text : Type :=
  | Plain (s : string)
  | Hashed (h : Z).

(** The installer of a package info: an index into the installer list, or
    the installer itself. *)
Inductive InstallerField : Type :=
  | InstallerIndex (installerIndex : Z)
  | InstallerText (installer : Text).

(** One [FIELD_ID_SNAPSHOT_PACKAGE_INFO] message. *)
Record PackageInfo : Type := mkPackageInfo {
  pkg_name : Text;
  pkg_version_string : option Text;
  pkg_installer : option InstallerField;
  pkg_truncated_certificate_hash : option string;
  pkg_version : Z;
  pkg_uid : Z;
  pkg_deleted : bool
}.

(** What the loop of [writeUidMapSnapshotLocked] threads: its local
    [curInstallerIndex], the map and the set behind [installerIndices] and
    [str_set] ([None] for [nullptr]), and the package infos written so far. *)
Record State : Type := mkState {
  curInstallerIndex : Z;
  installerIndices : option (gmap string Z);
  str_set : option (gset string);
  written : list PackageInfo
}.

Section Writer.

(** [Hash64] of [hash.h], which is not among the sources. *)
Variable Hash64 : string -> Z.

Definition text (hashing : bool) (s : string) : Text :=
  if hashing then Hashed (Hash64 s) else Plain s.

Definition hashing (st : State) : bool :=
  match str_set st with Some _ => true | None => false end.

(** One turn of the loop over [mMap]. *)
Definition snapshot_step (includeVersionStrings includeInstaller : bool)
    (truncatedCertificateHashSize : Z) (interestingUids : gset Z)
    (st : State) (kv : (Z * string) * AppData) : State :=
  let uid := fst (fst kv) in
  let packageName := snd (fst kv) in
  let appData := snd kv in
  if negb (bool_decide (interestingUids = ∅)) && negb (bool_decide (uid ∈ interestingUids))
  then st
  else
    (* Get installer index. *)
    let '(installerIndex, indices', cur') :=
      match installerIndices st with
      | Some indices =>
          if includeInstaller then
            match indices !! installer appData with
            | None =>
                (* We have not encountered this installer yet. *)
                (curInstallerIndex st,
                 Some (<[installer appData := curInstallerIndex st]> indices),
                 to_int32 (curInstallerIndex st + 1))
            | Some index => (index, Some indices, curInstallerIndex st)
            end
          else (-1, Some indices, curInstallerIndex st)
      | None => (-1, None, curInstallerIndex st)
      end in
    let strs' :=
      match str_set st with
      | Some strs =>
          let strs := {[ packageName ]} ∪ strs in
          let strs := if includeVersionStrings then {[ versionString appData ]} ∪ strs
                      else strs in
          Some (if includeInstaller then {[ installer appData ]} ∪ strs else strs)
      | None => None
      end in
    let dumpHashSize :=
      if truncatedCertificateHashSize <=? Z.of_nat (String.length (certificateHash appData))
      then truncatedCertificateHashSize
      else Z.of_nat (String.length (certificateHash appData)) in
    mkState cur' indices' strs'
      (written st ++
       [mkPackageInfo
          (text (hashing st) packageName)
          (if includeVersionStrings then Some (text (hashing st) (versionString appData))
           else None)
          (if includeInstaller then
             Some (if negb (installerIndex =? -1) then InstallerIndex installerIndex
                   else InstallerText (text (hashing st) (installer appData)))
           else None)
          (if dumpHashSize >? 0
           then Some (substring 0 (Z.to_nat dumpHashSize) (certificateHash appData))
           else None)
          (versionCode appData) uid (deleted appData)]).

(** The loop, over the entries of the map in the order the hash map gives
    them. *)
Definition snapshot_loop (includeVersionStrings includeInstaller : bool)
    (truncatedCertificateHashSize : Z) (interestingUids : gset Z)
    (entries : list ((Z * string) * AppData)) (st : State) : State :=
  foldl (snapshot_step includeVersionStrings includeInstaller truncatedCertificateHashSize
           interestingUids) st entries.

(** [writeUidMapSnapshotLocked]: [curInstallerIndex] starts at 0 whatever
    [*installerIndices] holds. *)
Definition writeUidMapSnapshotLocked (u : UidMap.t)
    (includeVersionStrings includeInstaller : bool) (truncatedCertificateHashSize : Z)
    (interestingUids : gset Z) (installerIndices : option (gmap string Z))
    (str_set : option (gset string)) : State :=
  snapshot_loop includeVersionStrings includeInstaller truncatedCertificateHashSize
    interestingUids (map_to_list (mMap u)) (mkState 0 installerIndices str_set []).

(** The installer list of [appendUidMap]:
    [vector<string> installers(installerIndices.size(), "")], then
    [installers[index] = installer] for every entry.  A store outside the
    vector has no defined result ([None]). *)
Definition store_installer (acc : option (list string)) (kv : string * Z)
    : option (list string) :=
  match acc with
  | None => None
  | Some installers =>
      if (0 <=? snd kv) && (snd kv <? Z.of_nat (length installers))
      then Some (<[Z.to_nat (snd kv) := fst kv]> installers)
      else None
  end.

Definition installers_of (installerIndices : gmap string Z) : option (list string) :=
  foldl store_installer
        (Some (replicate (size installerIndices) EmptyString))
        (map_to_list installerIndices).

(** The snapshot that [appendUidMap] writes after the change records: every
    uid, a fresh [installerIndices]; then the installer list, as strings or
    as hashes, when installers are included. *)
Definition appendUidMap_snapshot (u : UidMap.t)
    (includeVersionStrings includeInstaller : bool) (truncatedCertificateHashSize : Z)
    (str_set : option (gset string)) : option (State * list Text) :=
  let st := writeUidMapSnapshotLocked u includeVersionStrings includeInstaller
              truncatedCertificateHashSize ∅ (Some ∅) str_set in
  match installerIndices st with
  | Some indices =>
      match installers_of indices with
      | Some installers =>
          Some (st, if includeInstaller
                    then map (text (hashing st)) installers
                    else [])
      | None => None
      end
  | None => None
  end.

End Writer.

End Snapshot.

Module IsolatedUid.

(** [mIsolatedUidMap]. *)
Definition t : Type := gmap Z Z.

Definition assignIsolatedUid (isolatedUid parentUid : Z) (m : t) : t :=
  <[isolatedUid := parentUid]> m.

Definition removeIsolatedUid (isolatedUid : Z) (m : t) : t :=
  match m !! isolatedUid with
  | Some _ => delete isolatedUid m
  | None => m
  end.

Definition getHostUidOrSelf (m : t) (uid : Z) : Z :=
  match m !! uid with
  | Some parentUid => parentUid
  | None => uid
  end.

(** The calls on the isolated uids, in sequence. *)
Inductive Op : Type :=
  | OpAssign (isolatedUid parentUid : Z)
  | OpRemove (isolatedUid : Z).

Definition step (m : t) (op : Op) : t :=
  match op with
  | OpAssign isolatedUid parentUid => assignIsolatedUid isolatedUid parentUid m
  | OpRemove isolatedUid => removeIsolatedUid isolatedUid m
  end.

Definition run (ops : list Op) : t := foldl step ∅ ops.

End IsolatedUid.

(** ** matchers/matcher_util.cpp *)

Module Matcher.

(** [enum MatchingState] of [matcher_util.h]: besides the two outcomes there
    is the value a matcher has before it was evaluated for the event. *)
Inductive MatchingState : Type :=
  | kNotComputed
  | kNotMatched
  | kMatched.

Inductive LogicalOperation : Type :=
  | LOGICAL_OPERATION_UNSPECIFIED
  | AND
  | OR
  | NOT
  | NAND
  | NOR.

Definition isMatched (s : MatchingState) : bool :=
  match s with kMatched => true | _ => false end.

Definition isNotMatched (s : MatchingState) : bool :=
  match s with kNotMatched => true | _ => false end.

(** The four loops of [combinationMatch] have one shape:
    [for (childIndex : children) if (test(matcherResults[childIndex])) { ...; break; }].
    [breaks test children matcherResults] tells whether the loop left through
    its [break]; children after the first hit are not read. *)
Fixpoint breaks (test : MatchingState -> bool) (children : list Z)
    (matcherResults : list MatchingState) : option bool :=
  match children with
  | [] => Some false
  | childIndex :: rest =>
      match at_index matcherResults childIndex with
      | None => None
      | Some r => if test r then Some true else breaks test rest matcherResults
      end
  end.

Definition combinationMatch (children : list Z) (operation : LogicalOperation)
    (matcherResults : list MatchingState) : option bool :=
  match operation with
  | AND =>
      (* matched = true, cleared by the first child that is != kMatched *)
      negb <$> breaks (fun r => negb (isMatched r)) children matcherResults
  | OR =>
      breaks isMatched children matcherResults
  | NOT =>
      match children with
      | [] => None
      | c0 :: _ => isNotMatched <$> at_index matcherResults c0
      end
  | NAND =>
      breaks (fun r => negb (isMatched r)) children matcherResults
  | NOR =>
      negb <$> breaks isMatched children matcherResults
  | LOGICAL_OPERATION_UNSPECIFIED => Some false
  end.

(** *** Events *)

(** Modelled from the spec: the [Field] class of [FieldValue.h], which is not
    among the sources.  A field path has up to three positions, one per
    depth; [isLast(depth)] marks the last sibling at that depth.  A depth the
    path does not reach has position 0 and is not last. *)
Record Field : Type := mkField {
  mTag : Z;
  path : list (Z * bool)
}.

Definition getPosAtDepth (f : Field) (depth : nat) : Z :=
  match path f !! depth with
  | Some (p, _) => p
  | None => 0
  end.

Definition isLastPos (f : Field) (depth : nat) : bool :=
  match path f !! depth with
  | Some (_, l) => l
  | None => false
  end.

(** [Value]: the tagged union, one constructor per type the matcher reads. *)
Inductive Value : Type :=
  | INT (int_value : Z)
  | LONG (long_value : Z)
  | FLOAT (float_value : float)
  | DOUBLE (double_value : float)
  | STRING (str_value : string)
  | STORAGE (storage_value : list Z)
  | UNKNOWN.

Record FieldValue : Type := mkFieldValue {
  mField : Field;
  mValue : Value
}.

(** *** Matchers (the messages of statsd_config.proto) *)

Inductive Position : Type :=
  | POSITION_UNKNOWN
  | FIRST
  | LAST
  | ANY
  | ALL.

(** The [value_matcher] oneof, over the type of the nested matchers. *)
Inductive ValueMatcher (M : Type) : Type :=
  | VALUE_MATCHER_NOT_SET
  | kEqBool (eq_bool : bool)
  | kEqString (eq_string : string)
  | kEqInt (eq_int : Z)
  | kLtInt (lt_int : Z)
  | kGtInt (gt_int : Z)
  | kLtFloat (lt_float : float)
  | kGtFloat (gt_float : float)
  | kLteInt (lte_int : Z)
  | kGteInt (gte_int : Z)
  | kMatchesTuple (field_value_matcher : list M)
  | kEqAnyString (str_value : list string)
  | kNeqAnyString (str_value : list string)
  | kEqAnyInt (int_value : list Z)
  | kNeqAnyInt (int_value : list Z)
  | kEqWildcardString (eq_wildcard_string : string)
  | kEqAnyWildcardString (str_value : list string)
  | kNeqAnyWildcardString (str_value : list string).

Arguments VALUE_MATCHER_NOT_SET {M}.
Arguments kEqBool {M} _.
Arguments kEqString {M} _.
Arguments kEqInt {M} _.
Arguments kLtInt {M} _.
Arguments kGtInt {M} _.
Arguments kLtFloat {M} _.
Arguments kGtFloat {M} _.
Arguments kLteInt {M} _.
Arguments kGteInt {M} _.
Arguments kMatchesTuple {M} _.
Arguments kEqAnyString {M} _.
Arguments kNeqAnyString {M} _.
Arguments kEqAnyInt {M} _.
Arguments kNeqAnyInt {M} _.
Arguments kEqWildcardString {M} _.
Arguments kEqAnyWildcardString {M} _.
Arguments kNeqAnyWildcardString {M} _.

(** [FieldValueMatcher]: [position] is an optional field ([has_position]).
    The induction principle that goes through the nested list is
    [FieldValueMatcher_nested_ind] in the second part. *)
#[local] Unset Elimination Schemes.
Inductive FieldValueMatcher : Type :=
  mkFieldValueMatcher (field : Z) (position : option Position)
    (value_matcher : ValueMatcher FieldValueMatcher).
#[local] Set Elimination Schemes.

Definition field (m : FieldValueMatcher) : Z :=
  match m with mkFieldValueMatcher f _ _ => f end.
Definition position (m : FieldValueMatcher) : option Position :=
  match m with mkFieldValueMatcher _ p _ => p end.
Definition value_matcher (m : FieldValueMatcher) : ValueMatcher FieldValueMatcher :=
  match m with mkFieldValueMatcher _ _ v => v end.

Definition isMatchesTuple {M : Type} (v : ValueMatcher M) : bool :=
  match v with kMatchesTuple _ => true | _ => false end.

Record SimpleAtomMatcher : Type := mkSimpleAtomMatcher {
  atom_id : Z;
  simple_field_value_matcher : list FieldValueMatcher
}.

Record LogEvent : Type := mkLogEvent {
  GetTagId : Z;
  getValues : list FieldValue
}.

Section Matching.

(** [fnmatch(pattern, string, 0) == 0] of the C library. *)
Variable fnmatch : string -> string -> bool.

(** [isAttributionUidField] and [isUidField] of [FieldValue.cpp], which is not
    among the sources. *)
Variable isAttributionUidField : FieldValue -> bool.
Variable isUidField : FieldValue -> bool.

(** Constants of the uid map (see [UidMap.Guardrail]); its lookups do not
    depend on them. *)
Variable uidMap : UidMap.t.

(** A uid field holds an [int]; [fieldValue.mValue.int_value] read from a
    value of another type has no defined result, and such a value matches no
    string here. *)
Definition tryMatchString (fieldValue : FieldValue) (str_match : string) : bool :=
  if isAttributionUidField fieldValue || isUidField fieldValue then
    match mValue fieldValue with
    | INT uid =>
        match UidMap.aid_find str_match with
        | Some aid => aid =? uid
        | None =>
            let packageNames := UidMap.getAppNamesFromUid uidMap uid true in
            bool_decide (str_match ∈ packageNames)
        end
    | _ => false
    end
  else
    match mValue fieldValue with
    | STRING s => String.eqb s str_match
    | _ => false
    end.

Definition tryMatchWildcardString (fieldValue : FieldValue) (wildcardPattern : string)
    : bool :=
  if isAttributionUidField fieldValue || isUidField fieldValue then
    match mValue fieldValue with
    | INT uid =>
        (* AidToUidMapping will never have uids above 10000 *)
        match (if uid <? 10000
               then List.find (fun kv => snd kv =? uid) UidMap.sAidToUidMapping
               else None) with
        | Some (aidName, _) => fnmatch wildcardPattern aidName
        | None =>
            let packageNames := UidMap.getAppNamesFromUid uidMap uid true in
            existsb (fun packageName => fnmatch wildcardPattern packageName)
                    (elements packageNames)
        end
    | _ => false
    end
  else
    match mValue fieldValue with
    | STRING s => fnmatch wildcardPattern s
    | _ => false
    end.

(** [pos] of [values[i]] at [depth]; the loops below only read inside the
    vector. *)
Definition posAt (values : list FieldValue) (i depth : nat) : option Z :=
  (fun v => getPosAtDepth (mField v) depth) <$> values !! i.

(** The loop of [getStartEndAtDepth], from index [i] for [n] more turns.
    [newStart == -1] is [None]. *)
Fixpoint getStartEndAtDepth_loop (targetField : Z) (depth : nat)
    (values : list FieldValue) (i n : nat) (newStart : option nat) (newEnd : nat)
    : option nat * nat :=
  match n with
  | O => (newStart, newEnd)
  | S n' =>
      match posAt values i depth with
      | None => (newStart, newEnd)
      | Some pos =>
          if pos =? targetField then
            getStartEndAtDepth_loop targetField depth values (S i) n'
              (Some (default i newStart)) (S i)
          else if pos >? targetField then (newStart, newEnd)
          else getStartEndAtDepth_loop targetField depth values (S i) n' newStart newEnd
      end
  end.

Definition getStartEndAtDepth (targetField : Z) (start end_ : nat) (depth : nat)
    (values : list FieldValue) : option nat * nat :=
  getStartEndAtDepth_loop targetField depth values start (end_ - start)%nat None end_.

(** [Position::FIRST]: the first index in [[i, i+n)] whose position is not 1
    becomes the new end. *)
Fixpoint first_loop (depth : nat) (values : list FieldValue) (i n : nat) (end_ : nat)
    : nat :=
  match n with
  | O => end_
  | S n' =>
      match posAt values i depth with
      | None => end_
      | Some pos => if pos =? 1 then first_loop depth values (S i) n' end_ else i
      end
  end.

(** [Position::LAST]: the first index flagged as last becomes the new start. *)
Fixpoint last_loop (depth : nat) (values : list FieldValue) (i n : nat) (start : nat)
    : nat :=
  match n with
  | O => start
  | S n' =>
      match values !! i with
      | None => start
      | Some v => if isLastPos (mField v) depth then i
                  else last_loop depth values (S i) n' start
      end
  end.

(** [Position::ANY] with [matches_tuple]: cut the range wherever the position
    changes.  Gives the ranges pushed so far and the start of the open one. *)
Fixpoint any_loop (depth : nat) (values : list FieldValue) (i n : nat)
    (start : nat) (currentPos : Z) (ranges : list (nat * nat))
    : list (nat * nat) * nat :=
  match n with
  | O => (ranges, start)
  | S n' =>
      match posAt values i depth with
      | None => (ranges, start)
      | Some newPos =>
          if negb (newPos =? currentPos) then
            any_loop depth values (S i) n' i newPos (ranges ++ [(start, i)])
          else any_loop depth values (S i) n' start currentPos ranges
      end
  end.

(** [computeRanges]: the ranges, and the depth it leaves in its reference
    parameter. *)
Definition computeRanges (matcher : FieldValueMatcher) (values : list FieldValue)
    (start end_ : nat) (depth : nat) : list (nat * nat) * nat :=
  match getStartEndAtDepth (field matcher) start end_ depth values with
  | (None, _) => ([], depth)                        (* No such field found. *)
  | (Some start, end_) =>
      match position matcher with
      | Some pos =>
          (* Repeated fields position is stored as a node in the path. *)
          let depth := S depth in
          if (2 <? depth)%nat then ([], depth)
          else
            match pos with
            | FIRST =>
                ([(start, first_loop depth values start (end_ - start) end_)], depth)
            | LAST =>
                ([(last_loop depth values start (end_ - start) start, end_)], depth)
            | ANY =>
                if isMatchesTuple (value_matcher matcher) then
                  match posAt values start depth with
                  | None => ([], depth)
                  | Some currentPos =>
                      let '(ranges, start') :=
                        any_loop depth values start (end_ - start) start currentPos [] in
                      (ranges ++ [(start', end_)], depth)
                  end
                else ([(start, end_)], depth)
            | ALL => ([], depth)
            | POSITION_UNKNOWN => ([], depth)
            end
      | None => ([(start, end_)], depth)             (* No position *)
      end
  end.

(** [for (int i = start; i < end; i++) if (test(values[i])) return true;
    return false;] *)
Definition anyInRange (test : FieldValue -> bool) (values : list FieldValue)
    (start end_ : nat) : bool :=
  existsb test (take (end_ - start) (drop start values)).

Definition intEq (k : Z) (v : FieldValue) : bool :=
  match mValue v with
  | INT i => k =? i
  | LONG l => k =? l
  | _ => false
  end.

(** The static [matchesSimple] over a range of the values. *)
Fixpoint matchesSimple (matcher : FieldValueMatcher) (values : list FieldValue)
    (start end_ : nat) (depth : nat) {struct matcher} : bool :=
  if (2 <? depth)%nat then false
  else if (end_ <=? start)%nat then false
  else
    let '(ranges, depth) := computeRanges matcher values start end_ depth in
    match ranges with
    | [] => false
    | (start, end_) :: _ =>
        match matcher with
        | mkFieldValueMatcher _ _ vm =>
        match vm with
        | kMatchesTuple subMatchers =>
            let depth := S depth in
            (* If any range matches all matchers, good. *)
            existsb (fun range : nat * nat =>
                       forallb (fun subMatcher =>
                                  matchesSimple subMatcher values (fst range) (snd range) depth)
                               subMatchers)
                    ranges
        | kEqBool b =>
            anyInRange (fun v => match mValue v with
                                 | INT i => Bool.eqb (negb (i =? 0)) b
                                 | LONG l => Bool.eqb (negb (l =? 0)) b
                                 | _ => false
                                 end) values start end_
        | kEqString s =>
            anyInRange (fun v => tryMatchString v s) values start end_
        | kNeqAnyString strs =>
            anyInRange (fun v => forallb (fun str => negb (tryMatchString v str)) strs)
                       values start end_
        | kEqAnyString strs =>
            anyInRange (fun v => existsb (fun str => tryMatchString v str) strs)
                       values start end_
        | kEqWildcardString s =>
            anyInRange (fun v => tryMatchWildcardString v s) values start end_
        | kEqAnyWildcardString strs =>
            anyInRange (fun v => existsb (fun str => tryMatchWildcardString v str) strs)
                       values start end_
        | kNeqAnyWildcardString strs =>
            anyInRange (fun v => forallb (fun str => negb (tryMatchWildcardString v str)) strs)
                       values start end_
        | kEqInt k =>
            anyInRange (intEq k) values start end_
        | kEqAnyInt ints =>
            (* for (const int int_value : int_list.int_value()): each element
               of the list is narrowed to an int before it is compared *)
            anyInRange (fun v => existsb (fun int_value => intEq (to_int32 int_value) v) ints)
                       values start end_
        | kNeqAnyInt ints =>
            anyInRange (fun v => forallb (fun int_value =>
                                            negb (intEq (to_int32 int_value) v)) ints)
                       values start end_
        | kLtInt k =>
            anyInRange (fun v => match mValue v with
                                 | INT i => i <? k
                                 | LONG l => l <? k
                                 | _ => false
                                 end) values start end_
        | kGtInt k =>
            anyInRange (fun v => match mValue v with
                                 | INT i => i >? k
                                 | LONG l => l >? k
                                 | _ => false
                                 end) values start end_
        | kLtFloat x =>
            anyInRange (fun v => match mValue v with
                                 | FLOAT f => PrimFloat.ltb f x
                                 | _ => false
                                 end) values start end_
        | kGtFloat x =>
            anyInRange (fun v => match mValue v with
                                 | FLOAT f => PrimFloat.ltb x f
                                 | _ => false
                                 end) values start end_
        | kLteInt k =>
            anyInRange (fun v => match mValue v with
                                 | INT i => i <=? k
                                 | LONG l => l <=? k
                                 | _ => false
                                 end) values start end_
        | kGteInt k =>
            anyInRange (fun v => match mValue v with
                                 | INT i => i >=? k
                                 | LONG l => l >=? k
                                 | _ => false
                                 end) values start end_
        | VALUE_MATCHER_NOT_SET => false
        end
        end
    end.

(** The public [matchesSimple] of a simple atom matcher on an event. *)
Definition matchesSimpleAtom (simpleMatcher : SimpleAtomMatcher) (event : LogEvent) : bool :=
  if negb (GetTagId event =? atom_id simpleMatcher) then false
  else
    forallb (fun matcher =>
               matchesSimple matcher (getValues event) 0 (length (getValues event)) 0)
            (simple_field_value_matcher simpleMatcher).

End Matching.

End Matcher.

(** ** state/StateTracker.cpp *)

Module StateTracker.

(** [struct StateValueInfo] (StateTracker.h): a fresh entry, as
    [mStateMap[primaryKey]] creates it, holds [kStateUnknown] and count 0. *)
Record StateValueInfo : Type := mkStateValueInfo {
  state : Z;
  count : Z
}.

(** The arguments of one [StateListener::onStateChanged] call. *)
Record StateChanged (Key : Type) : Type := mkStateChanged {
  sc_eventTimeNs : Z;
  sc_atomId : Z;
  sc_primaryKey : Key;
  sc_oldState : Z;
  sc_newState : Z
}.
Arguments mkStateChanged {Key} _ _ _ _ _.
Arguments sc_oldState {Key} _.
Arguments sc_newState {Key} _.
Arguments sc_primaryKey {Key} _.

(** An event value as the tracker reads it: the field id, the value and the
    nested annotation. *)
Record FieldValue : Type := mkFieldValue {
  getField : Z;
  mValue : Matcher.Value;
  isNested : bool
}.

Record LogEvent : Type := mkLogEvent {
  GetElapsedTimestampNs : Z;
  getValues : list FieldValue;
  getExclusiveStateFieldIndex : option nat;
  getResetState : Z
}.

Section Tracker.

(** [HashableDimensionKey], the primary key; any type that can key a hash
    map. *)
Context {Key : Type} `{Countable Key}.

(** [kStateUnknown], declared in a header that is not among the sources. *)
Variable kStateUnknown : Z.

(** [filterPrimaryKey] of the tracker (the projection on the primary fields). *)
Variable filterPrimaryKey : list FieldValue -> Key.

(** The tracker: the atom id and field of [mField], the state map and the
    listeners whose weak handle still promotes, each named by a number. *)
Record t : Type := mkTracker {
  mAtomId : Z;
  mFieldId : Z;
  mStateMap : gmap Key StateValueInfo;
  mListeners : list nat
}.

(** [StateTracker::StateTracker(atomId) : mField(atomId, 0)]. *)
Definition create (atomId : Z) : t := mkTracker atomId 0 ∅ [].

Definition registerListener (listener : nat) (tr : t) : t :=
  mkTracker (mAtomId tr) (mFieldId tr) (mStateMap tr)
    (if bool_decide (listener ∈ mListeners tr) then mListeners tr
     else mListeners tr ++ [listener]).

Definition unregisterListener (listener : nat) (tr : t) : t :=
  mkTracker (mAtomId tr) (mFieldId tr) (mStateMap tr)
    (List.filter (fun l => negb (Nat.eqb l listener)) (mListeners tr)).

(** [getStateValue]: the flag it returns and the value it writes. *)
Definition getStateValue (tr : t) (queryKey : Key) : bool * Z :=
  match mStateMap tr !! queryKey with
  | Some info => (true, state info)
  | None => (false, kStateUnknown)
  end.

(** [notifyListeners]: one call per listener. *)
Definition notifyListeners (tr : t) (eventTimeNs : Z) (primaryKey : Key)
    (oldState newState : Z) : list (nat * StateChanged Key) :=
  map (fun l => (l, mkStateChanged eventTimeNs (mAtomId tr) primaryKey oldState newState))
      (mListeners tr).

(** The update of the entry that [stateValueInfo] refers to: the new entry
    and the listener calls. *)
Definition updateInfo (tr : t) (eventTimeNs : Z) (primaryKey : Key)
    (newStateValue : Z) (nested : bool) (stateValueInfo : StateValueInfo)
    : StateValueInfo * list (nat * StateChanged Key) :=
  let oldStateValue := state stateValueInfo in
  let notify := notifyListeners tr eventTimeNs primaryKey oldStateValue newStateValue in
  if negb nested then
    (* Every state event triggers a state overwrite. *)
    if negb (newStateValue =? oldStateValue)
    then (mkStateValueInfo newStateValue 1, notify)
    else (stateValueInfo, [])
  else if newStateValue =? kStateUnknown then
    if negb (oldStateValue =? kStateUnknown) then (stateValueInfo, notify)
    else (stateValueInfo, [])
  else if oldStateValue =? kStateUnknown then
    (mkStateValueInfo newStateValue 1, notify)
  else if oldStateValue =? newStateValue then
    (* stateValueInfo.count++ *)
    (mkStateValueInfo oldStateValue (to_int32 (count stateValueInfo + 1)), [])
  else
    (* --stateValueInfo.count == 0 *)
    let c := to_int32 (count stateValueInfo - 1) in
    if c =? 0 then (mkStateValueInfo newStateValue 1, notify)
    else (mkStateValueInfo oldStateValue c, []).

(** [updateStateForPrimaryKey].  Its [stateValueInfo] argument is a reference
    to the entry of [primaryKey] in [mStateMap] at every call; without such an
    entry there is nothing the reference could stand for, and nothing
    changes. *)
Definition updateStateForPrimaryKey (eventTimeNs : Z) (primaryKey : Key)
    (newStateValue : Z) (nested : bool) (tr : t) : t * list (nat * StateChanged Key) :=
  match mStateMap tr !! primaryKey with
  | None => (tr, [])
  | Some stateValueInfo =>
      let '(info', calls) :=
        updateInfo tr eventTimeNs primaryKey newStateValue nested stateValueInfo in
      (* Clear primary key entry from state map if state is now unknown. *)
      let map' :=
        if newStateValue =? kStateUnknown then delete primaryKey (mStateMap tr)
        else <[primaryKey := info']> (mStateMap tr) in
      (mkTracker (mAtomId tr) (mFieldId tr) map' (mListeners tr), calls)
  end.

Definition clearStateForPrimaryKey (eventTimeNs : Z) (primaryKey : Key) (tr : t)
    : t * list (nat * StateChanged Key) :=
  match mStateMap tr !! primaryKey with
  | Some _ => updateStateForPrimaryKey eventTimeNs primaryKey kStateUnknown false tr
  | None => (tr, [])
  end.

(** [handleReset]: every key of the map takes the reset state, not nested. *)
Definition handleReset (eventTimeNs : Z) (newStateValue : Z) (tr : t)
    : t * list (nat * StateChanged Key) :=
  foldl (fun (acc : t * list (nat * StateChanged Key)) (kv : Key * StateValueInfo) =>
           let '(tr', calls) :=
             updateStateForPrimaryKey eventTimeNs (fst kv) newStateValue false (fst acc) in
           (tr', snd acc ++ calls))
        (tr, []) (map_to_list (mStateMap tr)).

Definition setField (fieldId : Z) (tr : t) : t :=
  mkTracker (mAtomId tr) fieldId (mStateMap tr) (mListeners tr).

Definition onLogEvent (event : LogEvent) (tr : t) : t * list (nat * StateChanged Key) :=
  let eventTimeNs := GetElapsedTimestampNs event in
  let primaryKey := filterPrimaryKey (getValues event) in
  match getExclusiveStateFieldIndex event with
  | None => clearStateForPrimaryKey eventTimeNs primaryKey tr
  | Some idx =>
      match getValues event !! idx with
      | None => (tr, [])            (* the index is one of the event's values *)
      | Some newState =>
          let tr := setField (getField newState) tr in
          match mValue newState with
          | Matcher.INT newStateValue =>
              if negb (getResetState event =? -1) then
                handleReset eventTimeNs (getResetState event) tr
              else
                (* mStateMap[primaryKey] creates the entry when there is none *)
                let tr :=
                  match mStateMap tr !! primaryKey with
                  | Some _ => tr
                  | None =>
                      mkTracker (mAtomId tr) (mFieldId tr)
                        (<[primaryKey := mkStateValueInfo kStateUnknown 0]> (mStateMap tr))
                        (mListeners tr)
                  end in
                updateStateForPrimaryKey eventTimeNs primaryKey newStateValue
                  (isNested newState) tr
          | _ => clearStateForPrimaryKey eventTimeNs primaryKey tr
          end
      end
  end.

(** A run of nested updates of one key, with the calls they make. *)
Fixpoint nestedUpdates (primaryKey : Key) (events : list (Z * Z)) (tr : t)
    : t * list (nat * StateChanged Key) :=
  match events with
  | [] => (tr, [])
  | (eventTimeNs, newStateValue) :: rest =>
      let '(tr1, calls1) :=
        updateStateForPrimaryKey eventTimeNs primaryKey newStateValue true tr in
      let '(tr2, calls2) := nestedUpdates primaryKey rest tr1 in
      (tr2, calls1 ++ calls2)
  end.

End Tracker.

End StateTracker.

(** ** metrics/parsing_utils/config_update_utils: the matcher update status *)

Module ConfigUpdate.

Inductive UpdateStatus : Type :=
  | UPDATE_UNKNOWN
  | UPDATE_NEW
  | UPDATE_PRESERVE
  | UPDATE_REPLACE.

#[global] Instance UpdateStatus_eq_dec : EqDecision UpdateStatus.
Proof. solve_decision. Defined.

(** The [AtomMatcher] message: an id and either a simple matcher or a
    combination of the matchers named by id. *)
Inductive Contents : Type :=
  | kSimpleAtomMatcher (simple_atom_matcher : Matcher.SimpleAtomMatcher)
  | kCombination (operation : Matcher.LogicalOperation) (matcher : list Z).

Record AtomMatcher : Type := mkAtomMatcher {
  id : Z;
  contents : Contents
}.

(** An installed matcher node, as far as the update looks at it: its id and
    the serialization of the definition it was built from. *)
Record AtomMatchingTracker : Type := mkAtomMatchingTracker {
  getId : Z;
  getProto : string
}.

(** [InvalidConfigReason { code, offending_id }]. *)
Inductive InvalidConfigReasonEnum : Type :=
  | INVALID_CONFIG_REASON_MATCHER_CHILD_NOT_FOUND
  | INVALID_CONFIG_REASON_MATCHER_CYCLE
  | INVALID_CONFIG_REASON_MATCHER_MALFORMED.

Record InvalidConfigReason : Type := mkInvalidConfigReason {
  reason : InvalidConfigReasonEnum;
  offending_id : Z
}.

(** How a call ends: with the two vectors it updates in place, with a
    rejected configuration, or -- in the embedding only -- with the recursion
    budget used up. *)
Inductive Outcome : Type :=
  | Done (matchersToUpdate : list UpdateStatus) (cycleTracker : list bool)
  | Invalid (r : InvalidConfigReason)
  | OutOfFuel.

Section Updater.

(** The canonical byte serialization of a definition (protobuf's
    [SerializeToString]). *)
Variable serialize : AtomMatcher -> string.

(** The nodes and the id map that installing a configuration builds. *)
Definition initTrackers (config : list AtomMatcher) : list AtomMatchingTracker :=
  map (fun m => mkAtomMatchingTracker (id m) (serialize m)) config.

Fixpoint indexMapFrom (i : nat) (config : list AtomMatcher) : gmap Z nat :=
  match config with
  | [] => ∅
  | m :: rest => <[id m := i]> (indexMapFrom (S i) rest)
  end.

Definition indexMap (config : list AtomMatcher) : gmap Z nat := indexMapFrom 0 config.

Section Determine.

Variable config : list AtomMatcher.
Variable oldAtomMatchingTrackerMap : gmap Z nat.
Variable oldAtomMatchingTrackers : list AtomMatchingTracker.
Variable newAtomMatchingTrackerMap : gmap Z nat.

(** Modelled from the spec: the loop of [determineMatcherUpdateStatus] over
    the children of a combination (config_update_utils.cpp is not among the
    sources).  [recurse] is the determination of one child.  The result is the status of the parent: it
    stays PRESERVE until a child turns out not to be preserved, which ends
    the loop. *)
Fixpoint childrenLoop (recurse : nat -> list UpdateStatus -> list bool -> Outcome)
    (parentId : Z) (children : list Z)
    (matchersToUpdate : list UpdateStatus) (cycleTracker : list bool)
    : Outcome * UpdateStatus :=
  match children with
  | [] => (Done matchersToUpdate cycleTracker, UPDATE_PRESERVE)
  | childMatcherId :: rest =>
      match newAtomMatchingTrackerMap !! childMatcherId with
      | None =>
          (Invalid (mkInvalidConfigReason
                      INVALID_CONFIG_REASON_MATCHER_CHILD_NOT_FOUND parentId),
           UPDATE_UNKNOWN)
      | Some childIdx =>
          if default false (cycleTracker !! childIdx) then
            (Invalid (mkInvalidConfigReason INVALID_CONFIG_REASON_MATCHER_CYCLE parentId),
             UPDATE_UNKNOWN)
          else
            match recurse childIdx matchersToUpdate cycleTracker with
            | Done matchersToUpdate' cycleTracker' =>
                match matchersToUpdate' !! childIdx with
                | Some UPDATE_PRESERVE =>
                    childrenLoop recurse parentId rest matchersToUpdate' cycleTracker'
                | _ => (Done matchersToUpdate' cycleTracker', UPDATE_REPLACE)
                end
            | other => (other, UPDATE_UNKNOWN)
            end
      end
  end.

(** Modelled from the spec: [determineMatcherUpdateStatus] of
    config_update_utils.cpp, which is not among the sources (its test is).
    A node that was examined keeps its status.  Otherwise it is NEW if no old
    node has its id; REPLACE if the old node's serialization differs; and,
    the serializations being equal, PRESERVE for a simple matcher, while a
    combination is PRESERVE if every dependency is PRESERVE and REPLACE as
    soon as one is REPLACE or NEW.  The recursion is a depth-first search
    that marks the combinations it is inside of, to reject cycles. *)
Fixpoint determineMatcherUpdateStatus (fuel : nat) (matcherIdx : nat)
    (matchersToUpdate : list UpdateStatus) (cycleTracker : list bool) : Outcome :=
  match fuel with
  | O => OutOfFuel
  | S fuel' =>
      match matchersToUpdate !! matcherIdx, config !! matcherIdx with
      | Some UPDATE_UNKNOWN, Some matcher =>
          match oldAtomMatchingTrackerMap !! id matcher with
          | None =>
              Done (<[matcherIdx := UPDATE_NEW]> matchersToUpdate) cycleTracker
          | Some oldIdx =>
              let unchanged :=
                match oldAtomMatchingTrackers !! oldIdx with
                | Some old => String.eqb (serialize matcher) (getProto old)
                | None => false
                end in
              if negb unchanged then
                Done (<[matcherIdx := UPDATE_REPLACE]> matchersToUpdate) cycleTracker
              else
                match contents matcher with
                | kSimpleAtomMatcher _ =>
                    Done (<[matcherIdx := UPDATE_PRESERVE]> matchersToUpdate) cycleTracker
                | kCombination _ children =>
                    match childrenLoop (determineMatcherUpdateStatus fuel')
                            (id matcher) children matchersToUpdate
                            (<[matcherIdx := true]> cycleTracker) with
                    | (Done matchersToUpdate' cycleTracker', status) =>
                        Done (<[matcherIdx := status]> matchersToUpdate')
                             (<[matcherIdx := false]> cycleTracker')
                    | (other, _) => other
                    end
                end
          end
      | Some _, Some _ => Done matchersToUpdate cycleTracker
      | _, _ =>
          Invalid (mkInvalidConfigReason INVALID_CONFIG_REASON_MATCHER_MALFORMED
                     (Z.of_nat matcherIdx))
      end
  end.

(** The loop of the updater over all matchers of the new configuration. *)
Fixpoint determineFrom (fuel : nat) (indices : list nat)
    (matchersToUpdate : list UpdateStatus) (cycleTracker : list bool) : Outcome :=
  match indices with
  | [] => Done matchersToUpdate cycleTracker
  | i :: rest =>
      match determineMatcherUpdateStatus fuel i matchersToUpdate cycleTracker with
      | Done matchersToUpdate' cycleTracker' =>
          determineFrom fuel rest matchersToUpdate' cycleTracker'
      | other => other
      end
  end.

Definition determineAll : Outcome :=
  let n := length config in
  determineFrom (S n) (seq 0 n) (replicate n UPDATE_UNKNOWN) (replicate n false).

End Determine.

End Updater.

End ConfigUpdate.

(** ** anomaly/AlarmTracker: the next firing time of a periodic alarm *)

Module Alarm.

(** Modelled from the spec: the computation of the alarm time in
    AlarmTracker.cpp, which is not among the sources.  An alarm fires at
    [floor((now - offset) / period + 1) * period + offset]. *)
Definition nextFire (offset period now : Z) : Z :=
  ((now - offset) / period + 1) * period + offset.

(** [initAlarms] of the test: times in seconds, the offset counted from the
    time base. *)
Definition getAlarmTimestampSec (timeBaseSec offsetSec periodSec currentTimeSec : Z) : Z :=
  nextFire (timeBaseSec + offsetSec) periodSec currentTimeSec.

End Alarm.

(** * Part II: the properties *)

(** ** Combination matchers *)

Module CombinationFacts.
Import Matcher.

(** Every child index designates an entry of the result vector. *)
Definition childrenInRange (children : list Z) (matcherResults : list MatchingState) : Prop :=
  Forall (fun c => is_Some (at_index matcherResults c)) children.

Lemma breaks_spec (test : MatchingState -> bool) (children : list Z)
    (matcherResults : list MatchingState) :
  childrenInRange children matcherResults ->
  exists b, breaks test children matcherResults = Some b /\
    (b = true <->
     exists c r, In c children /\ at_index matcherResults c = Some r /\ test r = true).
Proof.
  unfold childrenInRange. induction children as [|c rest IH]; intros Hin; simpl.
  - exists false. split; [reflexivity|]. split; [discriminate|].
    intros (c & r & [] & _).
  - inversion Hin as [|? ? [r Hr] Hrest]; subst. rewrite Hr.
    destruct (test r) eqn:Ht.
    + exists true. split; [reflexivity|]. split; [|reflexivity].
      intros _. exists c, r. auto.
    + destruct (IH Hrest) as (b & Hb & Hiff). exists b. split; [exact Hb|].
      rewrite Hiff. split.
      * intros (c' & r' & Hc' & Hr' & Ht'). exists c', r'. auto.
      * intros (c' & r' & [->|Hc'] & Hr' & Ht').
        -- rewrite Hr in Hr'. injection Hr' as <-. congruence.
        -- exists c', r'. auto.
Qed.

Lemma isMatched_true (r : MatchingState) : isMatched r = true <-> r = kMatched.
Proof. destruct r; simpl; split; congruence. Qed.

Lemma isNotMatched_true (r : MatchingState) : isNotMatched r = true <-> r = kNotMatched.
Proof. destruct r; simpl; split; congruence. Qed.

Lemma in_range_lookup (children : list Z) (matcherResults : list MatchingState) (c : Z) :
  childrenInRange children matcherResults -> In c children ->
  exists r, at_index matcherResults c = Some r.
Proof.
  unfold childrenInRange. rewrite Forall_forall. intros Hall Hc.
  apply list_elem_of_In in Hc. destruct (Hall c Hc) as [r Hr]. eauto.
Qed.

(** Some child is matched / some child is not matched, as the loops see it. *)
Lemma some_child_matched children matcherResults :
  childrenInRange children matcherResults ->
  exists b, breaks isMatched children matcherResults = Some b /\
    (b = true <-> exists c, In c children /\ at_index matcherResults c = Some kMatched).
Proof.
  intros Hin. destruct (breaks_spec isMatched _ _ Hin) as (b & Hb & Hiff).
  exists b. split; [exact Hb|]. rewrite Hiff. split.
  - intros (c & r & Hc & Hr & Ht). apply isMatched_true in Ht. subst. eauto.
  - intros (c & Hc & Hr). exists c, kMatched. auto.
Qed.

Lemma some_child_unmatched children matcherResults :
  childrenInRange children matcherResults ->
  exists b, breaks (fun r => negb (isMatched r)) children matcherResults = Some b /\
    (b = true <-> exists c, In c children /\ at_index matcherResults c <> Some kMatched).
Proof.
  intros Hin.
  destruct (breaks_spec (fun r => negb (isMatched r)) _ _ Hin) as (b & Hb & Hiff).
  exists b. split; [exact Hb|]. rewrite Hiff. split.
  - intros (c & r & Hc & Hr & Ht). exists c. split; [exact Hc|].
    rewrite Hr. intros [= ->]. discriminate.
  - intros (c & Hc & Hne). destruct (in_range_lookup _ _ _ Hin Hc) as [r Hr].
    exists c, r. repeat split; auto. destruct r; simpl; auto; congruence.
Qed.

(** C4.  With every child index inside the result vector, [combinationMatch]
    returns: for AND, true iff every child is [kMatched]; for OR, true iff
    some child is [kMatched]; for NOT, true iff the (first and only) child is
    [kNotMatched], so that a child that was not computed does not count as
    not matched; for NAND, true iff some child is not [kMatched]; for NOR,
    true iff no child is [kMatched]; and false for an unspecified operation. *)
Theorem combinationMatch_semantics (children : list Z)
    (matcherResults : list MatchingState)
    (Hrange : childrenInRange children matcherResults) :
  (exists b, combinationMatch children AND matcherResults = Some b /\
     (b = true <-> forall c, In c children -> at_index matcherResults c = Some kMatched)) /\
  (exists b, combinationMatch children OR matcherResults = Some b /\
     (b = true <-> exists c, In c children /\ at_index matcherResults c = Some kMatched)) /\
  (forall c rest, children = c :: rest ->
     exists b, combinationMatch children NOT matcherResults = Some b /\
       (b = true <-> at_index matcherResults c = Some kNotMatched) /\
       (at_index matcherResults c = Some kNotComputed -> b = false)) /\
  (exists b, combinationMatch children NAND matcherResults = Some b /\
     (b = true <-> exists c, In c children /\ at_index matcherResults c <> Some kMatched)) /\
  (exists b, combinationMatch children NOR matcherResults = Some b /\
     (b = true <-> forall c, In c children -> at_index matcherResults c <> Some kMatched)) /\
  combinationMatch children LOGICAL_OPERATION_UNSPECIFIED matcherResults = Some false.
Proof.
  destruct (some_child_matched _ _ Hrange) as (bm & Hbm & Hm).
  destruct (some_child_unmatched _ _ Hrange) as (bu & Hbu & Hu).
  repeat split.
  - (* AND *)
    exists (negb bu). simpl. rewrite Hbu. split; [reflexivity|].
    rewrite negb_true_iff, <- not_true_iff_false, Hu. split.
    + intros Hno c Hc. destruct (in_range_lookup _ _ _ Hrange Hc) as [r Hr].
      destruct r; auto; exfalso; apply Hno; exists c; rewrite Hr; split; auto; congruence.
    + intros Hall (c & Hc & Hne). auto.
  - (* OR *)
    exists bm. simpl. auto.
  - (* NOT *)
    intros c rest ->. inversion Hrange as [|? ? [r Hr] _]; subst.
    exists (isNotMatched r). simpl. rewrite Hr. split; [reflexivity|]. split.
    + rewrite isNotMatched_true. split; congruence.
    + intros [= ->]. reflexivity.
  - (* NAND *)
    exists bu. simpl. auto.
  - (* NOR *)
    exists (negb bm). simpl. rewrite Hbm. split; [reflexivity|].
    rewrite negb_true_iff, <- not_true_iff_false, Hm. split.
    + intros Hno c Hc Heq. apply Hno. eauto.
    + intros Hall (c & Hc & Heq). exact (Hall c Hc Heq).
Qed.

(** The theorem at work: children 0 and 2 of a three-entry result vector. *)
Lemma combinationMatch_semantics_witness :
  childrenInRange [0; 2] [kMatched; kNotComputed; kNotMatched] /\
  (exists b, combinationMatch [0; 2] AND [kMatched; kNotComputed; kNotMatched] = Some b /\
     (b = true <->
      forall c, In c [0; 2] ->
                at_index [kMatched; kNotComputed; kNotMatched] c = Some kMatched)).
Proof.
  assert (Hr : childrenInRange [0; 2] [kMatched; kNotComputed; kNotMatched]).
  { repeat constructor; eexists; reflexivity. }
  split; [exact Hr|].
  exact (proj1 (combinationMatch_semantics [0; 2] [kMatched; kNotComputed; kNotMatched] Hr)).
Defined.

End CombinationFacts.

(** ** The uid map *)

Module UidMapFacts.
Import UidMap.

(** *** Lookups and tombstones *)

(** The map with one entry taken out; everything else as it was. *)
Definition without (key : Z * string) (u : t) : t :=
  mkUidMap (delete key (mMap u)) (mChanges u) (mDeletedApps u) (mBytesUsed u)
    (mLastUpdatePerConfigKey u) (mSubscriber u) (maxBytesOverride u).

Lemma elem_of_getAppNamesFromUid (u : t) (uid : Z) (norm : bool) (name : string) :
  name ∈ getAppNamesFromUid u uid norm <->
  exists pkg a, mMap u !! (uid, pkg) = Some a /\ deleted a = false /\
                name = (if norm then normalizeAppName pkg else pkg).
Proof.
  unfold getAppNamesFromUid, getAppNamesFromUidLocked.
  rewrite elem_of_list_to_set, list_elem_of_omap. split.
  - intros ([[i pkg] a] & Hin & Hf). simpl in Hf.
    apply elem_of_map_to_list in Hin.
    destruct (i =? uid) eqn:Ei; simpl in Hf; [|discriminate].
    destruct (deleted a) eqn:Ed; simpl in Hf; [discriminate|].
    apply Z.eqb_eq in Ei. subst i. injection Hf as <-. eauto.
  - intros (pkg & a & Hl & Hd & ->). exists ((uid, pkg), a). split.
    + apply elem_of_map_to_list. exact Hl.
    + simpl. rewrite Z.eqb_refl, Hd. reflexivity.
Qed.

Lemma elem_of_getAppUid (u : t) (package : string) (uid : Z) :
  uid ∈ getAppUid u package <->
  exists a, mMap u !! (uid, package) = Some a /\ deleted a = false.
Proof.
  unfold getAppUid. rewrite elem_of_list_to_set, list_elem_of_omap. split.
  - intros ([[i pkg] a] & Hin & Hf). simpl in Hf.
    apply elem_of_map_to_list in Hin.
    destruct (String.eqb pkg package) eqn:Ep; simpl in Hf; [|discriminate].
    destruct (deleted a) eqn:Ed; simpl in Hf; [discriminate|].
    apply String.eqb_eq in Ep. subst pkg. injection Hf as <-. eauto.
  - intros (a & Hl & Hd). exists ((uid, package), a). split.
    + apply elem_of_map_to_list. exact Hl.
    + simpl. rewrite String.eqb_refl, Hd. reflexivity.
Qed.

(** C10.  An entry whose [deleted] flag is set stays in the map and is
    invisible to the lookups: [hasApp] is false, [getAppVersion] is 0,
    [getAppNamesFromUid] does not list the package (and, normalized or not,
    returns what it would return without the entry), and [getAppUid] does
    not list the uid. *)
Theorem tombstone_invisible (u : t) (uid : Z) (packageName : string) (a : AppData)
    (Hentry : mMap u !! (uid, packageName) = Some a)
    (Hdeleted : deleted a = true) :
  hasApp u uid packageName = false /\
  getAppVersion u uid packageName = 0 /\
  (packageName ∉ getAppNamesFromUid u uid false) /\
  (forall returnNormalized,
     getAppNamesFromUid u uid returnNormalized =
     getAppNamesFromUid (without (uid, packageName) u) uid returnNormalized) /\
  uid ∉ getAppUid u packageName.
Proof.
  repeat split.
  - unfold hasApp. rewrite Hentry, Hdeleted. reflexivity.
  - unfold getAppVersion. rewrite Hentry, Hdeleted. reflexivity.
  - rewrite elem_of_getAppNamesFromUid. intros (pkg & a' & Hl & Hd & ->).
    rewrite Hentry in Hl. injection Hl as <-. congruence.
  - intros norm. apply set_eq. intros name.
    rewrite !elem_of_getAppNamesFromUid. unfold without; simpl. split.
    + intros (pkg & a' & Hl & Hd & ->). exists pkg, a'. repeat split; auto.
      rewrite lookup_delete_ne; [exact Hl|].
      intros [= <-]. rewrite Hentry in Hl. injection Hl as <-. congruence.
    + intros (pkg & a' & Hl & Hd & ->). exists pkg, a'. repeat split; auto.
      apply lookup_delete_Some in Hl. tauto.
  - rewrite elem_of_getAppUid. intros (a' & Hl & Hd).
    rewrite Hentry in Hl. injection Hl as <-. congruence.
Qed.

(** A tombstone at work: after an install and a removal the entry is there,
    flagged, and the lookups pass over it. *)
Definition tombstoned_example : t :=
  mkUidMap {[ (10001, "com.example.app"%string) :=
              mkAppData 7 "7.0" "store" true "" ]} [] [(10001, "com.example.app"%string)]
           0 ∅ false 0.

Lemma tombstone_invisible_witness :
  hasApp tombstoned_example 10001 "com.example.app" = false /\
  getAppVersion tombstoned_example 10001 "com.example.app" = 0 /\
  ("com.example.app"%string ∉ getAppNamesFromUid tombstoned_example 10001 false) /\
  (forall returnNormalized,
     getAppNamesFromUid tombstoned_example 10001 returnNormalized =
     getAppNamesFromUid (without (10001, "com.example.app"%string) tombstoned_example)
       10001 returnNormalized) /\
  10001 ∉ getAppUid tombstoned_example "com.example.app".
Proof.
  apply (tombstone_invisible tombstoned_example 10001 "com.example.app"
           (mkAppData 7 "7.0" "store" true "")).
  - reflexivity.
  - reflexivity.
Defined.

(** *** The byte budget *)

Section Budget.

Variable kBytesChangeRecord : Z.
Variable kMaxBytesUsedUidMap : Z.
Variable kMaxDeletedAppsInUidMap : Z.

(** What is known of the constants: a record costs something, and the budget
    plus one record fits a [size_t]. *)
Hypothesis record_cost_positive : 0 < kBytesChangeRecord.
Hypothesis default_budget : 0 <= kMaxBytesUsedUidMap.
Hypothesis default_budget_fits : kMaxBytesUsedUidMap + kBytesChangeRecord < 2 ^ 64.

Abbreviation K := kBytesChangeRecord.
Abbreviation limit := (UidMap.limit kMaxBytesUsedUidMap).
Abbreviation ensureBytesUsedBelowLimit :=
  (UidMap.ensureBytesUsedBelowLimit kBytesChangeRecord kMaxBytesUsedUidMap).
Abbreviation step := (UidMap.step kBytesChangeRecord kMaxBytesUsedUidMap kMaxDeletedAppsInUidMap).
Abbreviation run := (UidMap.run kBytesChangeRecord kMaxBytesUsedUidMap kMaxDeletedAppsInUidMap).

(** [mBytesUsed] is the number of change records times the cost of one. *)
Definition accounted (u : t) : Prop :=
  mBytesUsed u = K * Z.of_nat (length (mChanges u)).

(** The override, when it is used, leaves room for one more record. *)
Definition override_fits (u : t) : Prop :=
  maxBytesOverride u + K < 2 ^ 64.

Definition within_budget (u : t) : Prop :=
  accounted u /\ mBytesUsed u <= limit u /\ override_fits u.

Lemma limit_bounds (u : t) : override_fits u -> 0 <= limit u /\ limit u + K < 2 ^ 64.
Proof.
  unfold override_fits, UidMap.limit. intros Hfit.
  destruct (maxBytesOverride u <=? 0) eqn:E; [lia|].
  apply Z.leb_gt in E. lia.
Qed.

Lemma to_size_t_id (z : Z) : 0 <= z < 2 ^ 64 -> to_size_t z = z.
Proof. intros Hz. unfold to_size_t. apply Z.mod_small. exact Hz. Qed.

(** The loop of [ensureBytesUsedBelowLimit] drops the least number of records
    from the front that brings the bytes within the limit. *)
Lemma ensure_loop_spec (lim : Z) (changes : list ChangeRecord) :
  0 <= lim ->
  K * Z.of_nat (length changes) < 2 ^ 64 ->
  exists n : nat,
    (n <= length changes)%nat /\
    ensure_loop K lim (K * Z.of_nat (length changes)) changes =
      Some (K * Z.of_nat (length (drop n changes)), drop n changes) /\
    K * Z.of_nat (length (drop n changes)) <= lim /\
    (forall m : nat, (m < n)%nat -> K * Z.of_nat (length (drop m changes)) > lim).
Proof.
  intros Hlim. induction changes as [|r rest IH]; intros Hfit.
  - exists 0%nat. simpl. rewrite Z.mul_0_r.
    destruct (0 >? lim) eqn:E; [apply Z.gtb_lt in E; lia|].
    repeat split; auto; lia.
  - cbn [ensure_loop].
    destruct (K * Z.of_nat (length (r :: rest)) >? lim) eqn:E.
    + cbn [length] in Hfit, E |- *. rewrite Nat2Z.inj_succ in Hfit, E |- *.
      assert (Hsub : to_size_t (K * Z.succ (Z.of_nat (length rest)) - K)
                     = K * Z.of_nat (length rest)).
      { rewrite to_size_t_id; lia. }
      rewrite Hsub. destruct IH as (n & Hn & Hrun & Hle & Hmin); [lia|].
      exists (S n). cbn [drop length]. repeat split; auto; [lia|].
      intros [|m] Hm.
      * cbn [drop length]. rewrite Nat2Z.inj_succ. apply Z.gtb_lt in E. lia.
      * cbn [drop]. apply Hmin. lia.
    + exists 0%nat. cbn [drop]. rewrite Z.gtb_ltb in E. apply Z.ltb_ge in E.
      repeat split; auto; lia.
Qed.

Lemma ensure_spec (u : t) :
  accounted u -> override_fits u -> mBytesUsed u < 2 ^ 64 ->
  exists (n : nat) (u' : t),
    ensureBytesUsedBelowLimit u = Some u' /\
    (n <= length (mChanges u))%nat /\
    mChanges u' = drop n (mChanges u) /\
    mBytesUsed u' = mBytesUsed u - K * Z.of_nat n /\
    mBytesUsed u' <= limit u /\
    (forall m : nat, (m < n)%nat -> mBytesUsed u - K * Z.of_nat m > limit u) /\
    mMap u' = mMap u /\ mDeletedApps u' = mDeletedApps u /\
    mLastUpdatePerConfigKey u' = mLastUpdatePerConfigKey u /\
    mSubscriber u' = mSubscriber u /\ maxBytesOverride u' = maxBytesOverride u.
Proof.
  intros Hacc Hfit Hlt. unfold accounted in Hacc.
  destruct (limit_bounds u Hfit) as [Hlim _].
  destruct (ensure_loop_spec (limit u) (mChanges u) Hlim) as (n & Hn & Hrun & Hle & Hmin).
  { rewrite <- Hacc. exact Hlt. }
  unfold UidMap.ensureBytesUsedBelowLimit. rewrite Hacc, Hrun.
  eexists n, _. split; [reflexivity|]. cbn.
  rewrite length_drop in *. rewrite Nat2Z.inj_sub in * by lia.
  repeat split; auto; try lia.
  intros m Hm. specialize (Hmin m Hm).
  rewrite length_drop, Nat2Z.inj_sub in Hmin by lia. lia.
Qed.

Lemma ensure_within_budget (u u' : t) :
  accounted u -> override_fits u -> mBytesUsed u < 2 ^ 64 ->
  ensureBytesUsedBelowLimit u = Some u' -> within_budget u'.
Proof.
  intros Hacc Hfit Hlt Hrun.
  destruct (ensure_spec u Hacc Hfit Hlt)
    as (n & u2 & Hrun2 & Hn & Hch & Hb & Hle & _ & _ & _ & _ & _ & Hmbo).
  rewrite Hrun in Hrun2. injection Hrun2 as <-.
  unfold within_budget, accounted, override_fits, UidMap.limit in *.
  rewrite Hmbo, Hch, length_drop, Hb, Hacc, Nat2Z.inj_sub by lia.
  repeat split; auto; lia.
Qed.

(** The records [appendUidMap] keeps when it prunes below a cutoff. *)
Definition kept (cutoff : Z) (changes : list ChangeRecord) : list ChangeRecord :=
  List.filter (fun r => negb (timestampNs r <? cutoff)) changes.



Lemma within_budget_nonneg (u : t) : within_budget u -> 0 <= mBytesUsed u < 2 ^ 64.
Proof.
  intros (Hacc & Hle & Hfit). destruct (limit_bounds u Hfit). unfold accounted in Hacc.
  split; [|lia]. rewrite Hacc. lia.
Qed.

(** After a record was appended and paid for, the guardrail runs and brings
    the state within the budget. *)
Lemma push_then_ensure (u : t) (r : ChangeRecord) m d :
  within_budget u ->
  exists u', ensureBytesUsedBelowLimit
               (mkUidMap m (mChanges u ++ [r]) d (to_size_t (mBytesUsed u + K))
                  (mLastUpdatePerConfigKey u) (mSubscriber u) (maxBytesOverride u))
             = Some u' /\ within_budget u' /\ mMap u' = m /\
             mSubscriber u' = mSubscriber u /\ maxBytesOverride u' = maxBytesOverride u.
Proof.
  intros Hwb. pose proof (within_budget_nonneg u Hwb) as Hnn.
  destruct Hwb as (Hacc & Hle & Hfit). destruct (limit_bounds u Hfit) as [Hl0 Hl1].
  unfold accounted in Hacc.
  set (u1 := mkUidMap m (mChanges u ++ [r]) d (to_size_t (mBytesUsed u + K))
               (mLastUpdatePerConfigKey u) (mSubscriber u) (maxBytesOverride u)).
  assert (Hb1 : mBytesUsed u1 = mBytesUsed u + K).
  { subst u1; cbn. apply to_size_t_id. unfold UidMap.limit in *. lia. }
  assert (Hlim1 : limit u1 = limit u) by reflexivity.
  assert (Hacc1 : accounted u1).
  { unfold accounted. rewrite Hb1. subst u1; cbn. rewrite length_app; cbn.
    rewrite Nat2Z.inj_add. lia. }
  assert (Hfit1 : override_fits u1) by exact Hfit.
  assert (Hlt1 : mBytesUsed u1 < 2 ^ 64) by (rewrite Hb1; lia).
  destruct (ensure_spec u1 Hacc1 Hfit1 Hlt1)
    as (n & u' & Hrun & _ & _ & _ & _ & _ & Hm & _ & _ & Hs & Hmbo).
  exists u'. repeat split; auto.
  - exact (proj1 (ensure_within_budget u1 u' Hacc1 Hfit1 Hlt1 Hrun)).
  - exact (proj1 (proj2 (ensure_within_budget u1 u' Hacc1 Hfit1 Hlt1 Hrun))).
  - exact (proj2 (proj2 (ensure_within_budget u1 u' Hacc1 Hfit1 Hlt1 Hrun))).
Qed.

Lemma updateApp_returns (u : t) ts appName uid v vs ins cert :
  within_budget u ->
  exists u' calls,
    UidMap.updateApp K kMaxBytesUsedUidMap ts appName uid v vs ins cert u = Some (u', calls) /\
    within_budget u' /\
    mMap u' = <[(uid, appName) := mkAppData v vs ins false cert]> (mMap u) /\
    calls = (if mSubscriber u && bool_decide (is_Some (mMap u !! (uid, appName)))
             then [notifyAppUpgrade ts appName uid v] else []).
Proof.
  intros Hwb. unfold UidMap.updateApp.
  destruct (mMap u !! (uid, appName)) as [old|] eqn:Hold.
  - edestruct (push_then_ensure u) as (u' & Hrun & Hwb' & Hm & Hs & _); [exact Hwb|].
    rewrite Hrun. eexists _, _. split; [reflexivity|]. repeat split; try apply Hwb'; auto.
    rewrite bool_decide_true by eauto. rewrite andb_true_r. reflexivity.
  - edestruct (push_then_ensure u) as (u' & Hrun & Hwb' & Hm & Hs & _); [exact Hwb|].
    rewrite Hrun. eexists _, _. split; [reflexivity|]. repeat split; try apply Hwb'; auto.
    rewrite bool_decide_false by (intros [? ?]; discriminate).
    rewrite andb_false_r. reflexivity.
Qed.






Lemma init_within_budget (maxBytes : Z) :
  maxBytes + K < 2 ^ 64 -> within_budget (init maxBytes).
Proof.
  intros Hfit. unfold within_budget, accounted, override_fits, UidMap.limit; cbn.
  repeat split; auto; try lia. destruct (maxBytes <=? 0) eqn:E; [lia|].
  apply Z.leb_gt in E. lia.
Qed.


(** C7 (amended).  On a map within its budget, [updateApp] completes; the
    entry of [(uid, appName)] then holds the new version, version string,
    installer and certificate hash and is not deleted; and
    [notifyAppUpgrade] is called iff a listener is registered and the key was
    already in the map, whether its entry was live or a tombstone.  For a new
    key nothing is called. *)
Theorem updateApp_upsert_and_notify (u : t) (timestamp : Z) (appName : string)
    (uid versionCode : Z) (versionString installer certificateHash : string)
    (Hwb : within_budget u) :
  exists u' calls,
    UidMap.updateApp K kMaxBytesUsedUidMap timestamp appName uid versionCode
      versionString installer certificateHash u = Some (u', calls) /\
    mMap u' !! (uid, appName) =
      Some (mkAppData versionCode versionString installer false certificateHash) /\
    (In (notifyAppUpgrade timestamp appName uid versionCode) calls <->
     mSubscriber u = true /\ is_Some (mMap u !! (uid, appName))) /\
    (forall c, In c calls -> c = notifyAppUpgrade timestamp appName uid versionCode) /\
    (mMap u !! (uid, appName) = None -> calls = []).
Proof.
  destruct (updateApp_returns u timestamp appName uid versionCode versionString
              installer certificateHash Hwb) as (u' & calls & Hrun & _ & Hm & Hcalls).
  exists u', calls. split; [exact Hrun|]. split.
  { rewrite Hm. apply lookup_insert_eq. }
  subst calls.
  destruct (mSubscriber u);
    destruct (bool_decide_reflect (is_Some (mMap u !! (uid, appName)))) as [Hs|Hn];
    cbn [andb].
  - split; [split; [auto|intros _; left; reflexivity]|].
    split; [intros c [<-|[]]; reflexivity|].
    intros Hnone. rewrite Hnone in Hs. destruct Hs; discriminate.
  - split; [split; [intros []|intros [_ Hs]; contradiction]|].
    split; [intros c []|reflexivity].
  - split; [split; [intros []|intros [Hf _]; discriminate]|].
    split; [intros c []|reflexivity].
  - split; [split; [intros []|intros [Hf _]; discriminate]|].
    split; [intros c []|reflexivity].
Qed.

(** *** The high-water marks *)

Lemma prune_loop_kept (cutoff b : Z) (changes : list ChangeRecord) :
  snd (prune_loop K cutoff b changes) = kept cutoff changes.
Proof.
  revert b. induction changes as [|r rest IH]; intros b; [reflexivity|].
  cbn [prune_loop kept List.filter].
  destruct (timestampNs r <? cutoff); cbn [negb].
  - apply IH.
  - specialize (IH b). destruct (prune_loop K cutoff b rest) as [b' k'].
    cbn in *. f_equal. exact IH.
Qed.

Lemma kept_bound (cutoff : Z) (changes : list ChangeRecord) (r : ChangeRecord) :
  In r (kept cutoff changes) <-> In r changes /\ cutoff <= timestampNs r.
Proof.
  unfold kept. rewrite List.filter_In, negb_true_iff, Z.ltb_ge. reflexivity.
Qed.

Lemma appendUidMap_marks (u : t) ts key :
  is_Some (mLastUpdatePerConfigKey u !! key) ->
  mLastUpdatePerConfigKey (fst (UidMap.appendUidMap K ts key u)) =
    <[key := ts]> (mLastUpdatePerConfigKey u).
Proof.
  intros [mark Hmark]. unfold UidMap.appendUidMap. rewrite Hmark.
  destruct (mChanges u);
    match goal with |- context [if ?c then _ else _] => destruct c end;
    try reflexivity;
    match goal with |- context [prune_loop ?a ?b ?c ?d] => destruct (prune_loop a b c d) end;
    reflexivity.
Qed.

Lemma appendUidMap_changes (u : t) ts key :
  is_Some (mLastUpdatePerConfigKey u !! key) ->
  mChanges (fst (UidMap.appendUidMap K ts key u)) =
    if minimumOf (<[key := ts]> (mLastUpdatePerConfigKey u))
         >? getMinimumTimestampNs u
    then kept (minimumOf (<[key := ts]> (mLastUpdatePerConfigKey u))) (mChanges u)
    else mChanges u.
Proof.
  intros [mark Hmark]. unfold UidMap.appendUidMap, getMinimumTimestampNs. rewrite Hmark.
  assert (Hm1 : match mChanges u with
                | [] => mLastUpdatePerConfigKey u
                | _ :: _ => mLastUpdatePerConfigKey u
                end = mLastUpdatePerConfigKey u) by (destruct (mChanges u); reflexivity).
  rewrite Hm1.
  destruct (minimumOf (<[key:=ts]> (mLastUpdatePerConfigKey u))
              >? minimumOf (mLastUpdatePerConfigKey u)); [|reflexivity].
  rewrite <- (prune_loop_kept _ (mBytesUsed u)).
  destruct (prune_loop K _ (mBytesUsed u) (mChanges u)). reflexivity.
Qed.

Lemma appendUidMap_written (u : t) ts key :
  out_changes (snd (UidMap.appendUidMap K ts key u)) =
    List.filter (fun r => timestampNs r >? default 0 (mLastUpdatePerConfigKey u !! key))
                (mChanges u).
Proof.
  unfold UidMap.appendUidMap.
  match goal with |- context [if ?c then _ else _] => destruct c end; [|reflexivity].
  match goal with |- context [prune_loop ?a ?b ?c ?d] => destruct (prune_loop a b c d) end.
  reflexivity.
Qed.

(** A series of [appendUidMap] calls, each with its timestamp and config. *)
Fixpoint appendAll (calls : list (Z * ConfigKey)) (u : t) : t :=
  match calls with
  | [] => u
  | (ts, key) :: rest => appendAll rest (fst (UidMap.appendUidMap K ts key u))
  end.

Definition registered (u : t) (calls : list (Z * ConfigKey)) : Prop :=
  forall ts key, In (ts, key) calls -> is_Some (mLastUpdatePerConfigKey u !! key).

(** Once some call has pruned below a cutoff, nothing older comes back: the
    largest minimum seen so far bounds the records from below. *)
Lemma appendAll_high_water (calls : list (Z * ConfigKey)) (u : t) (m0 hmax : Z) :
  registered u calls ->
  getMinimumTimestampNs u <= hmax ->
  (hmax > m0 -> forall r, In r (mChanges u) -> hmax <= timestampNs r) ->
  exists hmax',
    getMinimumTimestampNs (appendAll calls u) <= hmax' /\
    (hmax' > m0 -> forall r, In r (mChanges (appendAll calls u)) -> hmax' <= timestampNs r).
Proof.
  revert u hmax. induction calls as [|[ts key] rest IH]; intros u hmax Hreg Hle Hold.
  - exists hmax. auto.
  - cbn [appendAll].
    assert (Hkey : is_Some (mLastUpdatePerConfigKey u !! key)).
    { apply (Hreg ts). left. reflexivity. }
    pose proof (appendUidMap_marks u ts key Hkey) as Hmarks.
    pose proof (appendUidMap_changes u ts key Hkey) as Hch.
    set (u1 := fst (UidMap.appendUidMap K ts key u)) in *.
    assert (Hmin1 : getMinimumTimestampNs u1
                    = minimumOf (<[key:=ts]> (mLastUpdatePerConfigKey u))).
    { unfold getMinimumTimestampNs. rewrite Hmarks. reflexivity. }
    rewrite <- Hmin1 in Hch.
    assert (Hreg1 : registered u1 rest).
    { intros ts' key' Hin. rewrite Hmarks.
      destruct (decide (key = key')) as [->|Hne].
      - rewrite lookup_insert_eq. eauto.
      - rewrite lookup_insert_ne by exact Hne. apply (Hreg ts'). right. exact Hin. }
    destruct (getMinimumTimestampNs u1 >? getMinimumTimestampNs u) eqn:E.
    + apply Z.gtb_lt in E.
      apply (IH u1 (Z.max hmax (getMinimumTimestampNs u1)) Hreg1); [lia|].
      intros Hgt r Hr. rewrite Hch in Hr. apply kept_bound in Hr. destruct Hr as [Hr Hb].
      destruct (Z.max_spec hmax (getMinimumTimestampNs u1)) as [[_ ->]|[Hge ->]]; [exact Hb|].
      apply Hold; [|exact Hr]. rewrite Z.max_l in Hgt by lia. exact Hgt.
    + rewrite Z.gtb_ltb in E. apply Z.ltb_ge in E.
      apply (IH u1 hmax Hreg1); [lia|]. rewrite Hch. exact Hold.
Qed.

End Budget.

(** *** Concrete runs *)

(** Values for the constants in the runs below: a record of 136 bytes, a
    default budget of 50 KiB, at most 100 remembered deletions. *)
Definition K0 : Z := 136.
Definition budget0 : Z := 51200.
Definition maxDeleted0 : Z := 100.

Lemma K0_positive : 0 < K0.
Proof. reflexivity. Defined.

Lemma budget0_nonneg : 0 <= budget0.
Proof. discriminate. Defined.

Lemma budget0_fits : budget0 + K0 < 2 ^ 64.
Proof. reflexivity. Defined.

(** Three installs under a budget of 300 bytes: the third record does not
    fit, and the oldest goes. *)
Definition three_installs : list Op :=
  [OpUpdateApp 100 "com.example.a" 10001 1 "1.0" "store" "";
   OpUpdateApp 200 "com.example.b" 10002 1 "1.0" "store" "";
   OpUpdateApp 300 "com.example.c" 10003 1 "1.0" "store" ""].

Example three_installs_evicts_oldest :
  (fun u => (mBytesUsed u, map timestampNs (mChanges u)))
    <$> run K0 budget0 maxDeleted0 (init 300) three_installs
  = Some (272, [200; 300]).
Proof. vm_compute. reflexivity. Qed.


(** An install, a removal, and then the app comes back.  The first install
    calls nobody; the re-install finds the tombstone and calls
    [notifyAppUpgrade]. *)
Definition install_then_remove : list Op :=
  [OpSetListener true;
   OpUpdateApp 100 "com.example.app" 10001 7 "7.0" "store" "";
   OpRemoveApp 200 "com.example.app" 10001].

(** C7, as stated, fails: the key is in the map but tombstoned, not live, and
    the listener is called all the same. *)
Lemma updateApp_notifies_for_tombstone :
  match run K0 budget0 maxDeleted0 (init 0) install_then_remove with
  | Some u =>
      (exists a, mMap u !! (10001, "com.example.app"%string) = Some a /\ deleted a = true) /\
      hasApp u 10001 "com.example.app" = false /\
      snd <$> UidMap.updateApp K0 budget0 300 "com.example.app" 10001 8 "8.0" "store" "" u
        = Some [notifyAppUpgrade 300 "com.example.app" 10001 8]
  | None => False
  end.
Proof.
  vm_compute. split; [|split; reflexivity].
  eexists. split; reflexivity.
Qed.

Lemma updateApp_upsert_and_notify_witness :
  within_budget K0 budget0 (init 0) /\
  exists u' calls,
    UidMap.updateApp K0 budget0 100 "com.example.app" 10001 7 "7.0" "store" "" (init 0)
      = Some (u', calls) /\
    mMap u' !! (10001, "com.example.app"%string) = Some (mkAppData 7 "7.0" "store" false "") /\
    (In (notifyAppUpgrade 100 "com.example.app" 10001 7) calls <->
     mSubscriber (init 0) = true /\
     is_Some (mMap (init 0) !! (10001, "com.example.app"%string))) /\
    (forall c, In c calls -> c = notifyAppUpgrade 100 "com.example.app" 10001 7) /\
    (mMap (init 0) !! (10001, "com.example.app"%string) = None -> calls = []).
Proof.
  assert (Hwb : within_budget K0 budget0 (init 0)).
  { apply init_within_budget; [exact budget0_nonneg|reflexivity]. }
  split; [exact Hwb|].
  exact (updateApp_upsert_and_notify K0 budget0 K0_positive budget0_nonneg budget0_fits
           (init 0) 100 "com.example.app" 10001 7 "7.0" "store" "" Hwb).
Defined.

(** Two configs register, an app is installed at time 5, the first config
    reports at time 10, the second config is removed, and the first config
    reports again at time 10. *)
Definition configA : ConfigKey := (1000, 1).
Definition configB : ConfigKey := (1000, 2).

Definition report_after_removal : list Op :=
  [OpOnConfigUpdated configA;
   OpOnConfigUpdated configB;
   OpUpdateApp 5 "com.example.app" 10001 7 "7.0" "store" "";
   OpAppendUidMap 10 configA;
   OpOnConfigRemoved configB;
   OpAppendUidMap 10 configA].

(** C9, as stated, fails: [appendUidMap] has run for the only registered
    config, its mark is 10, and the record of time 5 is still in the log,
    because the last call did not move the minimum. *)
Lemma stale_record_survives_append :
  match run K0 budget0 maxDeleted0 (init 0) report_after_removal with
  | Some u =>
      map_to_list (mLastUpdatePerConfigKey u) = [(configA, 10)] /\
      getMinimumTimestampNs u = 10 /\
      exists r, In r (mChanges u) /\ timestampNs r = 5 /\
                timestampNs r < getMinimumTimestampNs u
  | None => False
  end.
Proof.
  vm_compute. split; [reflexivity|]. split; [reflexivity|].
  eexists. split; [left; reflexivity|]. split; reflexivity.
Qed.

End UidMapFacts.

(** ** The state tracker *)

Module StateTrackerFacts.
Import StateTracker.

Lemma to_int32_id (z : Z) : - 2 ^ 31 <= z < 2 ^ 31 -> to_int32 z = z.
Proof. intros Hz. unfold to_int32. rewrite Z.mod_small; lia. Qed.

Section Nested.

Context {Key : Type} `{Countable Key}.
Variable kStateUnknown : Z.

Abbreviation tracker := (@StateTracker.t Key _ _).
Abbreviation update := (@updateStateForPrimaryKey Key _ _ kStateUnknown).

(** The tracker after the entry of [primaryKey] was set, or erased. *)
Definition withEntry (primaryKey : Key) (info : StateValueInfo) (tr : tracker) : tracker :=
  mkTracker (mAtomId tr) (mFieldId tr) (<[primaryKey := info]> (mStateMap tr))
    (mListeners tr).

Definition withoutEntry (primaryKey : Key) (tr : tracker) : tracker :=
  mkTracker (mAtomId tr) (mFieldId tr) (delete primaryKey (mStateMap tr)) (mListeners tr).

(** [primaryKey] is tracked, in state [s] with nested count [c]. *)
Definition tracked (tr : tracker) (primaryKey : Key) (s c : Z) : Prop :=
  mStateMap tr !! primaryKey = Some (mkStateValueInfo s c).

(** The running count of a key that is in state [s] with count [c]: up by one
    for an event that repeats [s], down by one for any other. *)
Fixpoint runningCount (s c : Z) (events : list (Z * Z)) : Z :=
  match events with
  | [] => c
  | (_, e) :: rest => runningCount s (if e =? s then c + 1 else c - 1) rest
  end.

Lemma nested_equal (tr : tracker) (eventTimeNs : Z) (primaryKey : Key) (s c : Z) :
  tracked tr primaryKey s c -> s <> kStateUnknown -> - 2 ^ 31 <= c + 1 < 2 ^ 31 ->
  update eventTimeNs primaryKey s true tr =
    (withEntry primaryKey (mkStateValueInfo s (c + 1)) tr, []).
Proof.
  unfold tracked, updateStateForPrimaryKey, updateInfo. intros -> Hs Hc. cbn.
  apply Z.eqb_neq in Hs. rewrite Hs, Z.eqb_refl, to_int32_id by exact Hc. reflexivity.
Qed.

Lemma nested_opposite (tr : tracker) (eventTimeNs : Z) (primaryKey : Key) (s c e : Z) :
  tracked tr primaryKey s c -> s <> kStateUnknown -> e <> kStateUnknown -> e <> s ->
  - 2 ^ 31 <= c - 1 < 2 ^ 31 ->
  update eventTimeNs primaryKey e true tr =
    if c - 1 =? 0
    then (withEntry primaryKey (mkStateValueInfo e 1) tr,
          notifyListeners tr eventTimeNs primaryKey s e)
    else (withEntry primaryKey (mkStateValueInfo s (c - 1)) tr, []).
Proof.
  unfold tracked, updateStateForPrimaryKey, updateInfo. intros -> Hs He Hes Hc. cbn.
  apply Z.eqb_neq in Hs, He. rewrite Hs, He.
  assert (Hse : (s =? e) = false) by (apply Z.eqb_neq; congruence).
  rewrite Hse, to_int32_id by exact Hc.
  destruct (c - 1 =? 0); reflexivity.
Qed.

Lemma nested_unknown (tr : tracker) (eventTimeNs : Z) (primaryKey : Key) (s c : Z) :
  tracked tr primaryKey s c ->
  update eventTimeNs primaryKey kStateUnknown true tr =
    (withoutEntry primaryKey tr,
     if s =? kStateUnknown then []
     else notifyListeners tr eventTimeNs primaryKey s kStateUnknown).
Proof.
  unfold tracked, updateStateForPrimaryKey, updateInfo. intros ->. cbn.
  rewrite Z.eqb_refl. destruct (s =? kStateUnknown); reflexivity.
Qed.

Lemma tracked_withEntry (tr : tracker) (primaryKey : Key) (s c : Z) :
  tracked (withEntry primaryKey (mkStateValueInfo s c) tr) primaryKey s c.
Proof. unfold tracked, withEntry; cbn. apply lookup_insert_eq. Qed.

(** Events that either repeat [s] or carry the opposite state [o]. *)
Definition binary (s o : Z) (events : list (Z * Z)) : Prop :=
  Forall (fun ev => snd ev = s \/ snd ev = o) events.

Lemma runningCount_swap (s o : Z) (events : list (Z * Z)) (a d : Z) :
  s <> o -> binary s o events ->
  runningCount s a events + runningCount o d events = a + d.
Proof.
  intros Hso. revert a d.
  induction events as [|[ts e] rest IH]; intros a d Hbin; [reflexivity|].
  inversion Hbin as [|? ? Hev Hrest]; subst. cbn [snd] in Hev.
  cbn [runningCount]. rewrite IH by exact Hrest.
  destruct Hev as [-> | ->]; rewrite Z.eqb_refl.
  - destruct (s =? o) eqn:E; [apply Z.eqb_eq in E; congruence|lia].
  - destruct (o =? s) eqn:E; [apply Z.eqb_eq in E; congruence|lia].
Qed.

(** Where a run of binary events leaves the key: with a positive running
    count the state has not moved and the count is the running count; else
    the other state holds, with what is left over. *)
Lemma nested_run (events : list (Z * Z)) :
  forall (tr : tracker) (primaryKey : Key) (s o c : Z),
    s <> kStateUnknown -> o <> kStateUnknown -> s <> o ->
    1 <= c -> c + Z.of_nat (length events) < 2 ^ 31 ->
    binary s o events ->
    tracked tr primaryKey s c ->
    let r := runningCount s c events in
    let tr' := fst (nestedUpdates kStateUnknown primaryKey events tr) in
    (0 < r -> tracked tr' primaryKey s r) /\
    (r <= 0 -> tracked tr' primaryKey o (1 - r)).
Proof.
  induction events as [|[ts e] rest IH]; intros tr key s o c Hs Ho Hso Hc Hlen Hbin Htr.
  - cbn. split; [auto|lia].
  - cbn [length] in Hlen. rewrite Nat2Z.inj_succ in Hlen.
    inversion Hbin as [|? ? Hev Hrest]; subst. cbn [snd] in Hev.
    cbn [nestedUpdates runningCount].
    destruct (e =? s) eqn:Ees.
    + (* the event repeats the state *)
      apply Z.eqb_eq in Ees. subst e.
      rewrite (nested_equal tr ts key s c Htr Hs) by lia.
      specialize (IH (withEntry key (mkStateValueInfo s (c + 1)) tr) key s o (c + 1)
                     Hs Ho Hso ltac:(lia) ltac:(lia) Hrest (tracked_withEntry _ _ _ _)).
      cbv zeta in IH.
      destruct (nestedUpdates kStateUnknown key rest _) as [tr2 calls2]. exact IH.
    + (* the opposite event *)
      apply Z.eqb_neq in Ees. destruct Hev as [-> | ->]; [congruence|].
      rewrite (nested_opposite tr ts key s c o Htr Hs Ho Ees) by lia.
      destruct (c - 1 =? 0) eqn:Ec.
      * (* the count reaches zero: the state flips *)
        apply Z.eqb_eq in Ec. assert (c = 1) by lia. subst c.
        assert (Hbin' : binary o s rest).
        { eapply Forall_impl; [exact Hrest|]. cbn. tauto. }
        specialize (IH (withEntry key (mkStateValueInfo o 1) tr) key o s 1
                       Ho Hs ltac:(congruence) ltac:(lia) ltac:(lia) Hbin'
                       (tracked_withEntry _ _ _ _)).
        cbv zeta in IH.
        destruct (nestedUpdates kStateUnknown key rest _) as [tr2 calls2].
        cbn [fst] in *.
        assert (Hflip : runningCount s (1 - 1) rest = 1 - runningCount o 1 rest).
        { pose proof (runningCount_swap s o rest (1 - 1) 1 Hso Hrest). lia. }
        rewrite Hflip. destruct IH as [IHpos IHneg]. split.
        -- intros Hr. apply IHneg. lia.
        -- intros Hr. replace (1 - (1 - runningCount o 1 rest)) with (runningCount o 1 rest)
             by lia. apply IHpos. lia.
      * apply Z.eqb_neq in Ec.
        specialize (IH (withEntry key (mkStateValueInfo s (c - 1)) tr) key s o (c - 1)
                       Hs Ho Hso ltac:(lia) ltac:(lia) Hrest (tracked_withEntry _ _ _ _)).
        cbv zeta in IH.
        destruct (nestedUpdates kStateUnknown key rest _) as [tr2 calls2]. exact IH.
Qed.

(** The listener calls for one change of state of [primaryKey]: every
    listener of the tracker is called once, with the atom of the tracker, the
    key, the old and the new state. *)
Definition notified (tr : tracker) (eventTimeNs : Z) (primaryKey : Key)
    (oldState newState : Z) : list (nat * StateChanged Key) :=
  map (fun l => (l, mkStateChanged eventTimeNs (mAtomId tr) primaryKey oldState newState))
      (mListeners tr).

(** C5.  A nested update of a tracked key that is in a known state [s] with
    count [c]:
    - with the same state, the count goes up by one and no listener is called;
    - with another known state, the count goes down by one, and exactly when
      it reaches zero the state becomes the new one with count 1 and every
      listener is called, with [s] as the old state and the new state;
    - with [kStateUnknown], the entry of the key is erased (and every
      listener is told of the change from [s] to [kStateUnknown]).
    Hence after any run of events that each repeat [s] or carry one opposite
    state, the key is in state [s] iff the running count (the count plus the
    repeats minus the opposites) is positive, and the count is then the
    running count. *)
Theorem nested_counting (tr : tracker) (eventTimeNs : Z) (primaryKey : Key) (s c : Z)
    (Htracked : tracked tr primaryKey s c)
    (Hknown : s <> kStateUnknown)
    (Hcount : - 2 ^ 31 < c < 2 ^ 31 - 1) :
  update eventTimeNs primaryKey s true tr =
    (withEntry primaryKey (mkStateValueInfo s (c + 1)) tr, []) /\
  (forall e, e <> kStateUnknown -> e <> s ->
     update eventTimeNs primaryKey e true tr =
       if c - 1 =? 0
       then (withEntry primaryKey (mkStateValueInfo e 1) tr,
             notified tr eventTimeNs primaryKey s e)
       else (withEntry primaryKey (mkStateValueInfo s (c - 1)) tr, [])) /\
  (update eventTimeNs primaryKey kStateUnknown true tr =
     (withoutEntry primaryKey tr,
      notified tr eventTimeNs primaryKey s kStateUnknown) /\
   mStateMap (withoutEntry primaryKey tr) !! primaryKey = None) /\
  (forall o events,
     o <> kStateUnknown -> o <> s -> binary s o events ->
     1 <= c -> c + Z.of_nat (length events) < 2 ^ 31 ->
     let r := runningCount s c events in
     let tr' := fst (nestedUpdates kStateUnknown primaryKey events tr) in
     (getStateValue kStateUnknown tr' primaryKey = (true, s) <-> 0 < r) /\
     (0 < r -> tracked tr' primaryKey s r) /\
     (r <= 0 -> tracked tr' primaryKey o (1 - r))).
Proof.
  split; [apply nested_equal; auto; lia|].
  split.
  { intros e He Hes. rewrite (nested_opposite tr eventTimeNs primaryKey s c e) by (auto; lia).
    destruct (c - 1 =? 0); reflexivity. }
  split.
  { split.
    - rewrite (nested_unknown tr eventTimeNs primaryKey s c Htracked).
      destruct (s =? kStateUnknown) eqn:E; [apply Z.eqb_eq in E; congruence|reflexivity].
    - cbn. apply lookup_delete_eq. }
  intros o events Ho Hos Hbin Hc1 Hlen.
  destruct (nested_run events tr primaryKey s o c Hknown Ho ltac:(congruence) Hc1 Hlen
              Hbin Htracked) as [Hpos Hneg].
  cbv zeta. split; [|split; assumption].
  unfold getStateValue. split.
  - intros Hget. destruct (Z_lt_le_dec 0 (runningCount s c events)) as [Hr|Hr]; [exact Hr|].
    specialize (Hneg Hr). unfold tracked in Hneg. rewrite Hneg in Hget.
    cbn in Hget. congruence.
  - intros Hr. specialize (Hpos Hr). unfold tracked in Hpos. rewrite Hpos. reflexivity.
Qed.

End Nested.

(** A wakelock-like key, held once (state 1, count 1), with one listener. *)
Definition held_once : @StateTracker.t Z _ _ :=
  mkTracker 10 1 {[ 42 := mkStateValueInfo 1 1 ]} [7%nat].

(** On the key held once: a second ON is counted and calls nobody; an OFF
    brings the count to zero, flips the state and calls the listener with the
    old and the new state; an unknown state erases the key and tells the
    listener so. *)
Lemma nested_counting_witness :
  (tracked held_once 42 1 1 /\ 1 <> -1 /\ - 2 ^ 31 < 1 < 2 ^ 31 - 1) /\
  updateStateForPrimaryKey (-1) 1000 42 1 true held_once =
    (withEntry 42 (mkStateValueInfo 1 2) held_once, []) /\
  updateStateForPrimaryKey (-1) 1000 42 0 true held_once =
    (withEntry 42 (mkStateValueInfo 0 1) held_once,
     [(7%nat, mkStateChanged 1000 10 42 1 0)]) /\
  updateStateForPrimaryKey (-1) 1000 42 (-1) true held_once =
    (withoutEntry 42 held_once, [(7%nat, mkStateChanged 1000 10 42 1 (-1))]).
Proof.
  assert (Ht : tracked held_once 42 1 1) by reflexivity.
  assert (Hk : 1 <> -1) by discriminate.
  assert (Hc : - 2 ^ 31 < 1 < 2 ^ 31 - 1) by (split; reflexivity).
  split; [exact (conj Ht (conj Hk Hc))|].
  destruct (nested_counting (-1) held_once 1000 42 1 1 Ht Hk Hc)
    as (Hsame & Hother & [Hunknown _] & _).
  split; [exact Hsame|]. split; [|exact Hunknown].
  exact (Hother 0 ltac:(discriminate) ltac:(discriminate)).
Defined.

(** ON, OFF, OFF, OFF, ON from a key held once in state 1: the count goes to
    2, to 1, and with the second OFF to zero, which flips the state and calls
    the listener; the third OFF is counted, and ON is then the opposite
    event. *)
Example nested_flip_run :
  let '(tr', calls) :=
    nestedUpdates (-1) 42 [(1, 1); (2, 0); (3, 0); (4, 0); (5, 1)] held_once in
  mStateMap tr' !! 42 = Some (mkStateValueInfo 0 1) /\
  map (fun call => (sc_oldState (snd call), sc_newState (snd call))) calls = [(1, 0)] /\
  runningCount 1 1 [(1, 1); (2, 0); (3, 0); (4, 0); (5, 1)] = 0.
Proof. vm_compute. repeat split. Qed.

End StateTrackerFacts.

(** ** The periodic alarm *)

Module AlarmFacts.
Import Alarm.

(** The expectations of [TestUpdateAlarms], in seconds after the time base
    (1000 s): at creation, at the update 2 s later and at the update 60 s
    later. *)
Example alarms_at_creation :
  getAlarmTimestampSec 1000 1 50 1000 = 1000 + 1 /\
  getAlarmTimestampSec 1000 1 2000 1000 = 1000 + 1 /\
  getAlarmTimestampSec 1000 10 5000 1000 = 1000 + 10.
Proof. repeat split. Qed.

Example alarms_after_two_seconds :
  getAlarmTimestampSec 1000 1 50 1002 = 1000 + 1 + 50 /\
  getAlarmTimestampSec 1000 5 2000 1002 = 1000 + 5 /\
  getAlarmTimestampSec 1000 10 10000 1002 = 1000 + 10.
Proof. repeat split. Qed.

Example alarms_after_a_minute :
  getAlarmTimestampSec 1000 1 50 1060 = 1000 + 1 + 2 * 50 /\
  getAlarmTimestampSec 1000 5 2000 1060 = 1000 + 5 + 2000 /\
  getAlarmTimestampSec 1000 10 10000 1060 = 1000 + 10 + 10000.
Proof. repeat split. Qed.

(** C6, as stated, fails: with offset 10, period 5000 and the time at 2, the
    alarm is set to 10, the offset itself, which is no [10 + k * 5000] with
    [k >= 1].  At a firing time, here 5010, the alarm moves on to the next
    one: the time it is set to is strictly after now, not the smallest firing
    time from now on.  And the formula is meant for times from one period
    before the offset on: with offset 100, period 10 and the time at 0 it
    gives 10, before the offset. *)
Lemma alarm_before_offset_fires_at_offset :
  nextFire 10 5000 2 = 10 /\
  ~ (exists k, 1 <= k /\ nextFire 10 5000 2 = 10 + k * 5000) /\
  (nextFire 10 5000 5010 = 10010 /\ 5010 = 10 + 1 * 5000) /\
  (nextFire 100 10 0 = 10 /\ 10 < 100).
Proof.
  split; [reflexivity|]. split; [|split; split; reflexivity].
  intros (k & Hk & Heq). change (nextFire 10 5000 2) with 10 in Heq. lia.
Qed.

(** C6 (amended).  For a period [p > 0] and a time now that is not more than
    one period before the offset, the alarm time is the smallest
    [offset + k * p] with [k >= 0] that is strictly after now: [k >= 1] once
    the offset has passed, and the offset itself ([k = 0]) while it has not. *)
Theorem nextFire_smallest_after_now (offset period now : Z)
    (Hperiod : 0 < period)
    (Hrange : offset - period <= now) :
  exists k,
    0 <= k /\
    nextFire offset period now = offset + k * period /\
    now < offset + k * period /\
    (forall j, 0 <= j -> now < offset + j * period -> k <= j) /\
    (offset <= now -> 1 <= k) /\
    (now < offset -> k = 0 /\ nextFire offset period now = offset).
Proof.
  unfold nextFire.
  pose proof (Z.mul_div_le (now - offset) period Hperiod) as Hlo.
  pose proof (Z.mul_succ_div_gt (now - offset) period Hperiod) as Hhi.
  set (q := (now - offset) / period) in *.
  assert (Hq : -1 <= q) by nia.
  exists (q + 1).
  split; [lia|]. split; [lia|]. split; [lia|]. split; [|split].
  - intros j _ Hj. assert (q < j) by nia. lia.
  - intros Hge. assert (0 <= q) by nia. lia.
  - intros Hlt. assert (q = -1) by nia. subst q. split; lia.
Qed.

(** Scenario 7 of the specification, before and after the offset. *)
Lemma nextFire_smallest_after_now_witness :
  (0 < 5000 /\ 10 - 5000 <= 2) /\
  (nextFire 10 5000 2 = 10 /\ 2 < 10) /\
  exists k, 1 <= k /\ nextFire 10 5000 60 = 10 + k * 5000 /\ 60 < 10 + k * 5000.
Proof.
  assert (Hp : 0 < 5000) by reflexivity.
  assert (Hnow : 10 - 5000 <= 2) by discriminate.
  assert (Hlater : 10 - 5000 <= 60) by discriminate.
  split; [exact (conj Hp Hnow)|]. split.
  - destruct (nextFire_smallest_after_now 10 5000 2 Hp Hnow)
      as (k & _ & _ & _ & _ & _ & Hbefore).
    split; [exact (proj2 (Hbefore ltac:(reflexivity)))|reflexivity].
  - destruct (nextFire_smallest_after_now 10 5000 60 Hp Hlater)
      as (k & _ & Heq & Hgt & _ & Hafter & _).
    exists k. split; [apply Hafter; discriminate|]. split; [exact Heq|exact Hgt].
Defined.

Example alarm_after_offset : nextFire 10 5000 60 = 10 + 5000.
Proof. reflexivity. Qed.

End AlarmFacts.

(** ** Field-value matching: ANY with a tuple *)

Module MatcherFacts.
Import Matcher.

Section AnyTuple.

Variable fnmatch : string -> string -> bool.
Variable isAttributionUidField : FieldValue -> bool.
Variable isUidField : FieldValue -> bool.
Variable uidMap : UidMap.t.

Abbreviation matches :=
  (matchesSimple fnmatch isAttributionUidField isUidField uidMap).

Variable values : list FieldValue.

(** The position at one depth, along the values. *)
Variable d : nat.
Abbreviation P := (fun i => posAt values i d).

(** [[s, e)] is a sub-range of [[lo, hi)]: a stretch of values that share one
    position at depth [d] and that cannot be extended on either side. *)
Definition subRange (lo hi s e : nat) : Prop :=
  (lo <= s)%nat /\ (s < e)%nat /\ (e <= hi)%nat /\
  (forall j, (s <= j < e)%nat -> P j = P s) /\
  (s = lo \/ P (Nat.pred s) <> P s) /\
  (e = hi \/ P e <> P s).

Lemma posAt_in_range (i : nat) :
  (i < length values)%nat -> exists p, P i = Some p.
Proof.
  intros Hi. unfold posAt. destruct (lookup_lt_is_Some_2 values i Hi) as [v Hv].
  rewrite Hv. cbn. eauto.
Qed.

(** The loop of the ANY case, started inside a stretch [[st, i)] of position
    [cp], pushes the sub-ranges of [[st, hi)] but the last, which stays open. *)
Lemma any_loop_spec (hi : nat) (Hhi : (hi <= length values)%nat) (n : nat) :
  forall (i st : nat) (cp : Z) (acc : list (nat * nat)),
    (i + n = hi)%nat -> (st <= i)%nat -> (st < hi)%nat ->
    P st = Some cp ->
    (forall j, (st <= j < i)%nat -> P j = Some cp) ->
    exists R st',
      any_loop d values i n st cp acc = (acc ++ R, st') /\
      forall s e, In (s, e) (R ++ [(st', hi)]) <-> subRange st hi s e.
Proof.
  induction n as [|n IH]; intros i st cp acc Hin Hst Hlt Hcp Hconst.
  - (* the loop is over: what is open is the last sub-range *)
    exists [], st. rewrite app_nil_r. split; [reflexivity|].
    assert (i = hi) by lia. subst i. intros s e. cbn. split.
    + intros [[= <- <-]|[]]. unfold subRange. repeat split; auto; try lia.
      intros j Hj. rewrite Hcp. apply Hconst. lia.
    + intros (Hlo & Hse & Hehi & Hrun & Hleft & Hright). left.
      assert (s = st).
      { destruct (decide (s = st)) as [|Hneq]; [assumption|]. exfalso.
        destruct Hleft as [->|Hne]; [congruence|]. apply Hne.
        rewrite (Hconst s) by lia. apply Hconst. lia. }
      subst s.
      assert (e = hi).
      { destruct (decide (e = hi)) as [|Hneq]; [assumption|]. exfalso.
        destruct Hright as [->|Hne]; [congruence|]. apply Hne.
        rewrite Hcp. apply Hconst. lia. }
      subst e. reflexivity.
  - cbn [any_loop].
    destruct (posAt_in_range i ltac:(lia)) as [np Hnp]. cbv beta in Hnp. rewrite Hnp.
    destruct (np =? cp) eqn:Ecmp; cbn [negb].
    + (* same position: the stretch goes on *)
      apply Z.eqb_eq in Ecmp. subst np.
      apply (IH (S i) st cp acc); auto; try lia.
      intros j Hj. destruct (decide (j = i)) as [->|Hne]; [exact Hnp|].
      apply Hconst. lia.
    + (* the position changes at [i]: [[st, i)] is a sub-range *)
      apply Z.eqb_neq in Ecmp.
      assert (Hsti : (st < i)%nat).
      { destruct (decide (st = i)) as [->|Hne]; [|lia].
        rewrite Hnp in Hcp. congruence. }
      destruct (IH (S i) i np (acc ++ [(st, i)])) as (R & st' & Hrun & Hspec); auto; try lia.
      { intros j Hj. assert (j = i) by lia. subst j. exact Hnp. }
      exists ((st, i) :: R), st'. split.
      { rewrite Hrun, <- app_assoc. reflexivity. }
      intros s e. cbn [app In]. rewrite Hspec. unfold subRange. split.
      * intros [[= <- <-]|(Hlo & Hse & Hehi & Hconst' & Hleft & Hright)].
        -- repeat split; auto; try lia.
           ++ intros j Hj. rewrite Hcp. apply Hconst. lia.
           ++ right. rewrite Hnp, Hcp. congruence.
        -- repeat split; auto; try lia.
           destruct Hleft as [->|Hne]; [|right; exact Hne].
           right. rewrite Hnp. rewrite (Hconst (Nat.pred i)) by lia. congruence.
      * intros (Hlo & Hse & Hehi & Hconst' & Hleft & Hright).
        destruct (le_lt_dec i s) as [His|His].
        -- right. repeat split; auto.
           destruct Hleft as [->|Hne]; [lia|].
           destruct (decide (s = i)) as [->|Hsi]; [left; reflexivity|right; exact Hne].
        -- left.
           assert (s = st).
           { destruct (decide (s = st)) as [|Hneq]; [assumption|]. exfalso.
             destruct Hleft as [->|Hne]; [congruence|]. apply Hne.
             rewrite (Hconst s) by lia. apply Hconst. lia. }
           subst s.
           assert (Hei : (e <= i)%nat).
           { destruct (le_lt_dec e i) as [Hle|Hgt]; [exact Hle|]. exfalso.
             specialize (Hconst' i ltac:(lia)). rewrite Hnp, Hcp in Hconst'. congruence. }
           assert (e = i).
           { destruct (decide (e = i)) as [->|Hne]; [reflexivity|]. exfalso.
             destruct Hright as [->|Hright]; [lia|]. apply Hright.
             rewrite Hcp. apply Hconst. lia. }
           subst e. reflexivity.
Qed.

End AnyTuple.

Section Narrowing.

Variable values : list FieldValue.

(** The range [getStartEndAtDepth] finds lies inside the one it was given
    and is not empty. *)
Lemma getStartEndAtDepth_loop_bounds (targetField : Z) (depth lo : nat) (n : nat) :
  forall (i : nat) (newStart : option nat) (newEnd : nat) (ns ne : nat),
    (lo <= i)%nat ->
    match newStart with
    | None => True
    | Some a => (lo <= a < newEnd)%nat /\ (newEnd <= i)%nat
    end ->
    getStartEndAtDepth_loop targetField depth values i n newStart newEnd = (Some ns, ne) ->
    (lo <= ns < ne)%nat /\ (ne <= i + n)%nat.
Proof.
  induction n as [|n IH]; intros i newStart newEnd ns ne Hlo Hinv Hrun.
  - cbn in Hrun. injection Hrun as -> ->. lia.
  - cbn [getStartEndAtDepth_loop] in Hrun.
    destruct (posAt values i depth) as [pos|].
    + destruct (pos =? targetField).
      * apply IH in Hrun; [lia|lia|]. destruct newStart as [a|]; cbn; lia.
      * destruct (pos >? targetField).
        -- injection Hrun as -> ->. lia.
        -- apply IH in Hrun; [lia|lia|]. destruct newStart as [a|]; lia.
    + injection Hrun as -> ->. lia.
Qed.

Lemma getStartEndAtDepth_bounds (targetField : Z) (start end_ depth ns ne : nat) :
  getStartEndAtDepth targetField start end_ depth values = (Some ns, ne) ->
  (start <= ns < ne)%nat /\ (ne <= end_)%nat.
Proof.
  unfold getStartEndAtDepth. intros Hrun.
  destruct (le_lt_dec end_ start) as [Hle|Hlt].
  - replace (end_ - start)%nat with 0%nat in Hrun by lia. discriminate.
  - apply (getStartEndAtDepth_loop_bounds targetField depth start) in Hrun; [lia|lia|exact I].
Qed.

End Narrowing.

Section AnyWithTuple.

Variable fnmatch : string -> string -> bool.
Variable isAttributionUidField : FieldValue -> bool.
Variable isUidField : FieldValue -> bool.
Variable uidMap : UidMap.t.

Abbreviation matches :=
  (matchesSimple fnmatch isAttributionUidField isUidField uidMap).

(** [matchesSimple] on a tuple matcher, one level unfolded. *)
Lemma matches_tuple_eq (f : Z) (pos : option Position)
    (subMatchers : list FieldValueMatcher)
    (values : list FieldValue) (start end_ depth : nat) :
  matches (mkFieldValueMatcher f pos (kMatchesTuple subMatchers)) values start end_ depth =
  if (2 <? depth)%nat then false
  else if (end_ <=? start)%nat then false
  else
    let '(ranges, depth') :=
      computeRanges (mkFieldValueMatcher f pos (kMatchesTuple subMatchers))
        values start end_ depth in
    existsb (fun range : nat * nat =>
               forallb (fun subMatcher =>
                          matches subMatcher values (fst range) (snd range) (S depth'))
                       subMatchers)
            ranges.
Proof.
  cbn [matchesSimple].
  destruct (2 <? depth)%nat; [reflexivity|].
  destruct (end_ <=? start)%nat; [reflexivity|].
  destruct (computeRanges _ values start end_ depth) as [ranges depth'].
  destruct ranges as [|[s e] rest]; reflexivity.
Qed.

(** For ANY with a tuple, [computeRanges] lists the sub-ranges of the range
    that [getStartEndAtDepth] narrows to, at the depth of the position. *)
Lemma computeRanges_any_tuple (f : Z) (subMatchers : list FieldValueMatcher)
    (values : list FieldValue) (start end_ depth ns ne : nat) :
  (depth <= 1)%nat -> (end_ <= length values)%nat ->
  getStartEndAtDepth f start end_ depth values = (Some ns, ne) ->
  exists ranges,
    computeRanges (mkFieldValueMatcher f (Some ANY) (kMatchesTuple subMatchers))
      values start end_ depth = (ranges, S depth) /\
    forall s e, In (s, e) ranges <-> subRange values (S depth) ns ne s e.
Proof.
  intros Hdepth Hend Hnarrow. unfold computeRanges.
  cbn [field position value_matcher isMatchesTuple]. rewrite Hnarrow.
  destruct (getStartEndAtDepth_bounds values f start end_ depth ns ne Hnarrow)
    as [Hns Hne].
  assert (Hd : (2 <? S depth)%nat = false) by (apply Nat.ltb_ge; lia).
  rewrite Hd.
  destruct (posAt_in_range values (S depth) ns ltac:(lia)) as [cp Hcp].
  cbv beta in Hcp. rewrite Hcp.
  destruct (any_loop_spec values (S depth) ne ltac:(lia) (ne - ns) ns ns cp [])
    as (R & st' & Hrun & Hspec); auto; try lia.
  rewrite Hrun. cbn [app]. exists (R ++ [(st', ne)]). split; [reflexivity|exact Hspec].
Qed.

(** A matcher with [Position::ANY] and [matches_tuple] matches iff one of the
    stretches cut from the range narrowed to its field -- values that share
    one position at the next depth, extended as far as it goes -- satisfies
    every matcher of the tuple. *)
Lemma any_tuple_over_narrowed_range (f : Z)
    (subMatchers : list FieldValueMatcher) (values : list FieldValue)
    (start end_ depth : nat)
    (Hdepth : (depth <= 1)%nat)
    (Hend : (end_ <= length values)%nat) :
  matches (mkFieldValueMatcher f (Some ANY) (kMatchesTuple subMatchers))
          values start end_ depth = true
  <->
  exists ns ne s e,
    getStartEndAtDepth f start end_ depth values = (Some ns, ne) /\
    subRange values (S depth) ns ne s e /\
    forall subMatcher, In subMatcher subMatchers ->
                       matches subMatcher values s e (S (S depth)) = true.
Proof.
  rewrite matches_tuple_eq.
  assert (Hd : (2 <? depth)%nat = false) by (apply Nat.ltb_ge; lia).
  rewrite Hd.
  destruct (getStartEndAtDepth f start end_ depth values) as [[ns|] ne] eqn:Hnarrow.
  - destruct (getStartEndAtDepth_bounds values f start end_ depth ns ne Hnarrow)
      as [Hns Hne].
    assert (Hse : (end_ <=? start)%nat = false) by (apply Nat.leb_gt; lia).
    rewrite Hse.
    destruct (computeRanges_any_tuple f subMatchers values start end_ depth ns ne
                Hdepth Hend Hnarrow) as (ranges & -> & Hspec).
    rewrite existsb_exists. split.
    + intros ([s e] & Hin & Hall). rewrite forallb_forall in Hall. cbn [fst snd] in Hall.
      exists ns, ne, s, e. split; [reflexivity|]. split; [apply Hspec; exact Hin|exact Hall].
    + intros (ns' & ne' & s & e & [= <- <-] & Hsub & Hall).
      exists (s, e). split; [apply Hspec; exact Hsub|].
      rewrite forallb_forall. exact Hall.
  - split.
    + intros Hm. exfalso.
      destruct (end_ <=? start)%nat; [discriminate|].
      unfold computeRanges in Hm. cbn [field] in Hm. rewrite Hnarrow in Hm. discriminate.
    + intros (ns' & ne' & s & e & Hfalse & _). discriminate.
Qed.

End AnyWithTuple.

(** *** Scenario 6: attribution nodes *)

(** For the events below: no wildcard is used, and the uid of an attribution
    node is the first field of a node of the first field. *)
Definition no_wildcards (pattern str : string) : bool := false.

Definition attributionUid (v : FieldValue) : bool :=
  (getPosAtDepth (mField v) 0 =? 1) && (getPosAtDepth (mField v) 2 =? 1) &&
  match mValue v with INT _ => true | _ => false end.

Definition annotatedUid (v : FieldValue) : bool := false.

Definition node (atom : Z) (position : Z) (last : bool) (uid : Z) (tag : string)
    : list FieldValue :=
  [mkFieldValue (mkField atom [(1, false); (position, last); (1, false)]) (INT uid);
   mkFieldValue (mkField atom [(1, false); (position, last); (2, true)]) (STRING tag)].

(** Nodes [(uid=10, tag="B")] and [(uid=11, tag="A")], and the same with the
    tags exchanged. *)
Definition split_nodes : list FieldValue :=
  node 10 1 false 10 "B" ++ node 10 2 true 11 "A".

Definition matching_nodes : list FieldValue :=
  node 10 1 false 10 "A" ++ node 10 2 true 11 "B".

(** Some node has uid 10 and tag "A". *)
Definition uid10_tagA : FieldValueMatcher :=
  mkFieldValueMatcher 1 (Some ANY)
    (kMatchesTuple [mkFieldValueMatcher 1 None (kEqInt 10);
                    mkFieldValueMatcher 2 None (kEqString "A")]).

Abbreviation matches0 :=
  (matchesSimple no_wildcards attributionUid annotatedUid (UidMap.init 0)).

Example scenario6_no_match : matches0 uid10_tagA split_nodes 0 4 0 = false.
Proof. vm_compute. reflexivity. Qed.

Example scenario6_each_half_matches_somewhere :
  matches0 (mkFieldValueMatcher 1 (Some ANY)
              (kMatchesTuple [mkFieldValueMatcher 1 None (kEqInt 10)])) split_nodes 0 4 0
    = true /\
  matches0 (mkFieldValueMatcher 1 (Some ANY)
              (kMatchesTuple [mkFieldValueMatcher 2 None (kEqString "A")])) split_nodes 0 4 0
    = true.
Proof. vm_compute. split; reflexivity. Qed.

Example scenario6_match_in_one_node : matches0 uid10_tagA matching_nodes 0 4 0 = true.
Proof. vm_compute. reflexivity. Qed.

End MatcherFacts.

(** ** The matcher update status *)

Module ConfigUpdateFacts.
Import ConfigUpdate.

(** The number of marks set in a cycle tracker. *)
Fixpoint marked (cycleTracker : list bool) : nat :=
  match cycleTracker with
  | [] => 0
  | b :: rest => (if b then 1 else 0) + marked rest
  end.

Lemma marked_le (ct : list bool) : (marked ct <= length ct)%nat.
Proof. induction ct as [|[] ct IH]; cbn; lia. Qed.

Lemma marked_insert_true (ct : list bool) (i : nat) :
  ct !! i = Some false -> marked (<[i := true]> ct) = S (marked ct).
Proof.
  revert i. induction ct as [|b ct IH]; intros [|i] Hi; try discriminate.
  - cbn in Hi. injection Hi as ->. reflexivity.
  - change (<[S i := true]> (b :: ct)) with (b :: <[i := true]> ct).
    cbn [marked]. rewrite (IH i Hi). lia.
Qed.

(** Setting and clearing the mark of an index that was not marked gives the
    tracker back. *)
Lemma unmark_mark (ct : list bool) (i : nat) :
  default false (ct !! i) = false ->
  <[i := false]> (<[i := true]> ct) = ct.
Proof.
  intros Hi. rewrite list_insert_insert_eq.
  destruct (ct !! i) as [b|] eqn:E.
  - cbn in Hi. subst b. apply list_insert_id. exact E.
  - apply list_insert_ge. apply lookup_ge_None. exact E.
Qed.

Section Determine.

Variable serialize : AtomMatcher -> string.
Variable config : list AtomMatcher.
Variable oldAtomMatchingTrackerMap : gmap Z nat.
Variable oldAtomMatchingTrackers : list AtomMatchingTracker.
Variable newAtomMatchingTrackerMap : gmap Z nat.

Abbreviation determine :=
  (determineMatcherUpdateStatus serialize config oldAtomMatchingTrackerMap
     oldAtomMatchingTrackers newAtomMatchingTrackerMap).
Abbreviation loop :=
  (childrenLoop newAtomMatchingTrackerMap).

(** The matcher has an old node with its id, built from a definition with
    the same serialization. *)
Definition unchanged (m : AtomMatcher) : Prop :=
  exists oldIdx old,
    oldAtomMatchingTrackerMap !! id m = Some oldIdx /\
    oldAtomMatchingTrackers !! oldIdx = Some old /\
    serialize m = getProto old.

(** Every child of the matcher at [j] is PRESERVE. *)
Definition childrenPreserved (st : list UpdateStatus) (m : AtomMatcher) : Prop :=
  forall op children c,
    contents m = kCombination op children -> In c children ->
    exists cj, newAtomMatchingTrackerMap !! c = Some cj /\ st !! cj = Some UPDATE_PRESERVE.

(** What the statuses given so far mean. *)
Definition consistent (st : list UpdateStatus) : Prop :=
  forall j m, config !! j = Some m ->
    (st !! j = Some UPDATE_PRESERVE -> unchanged m /\ childrenPreserved st m) /\
    (st !! j = Some UPDATE_NEW -> oldAtomMatchingTrackerMap !! id m = None).

(** A status, once given, stays. *)
Definition settled (st st' : list UpdateStatus) : Prop :=
  forall j s, st !! j = Some s -> s <> UPDATE_UNKNOWN -> st' !! j = Some s.

(** The nodes the search is inside of are not touched. *)
Definition framed (ct : list bool) (st st' : list UpdateStatus) : Prop :=
  forall j, ct !! j = Some true -> st' !! j = st !! j.

(** No node is NEW or REPLACE. *)
Definition allPreserved (st : list UpdateStatus) : Prop :=
  forall j s, st !! j = Some s -> s = UPDATE_UNKNOWN \/ s = UPDATE_PRESERVE.

(** What a call that ends well guarantees. *)
Definition goodCall (idx : nat) (st : list UpdateStatus) (ct : list bool)
    (st' : list UpdateStatus) (ct' : list bool) : Prop :=
  ct' = ct /\ length st' = length st /\ settled st st' /\ framed ct st st' /\
  (exists s, s <> UPDATE_UNKNOWN /\ st' !! idx = Some s) /\
  (consistent st -> consistent st') /\
  ((forall j m, config !! j = Some m -> unchanged m) ->
   allPreserved st -> allPreserved st').

Lemma settled_refl (st : list UpdateStatus) : settled st st.
Proof. intros j s Hj _. exact Hj. Qed.

Lemma settled_trans (st1 st2 st3 : list UpdateStatus) :
  settled st1 st2 -> settled st2 st3 -> settled st1 st3.
Proof. intros H12 H23 j s Hj Hs. apply H23; auto. Qed.

(** Giving a status to a node that had none. *)
Lemma settled_insert (st : list UpdateStatus) (idx : nat) (s : UpdateStatus) :
  st !! idx = Some UPDATE_UNKNOWN -> settled st (<[idx := s]> st).
Proof.
  intros Hidx j s' Hj Hs'. destruct (decide (idx = j)) as [->|Hne].
  - congruence.
  - rewrite list_lookup_insert_ne by exact Hne. exact Hj.
Qed.

Lemma consistent_insert (st : list UpdateStatus) (idx : nat) (s : UpdateStatus)
    (m : AtomMatcher) :
  st !! idx = Some UPDATE_UNKNOWN -> config !! idx = Some m ->
  consistent st ->
  (s = UPDATE_PRESERVE -> unchanged m /\ childrenPreserved st m) ->
  (s = UPDATE_NEW -> oldAtomMatchingTrackerMap !! id m = None) ->
  consistent (<[idx := s]> st).
Proof.
  intros Hidx Hm Hcons Hpres Hnew.
  assert (Hkeep : forall m', childrenPreserved st m' ->
                             childrenPreserved (<[idx := s]> st) m').
  { intros m' Hch op children c Hc Hin. destruct (Hch op children c Hc Hin) as (cj & Hcj & Hst).
    exists cj. split; [exact Hcj|]. rewrite list_lookup_insert_ne; [exact Hst|].
    intros <-. congruence. }
  intros j m' Hj. destruct (decide (idx = j)) as [<-|Hne].
  - assert (m' = m) by congruence. subst m'.
    rewrite list_lookup_insert_eq by (eapply lookup_lt_Some; exact Hidx).
    split.
    + intros [= ->]. destruct (Hpres eq_refl) as [Hu Hch]. split; [exact Hu|].
      apply Hkeep. exact Hch.
    + intros [= ->]. apply Hnew. reflexivity.
  - rewrite list_lookup_insert_ne by exact Hne. destruct (Hcons j m' Hj) as [Hp Hn].
    split; [|exact Hn]. intros Hst. destruct (Hp Hst) as [Hu Hch]. split; [exact Hu|].
    apply Hkeep. exact Hch.
Qed.

Lemma allPreserved_insert (st : list UpdateStatus) (idx : nat) :
  allPreserved st -> allPreserved (<[idx := UPDATE_PRESERVE]> st).
Proof.
  intros Hall j s Hj. apply list_lookup_insert_Some in Hj.
  destruct Hj as [(_ & <- & _)|(_ & Hj)]; [right; reflexivity|].
  apply (Hall j). exact Hj.
Qed.

(** What the loop over the children guarantees, when each call it makes does. *)
Lemma loop_good (recurse : nat -> list UpdateStatus -> list bool -> Outcome)
    (parentId : Z) :
  (forall idx st ct st' ct',
      default false (ct !! idx) = false -> length st = length ct ->
      recurse idx st ct = Done st' ct' -> goodCall idx st ct st' ct') ->
  forall children st ct st' ct' status,
    length st = length ct ->
    loop recurse parentId children st ct = (Done st' ct', status) ->
    ct' = ct /\ length st' = length st /\ settled st st' /\ framed ct st st' /\
    (consistent st -> consistent st') /\
    ((status = UPDATE_PRESERVE /\
      forall c, In c children ->
        exists cj, newAtomMatchingTrackerMap !! c = Some cj /\
                   st' !! cj = Some UPDATE_PRESERVE) \/
     status = UPDATE_REPLACE) /\
    ((forall j m, config !! j = Some m -> unchanged m) ->
     allPreserved st -> allPreserved st' /\ status = UPDATE_PRESERVE).
Proof.
  intros Hrec. induction children as [|c rest IH]; intros st ct st' ct' status Hlen Hrun.
  - cbn in Hrun. injection Hrun as <- <- <-.
    split; [reflexivity|]. split; [reflexivity|]. split; [apply settled_refl|].
    split; [intros j _; reflexivity|]. split; [auto|]. split.
    + left. split; [reflexivity|]. intros c [].
    + intros _ Hall. split; [exact Hall|reflexivity].
  - cbn [childrenLoop] in Hrun.
    destruct (newAtomMatchingTrackerMap !! c) as [cj|] eqn:Hc; [|discriminate].
    destruct (default false (ct !! cj)) eqn:Hmark; [discriminate|].
    destruct (recurse cj st ct) as [st1 ct1| |] eqn:Hcall; try discriminate.
    destruct (Hrec cj st ct st1 ct1 Hmark Hlen Hcall)
      as (-> & Hlen1 & Hset1 & Hfr1 & (s & Hs & Hst1) & Hcons1 & Hall1).
    destruct (decide (s = UPDATE_PRESERVE)) as [->|Hnp].
    + rewrite Hst1 in Hrun.
      destruct (IH st1 ct st' ct' status ltac:(congruence) Hrun)
        as (-> & Hlen2 & Hset2 & Hfr2 & Hcons2 & Hstatus & Hall2).
      split; [reflexivity|]. split; [congruence|].
      split; [eapply settled_trans; eauto|].
      split; [intros j Hj; rewrite (Hfr2 j Hj); apply Hfr1; exact Hj|].
      split; [auto|]. split.
      * destruct Hstatus as [[-> Hch] | ->]; [left|right; reflexivity].
        split; [reflexivity|]. intros c' [<-|Hin].
        -- exists cj. split; [exact Hc|]. apply Hset2; [exact Hst1|discriminate].
        -- apply Hch. exact Hin.
      * intros Hsame Hall. apply Hall2; auto.
    + assert (Hrun' : (Done st1 ct, UPDATE_REPLACE) = (Done st' ct', status)).
      { rewrite Hst1 in Hrun. destruct s; try exact Hrun. congruence. }
      injection Hrun' as <- <- <-.
      split; [reflexivity|]. split; [exact Hlen1|]. split; [exact Hset1|].
      split; [exact Hfr1|]. split; [exact Hcons1|]. split; [right; reflexivity|].
      intros Hsame Hall. exfalso. destruct (Hall1 Hsame Hall cj s Hst1); congruence.
Qed.

Lemma goodCall_insert (idx : nat) (st : list UpdateStatus) (ct : list bool)
    (s : UpdateStatus) (m : AtomMatcher) :
  default false (ct !! idx) = false ->
  st !! idx = Some UPDATE_UNKNOWN -> config !! idx = Some m ->
  s <> UPDATE_UNKNOWN ->
  (s = UPDATE_PRESERVE -> unchanged m /\ childrenPreserved st m) ->
  (s = UPDATE_NEW -> oldAtomMatchingTrackerMap !! id m = None) ->
  (unchanged m -> s = UPDATE_PRESERVE) ->
  goodCall idx st ct (<[idx := s]> st) ct.
Proof.
  intros Hmark Hst Hm Hs Hpres Hnew Hsame.
  split; [reflexivity|]. split; [apply length_insert|].
  split; [apply settled_insert; exact Hst|]. split.
  { intros j Hj. apply list_lookup_insert_ne. intros <-. rewrite Hj in Hmark. discriminate. }
  split.
  { exists s. split; [exact Hs|]. apply list_lookup_insert_eq.
    eapply lookup_lt_Some. exact Hst. }
  split.
  { intros Hcons. eapply consistent_insert; eauto. }
  intros Hall_same Hall. rewrite (Hsame (Hall_same idx m Hm)).
  apply allPreserved_insert. exact Hall.
Qed.

(** The determination of one matcher, when it ends well: the cycle tracker
    is as before, statuses that were given stay, the matcher has a status,
    and the statuses mean what they should. *)
Lemma determine_good (fuel : nat) :
  forall idx st ct st' ct',
    default false (ct !! idx) = false -> length st = length ct ->
    determine fuel idx st ct = Done st' ct' -> goodCall idx st ct st' ct'.
Proof.
  induction fuel as [|fuel IH]; intros idx st ct st' ct' Hmark Hlen Hrun;
    [discriminate|].
  cbn [determineMatcherUpdateStatus] in Hrun.
  destruct (st !! idx) as [s|] eqn:Hst; [|discriminate].
  destruct (config !! idx) as [m|] eqn:Hm; [|destruct s; discriminate].
  destruct (decide (s = UPDATE_UNKNOWN)) as [->|Hs].
  2:{ (* examined before *)
    assert (Hrun' : Done st ct = Done st' ct') by (destruct s; congruence).
    injection Hrun' as <- <-.
    split; [reflexivity|]. split; [reflexivity|]. split; [apply settled_refl|].
    split; [intros j _; reflexivity|]. split; [eauto|]. split; auto. }
  destruct (oldAtomMatchingTrackerMap !! id m) as [oldIdx|] eqn:Hold.
  2:{ (* no old node: NEW *)
    injection Hrun as <- <-.
    apply (goodCall_insert idx st ct UPDATE_NEW m); auto; try discriminate.
    intros (oldIdx & old & Hfound & _). congruence. }
  set (same := match oldAtomMatchingTrackers !! oldIdx with
               | Some old => String.eqb (serialize m) (getProto old)
               | None => false
               end) in Hrun.
  assert (Hsame_iff : same = true <-> unchanged m).
  { subst same. unfold unchanged. rewrite Hold. split.
    - destruct (oldAtomMatchingTrackers !! oldIdx) as [old|] eqn:Htr; [|discriminate].
      intros Heq. apply String.eqb_eq in Heq. eauto.
    - intros (oldIdx' & old & [= <-] & -> & Heq). apply String.eqb_eq. exact Heq. }
  destruct same eqn:Esame; cbn [negb] in Hrun.
  2:{ (* the definition changed: REPLACE *)
    injection Hrun as <- <-.
    apply (goodCall_insert idx st ct UPDATE_REPLACE m); auto; try discriminate.
    intros Hu. apply Hsame_iff in Hu. discriminate. }
  assert (Hu : unchanged m) by (apply Hsame_iff; reflexivity).
  destruct (contents m) as [simple|op children] eqn:Hcontents.
  { (* a simple matcher: PRESERVE *)
    injection Hrun as <- <-.
    apply (goodCall_insert idx st ct UPDATE_PRESERVE m); auto; try discriminate.
    intros _. split; [exact Hu|]. intros op children c Hc. congruence. }
  (* a combination: look at the children *)
  destruct (loop (determine fuel) (id m) children st (<[idx := true]> ct))
    as [[st2 ct2| |] status] eqn:Hloop; try discriminate.
  injection Hrun as <- <-.
  assert (Hidx : (idx < length ct)%nat).
  { rewrite <- Hlen. eapply lookup_lt_Some. exact Hst. }
  destruct (loop_good (determine fuel) (id m) IH children st (<[idx := true]> ct)
              st2 ct2 status) as (-> & Hlen2 & Hset2 & Hfr2 & Hcons2 & Hstatus & Hall2).
  { rewrite length_insert. exact Hlen. }
  { exact Hloop. }
  assert (Hst2 : st2 !! idx = Some UPDATE_UNKNOWN).
  { rewrite (Hfr2 idx); [exact Hst|]. apply list_lookup_insert_eq. exact Hidx. }
  assert (Hstatus_known : status <> UPDATE_UNKNOWN).
  { destruct Hstatus as [[-> _] | ->]; discriminate. }
  split; [apply unmark_mark; exact Hmark|].
  split; [rewrite length_insert; exact Hlen2|].
  split; [eapply settled_trans; [exact Hset2|apply settled_insert; exact Hst2]|].
  split.
  { intros j Hj. assert (idx <> j) by (intros <-; rewrite Hj in Hmark; discriminate).
    rewrite list_lookup_insert_ne by assumption. apply Hfr2.
    rewrite list_lookup_insert_ne by assumption. exact Hj. }
  split.
  { exists status. split; [exact Hstatus_known|]. apply list_lookup_insert_eq.
    eapply lookup_lt_Some. exact Hst2. }
  split.
  { intros Hcons. apply (consistent_insert st2 idx status m); auto.
    - intros ->. split; [exact Hu|]. destruct Hstatus as [[_ Hch] | ?]; [|discriminate].
      intros op' children' c Hc Hin. rewrite Hcontents in Hc. injection Hc as <- <-.
      apply Hch. exact Hin.
    - intros ->. destruct Hstatus as [[? _] | ?]; discriminate. }
  intros Hall_same Hall. destruct (Hall2 Hall_same Hall) as [Hall' ->].
  apply allPreserved_insert. exact Hall'.
Qed.

(** *** The recursion budget is enough *)

Lemma loop_has_fuel (recurse : nat -> list UpdateStatus -> list bool -> Outcome)
    (parentId : Z) (ct : list bool) :
  (forall idx st ct st' ct',
      default false (ct !! idx) = false -> length st = length ct ->
      recurse idx st ct = Done st' ct' -> goodCall idx st ct st' ct') ->
  (forall idx st,
      length st = length ct -> default false (ct !! idx) = false ->
      recurse idx st ct <> OutOfFuel) ->
  forall children st,
    length st = length ct ->
    fst (loop recurse parentId children st ct) <> OutOfFuel.
Proof.
  intros Hgood Hfuel. induction children as [|c rest IH]; intros st Hlen.
  - discriminate.
  - cbn [childrenLoop].
    destruct (newAtomMatchingTrackerMap !! c) as [cj|]; [|discriminate].
    destruct (default false (ct !! cj)) eqn:Hmark; [discriminate|].
    pose proof (Hfuel cj st Hlen Hmark) as Hcall.
    destruct (recurse cj st ct) as [st1 ct1| |] eqn:Hrun; [|discriminate|congruence].
    destruct (Hgood cj st ct st1 ct1 Hmark Hlen Hrun) as (-> & Hlen1 & _).
    destruct (st1 !! cj) as [[]|]; try discriminate.
    apply IH. congruence.
Qed.

(** A budget that covers the nodes not yet entered is never used up: every
    nested call has entered one more node. *)
Lemma determine_has_fuel (fuel : nat) :
  forall idx st ct,
    length st = length ct -> default false (ct !! idx) = false ->
    (length ct + 1 <= fuel + marked ct)%nat ->
    determine fuel idx st ct <> OutOfFuel.
Proof.
  induction fuel as [|fuel IH]; intros idx st ct Hlen Hmark Hfuel.
  - pose proof (marked_le ct). lia.
  - cbn [determineMatcherUpdateStatus].
    destruct (st !! idx) as [s|] eqn:Hst; [|discriminate].
    destruct (config !! idx) as [m|]; [|destruct s; discriminate].
    destruct s; try discriminate.
    destruct (oldAtomMatchingTrackerMap !! id m) as [oldIdx|]; [|discriminate].
    destruct (negb _); [discriminate|].
    destruct (contents m) as [simple|op children]; [discriminate|].
    assert (Hidx : (idx < length ct)%nat).
    { rewrite <- Hlen. eapply lookup_lt_Some. exact Hst. }
    assert (Hfalse : ct !! idx = Some false).
    { destruct (lookup_lt_is_Some_2 ct idx Hidx) as [b Hb]. rewrite Hb in Hmark |- *.
      cbn in Hmark. congruence. }
    pose proof (loop_has_fuel (determine fuel) (id m) (<[idx := true]> ct)
                  (determine_good fuel)) as Hloop.
    specialize (Hloop ltac:(intros idx' st0 Hl Hm; apply IH;
                              [exact Hl|exact Hm|
                               rewrite length_insert, marked_insert_true by exact Hfalse;
                               lia])
                      children st ltac:(rewrite length_insert; exact Hlen)).
    destruct (loop (determine fuel) (id m) children st (<[idx := true]> ct))
      as [[st2 ct2| |] status]; cbn [fst] in Hloop; [discriminate|discriminate|congruence].
Qed.

(** *** The loop over all matchers *)

Abbreviation determineFrom :=
  (ConfigUpdate.determineFrom serialize config oldAtomMatchingTrackerMap
     oldAtomMatchingTrackers newAtomMatchingTrackerMap).
Abbreviation determineAll :=
  (ConfigUpdate.determineAll serialize config oldAtomMatchingTrackerMap
     oldAtomMatchingTrackers newAtomMatchingTrackerMap).

Definition unmarked (ct : list bool) : Prop := forall j, default false (ct !! j) = false.

Lemma unmarked_replicate (n : nat) : unmarked (replicate n false).
Proof.
  intros j. destruct (replicate n false !! j) as [b|] eqn:E; [|reflexivity].
  apply lookup_replicate in E. destruct E as [-> _]. reflexivity.
Qed.

Lemma marked_unmarked (ct : list bool) : unmarked ct -> marked ct = 0%nat.
Proof.
  induction ct as [|b ct IH]; intros Hun; [reflexivity|].
  pose proof (Hun 0%nat) as H0. cbn in H0. subst b. cbn.
  apply IH. intros j. exact (Hun (S j)).
Qed.

Lemma determineFrom_good (fuel : nat) (indices : list nat) :
  forall st ct st' ct',
    length st = length ct -> unmarked ct ->
    determineFrom fuel indices st ct = Done st' ct' ->
    ct' = ct /\ length st' = length st /\ settled st st' /\
    (consistent st -> consistent st') /\
    (forall i, In i indices -> exists s, s <> UPDATE_UNKNOWN /\ st' !! i = Some s) /\
    ((forall j m, config !! j = Some m -> unchanged m) ->
     allPreserved st -> allPreserved st').
Proof.
  induction indices as [|i rest IH]; intros st ct st' ct' Hlen Hun Hrun.
  - injection Hrun as <- <-.
    split; [reflexivity|]. split; [reflexivity|]. split; [apply settled_refl|].
    split; [auto|]. split; [intros i []|auto].
  - cbn [ConfigUpdate.determineFrom] in Hrun.
    destruct (determine fuel i st ct) as [st1 ct1| |] eqn:Hcall; try discriminate.
    destruct (determine_good fuel i st ct st1 ct1 (Hun i) Hlen Hcall)
      as (-> & Hlen1 & Hset1 & _ & (s & Hs & Hst1) & Hcons1 & Hall1).
    destruct (IH st1 ct st' ct' ltac:(congruence) Hun Hrun)
      as (-> & Hlen2 & Hset2 & Hcons2 & Hdone2 & Hall2).
    split; [reflexivity|]. split; [congruence|].
    split; [eapply settled_trans; eauto|]. split; [auto|]. split; [|auto].
    intros i' [<-|Hin]; [|apply Hdone2; exact Hin].
    exists s. split; [exact Hs|]. apply Hset2; assumption.
Qed.

Lemma determineFrom_has_fuel (fuel : nat) (indices : list nat) :
  forall st ct,
    length st = length ct -> unmarked ct -> (length ct + 1 <= fuel)%nat ->
    determineFrom fuel indices st ct <> OutOfFuel.
Proof.
  induction indices as [|i rest IH]; intros st ct Hlen Hun Hfuel; [discriminate|].
  cbn [ConfigUpdate.determineFrom].
  pose proof (determine_has_fuel fuel i st ct Hlen (Hun i) ltac:(lia)) as Hcall.
  destruct (determine fuel i st ct) as [st1 ct1| |] eqn:Hrun; [|discriminate|congruence].
  destruct (determine_good fuel i st ct st1 ct1 (Hun i) Hlen Hrun) as (-> & Hlen1 & _).
  apply IH; [congruence|exact Hun|exact Hfuel].
Qed.

Lemma consistent_initial (n : nat) : consistent (replicate n UPDATE_UNKNOWN).
Proof.
  intros j m _. split; intros Hst; apply lookup_replicate in Hst;
    destruct Hst as [Hst _]; discriminate.
Qed.

Lemma allPreserved_initial (n : nat) : allPreserved (replicate n UPDATE_UNKNOWN).
Proof. intros j s Hst. apply lookup_replicate in Hst. left. tauto. Qed.

(** What a status REPLACE of a child forces on the parent, given consistent
    statuses. *)
Lemma replaced_child_replaces_parent (st : list UpdateStatus) (i : nat) (m : AtomMatcher)
    (op : Matcher.LogicalOperation) (children : list Z) (c : Z) (ci : nat)
    (s : UpdateStatus) :
  consistent st ->
  config !! i = Some m -> contents m = kCombination op children -> In c children ->
  newAtomMatchingTrackerMap !! c = Some ci ->
  st !! ci = Some UPDATE_REPLACE ->
  is_Some (oldAtomMatchingTrackerMap !! id m) ->
  st !! i = Some s -> s <> UPDATE_UNKNOWN ->
  s = UPDATE_REPLACE.
Proof.
  intros Hcons Hm Hcontents Hin Hc Hchild [oldIdx Hold] Hst Hs.
  destruct (Hcons i m Hm) as [Hpres Hnew].
  destruct s; [congruence| | |reflexivity].
  - rewrite (Hnew Hst) in Hold. discriminate.
  - destruct (Hpres Hst) as [_ Hch].
    destruct (Hch op children c Hcontents Hin) as (cj & Hcj & Hstj). congruence.
Qed.

(** C1.  The determination never runs out of its recursion budget, so it
    ends with the statuses or with a rejected configuration.  When it ends
    with the statuses -- be it the updater's loop over all matchers or a
    single call on a combination, from statuses all unknown -- a combination
    that has an old node with its id and a child that is REPLACE is REPLACE,
    whatever its own definition is. *)
Theorem replace_cascades :
  determineAll <> OutOfFuel /\
  (forall st ct, determineAll = Done st ct ->
     forall i m op children c ci,
       config !! i = Some m -> contents m = kCombination op children ->
       In c children -> newAtomMatchingTrackerMap !! c = Some ci ->
       st !! ci = Some UPDATE_REPLACE ->
       is_Some (oldAtomMatchingTrackerMap !! id m) ->
       st !! i = Some UPDATE_REPLACE) /\
  (forall fuel i st ct,
     determine fuel i (replicate (length config) UPDATE_UNKNOWN)
       (replicate (length config) false) = Done st ct ->
     forall m op children c ci,
       config !! i = Some m -> contents m = kCombination op children ->
       In c children -> newAtomMatchingTrackerMap !! c = Some ci ->
       st !! ci = Some UPDATE_REPLACE ->
       is_Some (oldAtomMatchingTrackerMap !! id m) ->
       st !! i = Some UPDATE_REPLACE).
Proof.
  set (n := length config).
  assert (Hlen0 : length (replicate n UPDATE_UNKNOWN) = length (replicate n false)).
  { rewrite !length_replicate. reflexivity. }
  split; [|split].
  - apply determineFrom_has_fuel; [exact Hlen0|apply unmarked_replicate|].
    rewrite length_replicate. lia.
  - intros st ct Hrun i m op children c ci Hm Hcontents Hin Hc Hchild Hold.
    destruct (determineFrom_good (S n) (seq 0 n) _ _ st ct Hlen0
                (unmarked_replicate n) Hrun) as (_ & _ & _ & Hcons & Hdone & _).
    destruct (Hdone i) as (s & Hs & Hst).
    { apply list_elem_of_In, elem_of_seq. apply lookup_lt_Some in Hm. fold n in Hm. lia. }
    rewrite Hst. f_equal.
    apply (replaced_child_replaces_parent st i m op children c ci s); auto.
    apply Hcons, consistent_initial.
  - intros fuel i st ct Hrun m op children c ci Hm Hcontents Hin Hc Hchild Hold.
    destruct (determine_good fuel i _ _ st ct (unmarked_replicate n i) Hlen0 Hrun)
      as (_ & _ & _ & _ & (s & Hs & Hst) & Hcons & _).
    rewrite Hst. f_equal.
    apply (replaced_child_replaces_parent st i m op children c ci s); auto.
    apply Hcons, consistent_initial.
Qed.

(** *** A valid configuration is not rejected *)

Section Valid.

(** The children of every combination are matchers of the configuration, and
    the configuration has no cycle: some rank decreases from a combination to
    its children. *)
Variable rank : nat -> nat.

Hypothesis children_found :
  forall i m op children c,
    config !! i = Some m -> contents m = kCombination op children -> In c children ->
    exists ci, newAtomMatchingTrackerMap !! c = Some ci /\ (ci < length config)%nat.

Hypothesis children_below :
  forall i m op children c ci,
    config !! i = Some m -> contents m = kCombination op children -> In c children ->
    newAtomMatchingTrackerMap !! c = Some ci -> (rank ci < rank i)%nat.

Lemma loop_valid (recurse : nat -> list UpdateStatus -> list bool -> Outcome)
    (parentId : Z) (ct : list bool) (bound : nat) :
  (forall idx st ct st' ct',
      default false (ct !! idx) = false -> length st = length ct ->
      recurse idx st ct = Done st' ct' -> goodCall idx st ct st' ct') ->
  (forall ci st r,
      length st = length config -> (ci < length config)%nat ->
      (forall j, ct !! j = Some true -> (rank ci < rank j)%nat) ->
      recurse ci st ct <> Invalid r) ->
  length ct = length config ->
  (forall j, ct !! j = Some true -> (bound <= rank j)%nat) ->
  forall children st r,
    (forall c, In c children ->
       exists ci, newAtomMatchingTrackerMap !! c = Some ci /\
                  (ci < length config)%nat /\ (rank ci < bound)%nat) ->
    length st = length config ->
    fst (loop recurse parentId children st ct) <> Invalid r.
Proof.
  intros Hgood Hvalid Hlenct Hbound.
  induction children as [|c rest IH]; intros st r Hch Hlen; [discriminate|].
  cbn [childrenLoop].
  destruct (Hch c ltac:(left; reflexivity)) as (ci & Hc & Hci & Hrank).
  rewrite Hc.
  assert (Habove : forall j, ct !! j = Some true -> (rank ci < rank j)%nat).
  { intros j Hj. specialize (Hbound j Hj). lia. }
  destruct (default false (ct !! ci)) eqn:Hmark.
  { exfalso. destruct (ct !! ci) as [[]|] eqn:E; try discriminate.
    specialize (Habove ci E). lia. }
  pose proof (Hvalid ci st) as Hcall.
  destruct (recurse ci st ct) as [st1 ct1|r1|] eqn:Hrun; [| |discriminate].
  - destruct (Hgood ci st ct st1 ct1 Hmark ltac:(congruence) Hrun) as (-> & Hlen1 & _).
    destruct (st1 !! ci) as [[]|]; try discriminate.
    apply IH; [|congruence]. intros c' Hin. apply Hch. right. exact Hin.
  - exfalso. apply (Hcall r1); auto.
Qed.

Lemma determine_valid (fuel : nat) :
  forall idx st ct r,
    length st = length config -> length ct = length config ->
    (idx < length config)%nat ->
    (forall j, ct !! j = Some true -> (rank idx < rank j)%nat) ->
    determine fuel idx st ct <> Invalid r.
Proof.
  induction fuel as [|fuel IH]; intros idx st ct r Hlen Hlenct Hidx Habove; [discriminate|].
  cbn [determineMatcherUpdateStatus].
  destruct (lookup_lt_is_Some_2 st idx ltac:(lia)) as [s Hst].
  destruct (lookup_lt_is_Some_2 config idx Hidx) as [m Hm].
  rewrite Hst, Hm.
  destruct s; try discriminate.
  destruct (oldAtomMatchingTrackerMap !! id m) as [oldIdx|]; [|discriminate].
  destruct (negb _); [discriminate|].
  destruct (contents m) as [simple|op children] eqn:Hcontents; [discriminate|].
  pose proof (loop_valid (determine fuel) (id m) (<[idx := true]> ct) (rank idx)
                (determine_good fuel)) as Hloop.
  specialize (Hloop ltac:(intros ci st0 r0 Hl Hc Hab; apply IH; auto;
                            rewrite length_insert; exact Hlenct)
                    ltac:(rewrite length_insert; exact Hlenct)).
  assert (Hbound : forall j, <[idx := true]> ct !! j = Some true ->
                             (rank idx <= rank j)%nat).
  { intros j Hj. apply list_lookup_insert_Some in Hj.
    destruct Hj as [(<- & _ & _)|(_ & Hj)]; [lia|]. specialize (Habove j Hj). lia. }
  specialize (Hloop Hbound children st r).
  assert (Hch : forall c, In c children ->
            exists ci, newAtomMatchingTrackerMap !! c = Some ci /\
                       (ci < length config)%nat /\ (rank ci < rank idx)%nat).
  { intros c Hin. destruct (children_found idx m op children c Hm Hcontents Hin)
      as (ci & Hc & Hci).
    exists ci. split; [exact Hc|]. split; [exact Hci|].
    exact (children_below idx m op children c ci Hm Hcontents Hin Hc). }
  specialize (Hloop Hch Hlen).
  destruct (loop (determine fuel) (id m) children st (<[idx := true]> ct))
    as [[st2 ct2|r2|] status]; cbn [fst] in Hloop; [discriminate|congruence|discriminate].
Qed.

Lemma determineFrom_valid (fuel : nat) (indices : list nat) :
  forall st ct r,
    length st = length config -> length ct = length config -> unmarked ct ->
    (forall i, In i indices -> (i < length config)%nat) ->
    determineFrom fuel indices st ct <> Invalid r.
Proof.
  induction indices as [|i rest IH]; intros st ct r Hlen Hlenct Hun Hin; [discriminate|].
  cbn [ConfigUpdate.determineFrom].
  pose proof (determine_valid fuel i st ct) as Hcall.
  destruct (determine fuel i st ct) as [st1 ct1|r1|] eqn:Hrun; [| |discriminate].
  - destruct (determine_good fuel i st ct st1 ct1 (Hun i) ltac:(congruence) Hrun)
      as (-> & Hlen1 & _).
    apply IH; auto; [congruence|]. intros i' Hi'. apply Hin. right. exact Hi'.
  - exfalso. apply (Hcall r1); auto.
    + apply Hin. left. reflexivity.
    + intros j Hj. specialize (Hun j). rewrite Hj in Hun. discriminate.
Qed.

(** With every definition unchanged, a valid configuration ends with every
    node PRESERVE, and a single call on a node ends with that node and its
    children PRESERVE. *)
Lemma unchanged_all_preserved :
  (forall j m, config !! j = Some m -> unchanged m) ->
  (exists st ct,
     determineAll = Done st ct /\
     forall i, (i < length config)%nat -> st !! i = Some UPDATE_PRESERVE) /\
  (forall idx m, config !! idx = Some m ->
     exists st ct,
       determine (S (length config)) idx (replicate (length config) UPDATE_UNKNOWN)
         (replicate (length config) false) = Done st ct /\
       st !! idx = Some UPDATE_PRESERVE /\
       childrenPreserved st m).
Proof.
  intros Hsame. set (n := length config).
  assert (Hlen0 : length (replicate n UPDATE_UNKNOWN) = length (replicate n false)).
  { rewrite !length_replicate. reflexivity. }
  split.
  - unfold ConfigUpdate.determineAll. fold n.
    destruct (ConfigUpdate.determineFrom serialize config oldAtomMatchingTrackerMap
                oldAtomMatchingTrackers newAtomMatchingTrackerMap (S n) (seq 0 n)
                (replicate n UPDATE_UNKNOWN) (replicate n false))
      as [st ct|r|] eqn:Hrun.
    + exists st, ct. split; [reflexivity|]. intros i Hi.
      destruct (determineFrom_good (S n) (seq 0 n) _ _ st ct Hlen0
                  (unmarked_replicate n) Hrun) as (_ & _ & _ & _ & Hdone & Hall).
      destruct (Hdone i) as (s & Hs & Hst).
      { apply list_elem_of_In, elem_of_seq. lia. }
      destruct (Hall Hsame (allPreserved_initial n) i s Hst); congruence.
    + exfalso. revert Hrun. apply determineFrom_valid.
      * apply length_replicate.
      * apply length_replicate.
      * apply unmarked_replicate.
      * intros i Hi. apply list_elem_of_In, elem_of_seq in Hi. fold n. lia.
    + exfalso. revert Hrun. apply determineFrom_has_fuel;
        [exact Hlen0|apply unmarked_replicate|rewrite length_replicate; lia].
  - intros idx m Hm.
    destruct (determine (S n) idx (replicate n UPDATE_UNKNOWN) (replicate n false))
      as [st ct|r|] eqn:Hrun.
    + exists st, ct. split; [reflexivity|].
      destruct (determine_good (S n) idx _ _ st ct (unmarked_replicate n idx) Hlen0 Hrun)
        as (_ & _ & _ & _ & (s & Hs & Hst) & Hcons & Hall).
      assert (s = UPDATE_PRESERVE).
      { destruct (Hall Hsame (allPreserved_initial n) idx s Hst); congruence. }
      subst s. split; [exact Hst|].
      exact (proj2 (proj1 (Hcons (consistent_initial n) idx m Hm) Hst)).
    + exfalso. revert Hrun. apply determine_valid.
      * apply length_replicate.
      * apply length_replicate.
      * eapply lookup_lt_Some. exact Hm.
      * intros j Hj. apply lookup_replicate in Hj. destruct Hj; discriminate.
    + exfalso. revert Hrun. apply determine_has_fuel;
        [exact Hlen0|apply unmarked_replicate|].
      rewrite length_replicate, marked_unmarked by apply unmarked_replicate. lia.
Qed.

End Valid.

End Determine.

(** *** The same configuration, installed again *)

Section SameConfiguration.

Variable serialize : AtomMatcher -> string.

Lemma indexMapFrom_lookup (cfg : list AtomMatcher) (k : Z) :
  forall base i,
    indexMapFrom base cfg !! k = Some i ->
    exists m, cfg !! (i - base)%nat = Some m /\ id m = k /\ (base <= i)%nat.
Proof.
  induction cfg as [|m rest IH]; intros base i Hk; [discriminate|].
  cbn [indexMapFrom] in Hk. destruct (decide (id m = k)) as [Heq|Hne].
  - rewrite Heq, lookup_insert_eq in Hk. injection Hk as <-.
    exists m. rewrite Nat.sub_diag. auto.
  - rewrite lookup_insert_ne in Hk by exact Hne.
    destruct (IH (S base) i Hk) as (m' & Hm' & Hid & Hle).
    exists m'. split; [|split; [exact Hid|lia]].
    replace (i - base)%nat with (S (i - S base)) by lia. exact Hm'.
Qed.

Lemma indexMapFrom_NoDup (cfg : list AtomMatcher) :
  NoDup (id <$> cfg) ->
  forall base j m, cfg !! j = Some m -> indexMapFrom base cfg !! id m = Some (base + j)%nat.
Proof.
  induction cfg as [|m0 rest IH]; intros Hnd base j m Hj; [discriminate|].
  cbn [fmap list_fmap] in Hnd. apply NoDup_cons in Hnd. destruct Hnd as [Hnotin Hnd].
  cbn [indexMapFrom]. destruct j as [|j].
  - injection Hj as <-. rewrite lookup_insert_eq. f_equal. lia.
  - cbn in Hj. rewrite lookup_insert_ne.
    + rewrite (IH Hnd (S base) j m Hj). f_equal. lia.
    + intros Heq. apply Hnotin. rewrite Heq. apply list_elem_of_fmap.
      exists m. split; [reflexivity|]. apply list_elem_of_lookup. eauto.
Qed.

(** C2.  A configuration whose matchers are those of the installed one --
    the same definitions under ids that are all different, in any order --
    and that is valid (the children of its combinations are among its
    matchers, and there is no cycle) is diffed against the installed graph
    with every node PRESERVE; and a single determination on one of its
    matchers, from statuses all unknown, marks that matcher and each of its
    children PRESERVE. *)
Theorem same_configuration_preserved (installed config : list AtomMatcher)
    (rank : Z -> nat)
    (Hids : NoDup (id <$> installed))
    (Hsame : config ≡ₚ installed)
    (Hfound : forall m op children c,
        m ∈ config -> contents m = kCombination op children -> In c children ->
        exists mc, mc ∈ config /\ id mc = c)
    (Hacyclic : forall m op children c,
        m ∈ config -> contents m = kCombination op children -> In c children ->
        (rank c < rank (id m))%nat) :
  (exists st ct,
     determineAll serialize config (indexMap installed) (initTrackers serialize installed)
       (indexMap config) = Done st ct /\
     forall i, (i < length config)%nat -> st !! i = Some UPDATE_PRESERVE) /\
  (forall idx m, config !! idx = Some m ->
     exists st ct,
       determineMatcherUpdateStatus serialize config (indexMap installed)
         (initTrackers serialize installed) (indexMap config)
         (S (length config)) idx (replicate (length config) UPDATE_UNKNOWN)
         (replicate (length config) false) = Done st ct /\
       st !! idx = Some UPDATE_PRESERVE /\
       forall op children c,
         contents m = kCombination op children -> In c children ->
         exists cj, indexMap config !! c = Some cj /\ st !! cj = Some UPDATE_PRESERVE).
Proof.
  assert (Hids' : NoDup (id <$> config)) by (rewrite Hsame; exact Hids).
  apply (unchanged_all_preserved serialize config (indexMap installed)
           (initTrackers serialize installed) (indexMap config)
           (fun i => match config !! i with Some m => rank (id m) | None => 0%nat end)).
  - (* the children are found *)
    intros i m op children c Hm Hcontents Hin.
    destruct (Hfound m op children c) as (mc & Hmc & <-); auto.
    { apply list_elem_of_lookup. eauto. }
    apply list_elem_of_lookup in Hmc. destruct Hmc as [ci Hci].
    exists ci. split.
    + unfold indexMap. rewrite (indexMapFrom_NoDup config Hids' 0 ci mc Hci). reflexivity.
    + eapply lookup_lt_Some. exact Hci.
  - (* and rank below their parent *)
    intros i m op children c ci Hm Hcontents Hin Hc.
    destruct (indexMapFrom_lookup config c 0 ci Hc) as (mc & Hmc & <- & _).
    rewrite Nat.sub_0_r in Hmc. rewrite Hm, Hmc.
    apply (Hacyclic m op children); auto. apply list_elem_of_lookup. eauto.
  - (* every definition is unchanged *)
    intros j m Hm.
    assert (Hin : m ∈ installed).
    { rewrite <- Hsame. apply list_elem_of_lookup. eauto. }
    apply list_elem_of_lookup in Hin. destruct Hin as [k Hk].
    exists k, (mkAtomMatchingTracker (id m) (serialize m)). split; [|split].
    + unfold indexMap. rewrite (indexMapFrom_NoDup installed Hids 0 k m Hk). reflexivity.
    + unfold initTrackers. rewrite list_lookup_fmap, Hk. reflexivity.
    + reflexivity.
Qed.

End SameConfiguration.

(** *** The tests of config_update_utils_test.cpp *)

(** A serialization for the matchers of the tests, which have no field
    matchers: the id, then the atom or the operation and the children. *)
Definition operationName (op : Matcher.LogicalOperation) : string :=
  match op with
  | Matcher.LOGICAL_OPERATION_UNSPECIFIED => "?"
  | Matcher.AND => "AND"
  | Matcher.OR => "OR"
  | Matcher.NOT => "NOT"
  | Matcher.NAND => "NAND"
  | Matcher.NOR => "NOR"
  end.

Definition serializeTest (m : AtomMatcher) : string :=
  pretty (id m) +:+ ":" +:+
  match contents m with
  | kSimpleAtomMatcher simple =>
      "atom " +:+ pretty (Matcher.atom_id simple) +:+ " fields " +:+
      pretty (length (Matcher.simple_field_value_matcher simple))
  | kCombination op children =>
      operationName op +:+ foldr (fun c acc => " " +:+ pretty c +:+ acc) "" children
  end.

Definition CreateSimpleAtomMatcher (matcherId atom : Z) : AtomMatcher :=
  mkAtomMatcher matcherId (kSimpleAtomMatcher (Matcher.mkSimpleAtomMatcher atom [])).

Definition matcher1 : AtomMatcher := CreateSimpleAtomMatcher 1 10.
Definition matcher2 : AtomMatcher := CreateSimpleAtomMatcher 2 11.
Definition matcher3 : AtomMatcher := mkAtomMatcher 3 (kCombination Matcher.OR [1; 2]).

(** The configuration that is installed, and the new one: the same matchers
    in another order. *)
Definition installedConfig : list AtomMatcher := [matcher1; matcher2; matcher3].
Definition reorderedConfig : list AtomMatcher := [matcher2; matcher3; matcher1].

Abbreviation determineTest newConfig :=
  (determineMatcherUpdateStatus serializeTest newConfig (indexMap installedConfig)
     (initTrackers serializeTest installedConfig) (indexMap newConfig) 4 1
     [UPDATE_UNKNOWN; UPDATE_UNKNOWN; UPDATE_UNKNOWN] [false; false; false]).

(** TestCombinationMatcherPreserve: only the combination is updated; it
    recurses into the two children and all three are preserved. *)
Example TestCombinationMatcherPreserve :
  determineTest reorderedConfig
  = Done [UPDATE_PRESERVE; UPDATE_PRESERVE; UPDATE_PRESERVE] [false; false; false].
Proof. vm_compute. reflexivity. Qed.

(** TestCombinationMatcherReplace: the operation of the combination changes;
    the simple matchers are not evaluated. *)
Example TestCombinationMatcherReplace :
  determineTest [matcher2; mkAtomMatcher 3 (kCombination Matcher.AND [1; 2]); matcher1]
  = Done [UPDATE_UNKNOWN; UPDATE_REPLACE; UPDATE_UNKNOWN] [false; false; false].
Proof. vm_compute. reflexivity. Qed.

(** TestCombinationMatcherDepsChange: the atom of matcher 2 changes, the
    combination is as it was. *)
Definition depsChangedConfig : list AtomMatcher :=
  [CreateSimpleAtomMatcher 2 12; matcher3; matcher1].

Example TestCombinationMatcherDepsChange :
  determineTest depsChangedConfig
  = Done [UPDATE_REPLACE; UPDATE_REPLACE; UPDATE_PRESERVE] [false; false; false].
Proof. vm_compute. reflexivity. Qed.

Example depsChanged_all :
  determineAll serializeTest depsChangedConfig (indexMap installedConfig)
    (initTrackers serializeTest installedConfig) (indexMap depsChangedConfig)
  = Done [UPDATE_REPLACE; UPDATE_REPLACE; UPDATE_PRESERVE] [false; false; false].
Proof. vm_compute. reflexivity. Qed.

Lemma replace_cascades_witness :
  determineAll serializeTest depsChangedConfig (indexMap installedConfig)
    (initTrackers serializeTest installedConfig) (indexMap depsChangedConfig)
  = Done [UPDATE_REPLACE; UPDATE_REPLACE; UPDATE_PRESERVE] [false; false; false] /\
  serializeTest matcher3 = "3:OR 1 2"%string /\
  [UPDATE_REPLACE; UPDATE_REPLACE; UPDATE_PRESERVE] !! 1%nat = Some UPDATE_REPLACE.
Proof.
  split; [exact depsChanged_all|]. split; [reflexivity|].
  refine (proj1 (proj2 (replace_cascades serializeTest depsChangedConfig
                          (indexMap installedConfig)
                          (initTrackers serializeTest installedConfig)
                          (indexMap depsChangedConfig)))
                _ _ depsChanged_all 1%nat matcher3 Matcher.OR [1; 2] 2 0%nat
                _ _ _ _ _ _).
  - reflexivity.
  - reflexivity.
  - right. left. reflexivity.
  - reflexivity.
  - reflexivity.
  - exists 2%nat. reflexivity.
Defined.

Lemma installedConfig_ids : NoDup (id <$> installedConfig).
Proof. apply (bool_decide_unpack (NoDup (id <$> installedConfig))). vm_compute. exact I. Qed.

Lemma reorderedConfig_same : reorderedConfig ≡ₚ installedConfig.
Proof. symmetry. apply (Permutation_cons_append [matcher2; matcher3] matcher1). Qed.

(** Simple matchers have rank 0, the combination rank 1. *)
Definition rankTest (matcherId : Z) : nat := if matcherId =? 3 then 1%nat else 0%nat.

Lemma reorderedConfig_children m op children c :
  m ∈ reorderedConfig -> contents m = kCombination op children -> In c children ->
  (exists mc, mc ∈ reorderedConfig /\ id mc = c) /\ (rankTest c < rankTest (id m))%nat.
Proof.
  intros Hm Hcontents Hin. unfold reorderedConfig in Hm.
  repeat (apply elem_of_cons in Hm; destruct Hm as [->|Hm]); try discriminate.
  - injection Hcontents as <- <-. destruct Hin as [<-|[<-|[]]].
    + split; [exists matcher1; split; [set_solver|reflexivity]|cbn; lia].
    + split; [exists matcher2; split; [set_solver|reflexivity]|cbn; lia].
  - inversion Hm.
Qed.

Lemma same_configuration_preserved_witness :
  exists st ct,
    determineAll serializeTest reorderedConfig (indexMap installedConfig)
      (initTrackers serializeTest installedConfig) (indexMap reorderedConfig)
      = Done st ct /\
    forall i, (i < length reorderedConfig)%nat -> st !! i = Some UPDATE_PRESERVE.
Proof.
  exact (proj1 (same_configuration_preserved serializeTest installedConfig
                  reorderedConfig rankTest installedConfig_ids reorderedConfig_same
                  (fun m op children c Hm Hc Hin =>
                     proj1 (reorderedConfig_children m op children c Hm Hc Hin))
                  (fun m op children c Hm Hc Hin =>
                     proj2 (reorderedConfig_children m op children c Hm Hc Hin)))).
Defined.

End ConfigUpdateFacts.

(** * Part III: further properties of the embedded code *)

(** ** The uid map: installs, removals and full updates *)

Module UidMapMoreFacts.
Import UidMap UidMapFacts.

Section Operations.

Variable kBytesChangeRecord : Z.
Variable kMaxBytesUsedUidMap : Z.
Variable kMaxDeletedAppsInUidMap : Z.

Hypothesis record_cost_positive : 0 < kBytesChangeRecord.
Hypothesis default_budget : 0 <= kMaxBytesUsedUidMap.
Hypothesis default_budget_fits : kMaxBytesUsedUidMap + kBytesChangeRecord < 2 ^ 64.

Abbreviation K := kBytesChangeRecord.
Abbreviation within := (within_budget kBytesChangeRecord kMaxBytesUsedUidMap).

(** The guardrail after a record was appended to a log within its budget:
    the record is at the end of the log, after the oldest record was evicted
    if the bytes no longer fit.  (With an empty log and a limit below the
    cost of one record, what is evicted is the new record itself.) *)
Lemma push_then_ensure_log (u : t) (r : ChangeRecord) m d :
  within u ->
  exists (n : nat) (u' : t),
    UidMap.ensureBytesUsedBelowLimit K kMaxBytesUsedUidMap
      (mkUidMap m (mChanges u ++ [r]) d (to_size_t (mBytesUsed u + K))
         (mLastUpdatePerConfigKey u) (mSubscriber u) (maxBytesOverride u))
    = Some u' /\
    within u' /\ mMap u' = m /\ mDeletedApps u' = d /\
    mChanges u' = drop n (mChanges u ++ [r]) /\
    mLastUpdatePerConfigKey u' = mLastUpdatePerConfigKey u /\
    mSubscriber u' = mSubscriber u /\ maxBytesOverride u' = maxBytesOverride u /\
    mChanges u' =
      (if mBytesUsed u + K <=? UidMap.limit kMaxBytesUsedUidMap u
       then mChanges u ++ [r]
       else drop 1 (mChanges u ++ [r])) /\
    (mChanges u <> [] \/ K <= UidMap.limit kMaxBytesUsedUidMap u ->
     last (mChanges u') = Some r).
Proof.
  intros Hwb.
  pose proof (within_budget_nonneg K kMaxBytesUsedUidMap record_cost_positive
                default_budget default_budget_fits u Hwb) as Hnn.
  destruct Hwb as (Hacc & Hle & Hfit).
  destruct (limit_bounds K kMaxBytesUsedUidMap default_budget default_budget_fits u Hfit)
    as [Hl0 Hl1].
  unfold accounted in Hacc.
  set (u1 := mkUidMap m (mChanges u ++ [r]) d (to_size_t (mBytesUsed u + K))
               (mLastUpdatePerConfigKey u) (mSubscriber u) (maxBytesOverride u)).
  assert (Hb1 : mBytesUsed u1 = mBytesUsed u + K).
  { subst u1; cbn. apply to_size_t_id. unfold UidMap.limit in *. lia. }
  assert (Hacc1 : accounted K u1).
  { unfold accounted. rewrite Hb1. subst u1; cbn. rewrite length_app; cbn.
    rewrite Nat2Z.inj_add. lia. }
  assert (Hfit1 : override_fits K u1) by exact Hfit.
  assert (Hlt1 : mBytesUsed u1 < 2 ^ 64).
  { rewrite Hb1. change (UidMap.limit kMaxBytesUsedUidMap u1) with
      (UidMap.limit kMaxBytesUsedUidMap u) in *. lia. }
  destruct (ensure_spec K kMaxBytesUsedUidMap record_cost_positive default_budget
              default_budget_fits u1 Hacc1 Hfit1 Hlt1)
    as (n & u' & Hrun & _ & Hch & Hbytes & Hle' & Hmin & Hm & Hd & Hmarks & Hs & Hmbo).
  change (UidMap.limit kMaxBytesUsedUidMap u1) with (UidMap.limit kMaxBytesUsedUidMap u)
    in Hle', Hmin.
  change (mChanges u1) with (mChanges u ++ [r]) in Hch.
  rewrite Hb1 in Hbytes, Hmin.
  assert (Hn : n = if mBytesUsed u + K <=? UidMap.limit kMaxBytesUsedUidMap u
                   then 0%nat else 1%nat).
  { destruct (mBytesUsed u + K <=? UidMap.limit kMaxBytesUsedUidMap u) eqn:E.
    - apply Z.leb_le in E. destruct n as [|n]; [reflexivity|].
      specialize (Hmin 0%nat ltac:(lia)). cbn in Hmin. lia.
    - apply Z.leb_gt in E. destruct n as [|[|n]]; [cbn in Hbytes; lia|reflexivity|].
      specialize (Hmin 1%nat ltac:(lia)). cbn in Hmin. lia. }
  assert (Hlog : mChanges u' =
                 if mBytesUsed u + K <=? UidMap.limit kMaxBytesUsedUidMap u
                 then mChanges u ++ [r] else drop 1 (mChanges u ++ [r])).
  { rewrite Hch, Hn.
    destruct (mBytesUsed u + K <=? UidMap.limit kMaxBytesUsedUidMap u); reflexivity. }
  exists n, u'. split; [exact Hrun|]. split.
  { exact (ensure_within_budget K kMaxBytesUsedUidMap record_cost_positive default_budget
             default_budget_fits u1 u' Hacc1 Hfit1 Hlt1 Hrun). }
  split; [exact Hm|]. split; [exact Hd|]. split; [exact Hch|]. split; [exact Hmarks|].
  split; [exact Hs|]. split; [exact Hmbo|]. split; [exact Hlog|].
  intros Hkept. rewrite Hlog.
  destruct (mBytesUsed u + K <=? UidMap.limit kMaxBytesUsedUidMap u) eqn:E.
  - apply last_snoc.
  - apply Z.leb_gt in E. destruct (mChanges u) as [|r0 rest] eqn:Hold.
    + exfalso. cbn in Hacc. destruct Hkept as [Hne|HK]; [congruence|lia].
    + cbn [app drop]. apply last_snoc.
Qed.

(** X1.  [removeApp] on a map within its budget completes.  Afterwards the
    app is not visible, whether it was live, already deleted or never there;
    [notifyAppRemoved] is called whenever a listener is registered, also for
    an app the map did not have; and the deletion record, which carries the
    version the live entry had (0 otherwise), is appended to the change log:
    the log is the old one with the record at its end, less its oldest
    record when the bytes no longer fit.  So the record is the last of the
    log, unless the log was empty and the limit is below the cost of one
    record. *)
Theorem removeApp_hides_app (u : t) (timestamp : Z) (app : string) (uid : Z)
    (Hwb : within u) :
  let record :=
    mkChangeRecord true timestamp app uid 0 ""
      (if hasApp u uid app then getAppVersion u uid app else 0)
      (match mMap u !! (uid, app) with
       | Some old => if deleted old then "" else UidMap.versionString old
       | None => ""
       end) in
  exists u' : t,
    UidMap.removeApp K kMaxBytesUsedUidMap kMaxDeletedAppsInUidMap timestamp app uid u
      = Some (u', if mSubscriber u then [notifyAppRemoved timestamp app uid] else []) /\
    hasApp u' uid app = false /\
    getAppVersion u' uid app = 0 /\
    mChanges u' =
      (if mBytesUsed u + K <=? UidMap.limit kMaxBytesUsedUidMap u
       then mChanges u ++ [record]
       else drop 1 (mChanges u ++ [record])) /\
    (mChanges u <> [] \/ K <= UidMap.limit kMaxBytesUsedUidMap u ->
     last (mChanges u') = Some record).
Proof.
  cbv zeta.
  unfold UidMap.removeApp, hasApp, getAppVersion.
  destruct (mMap u !! (uid, app)) as [old|] eqn:Hold.
  - destruct (deleted old) eqn:Hdel; cbn [negb].
    + (* already a tombstone *)
      destruct (Z.of_nat (length (mDeletedApps u)) >? kMaxDeletedAppsInUidMap).
      * destruct (mDeletedApps u) as [|oldest rest].
        -- edestruct (push_then_ensure_log u) as (n & u' & Hrun & _ & Hm & _ & _ & _ & Hs & _ & Hlog & Hlast);
             [exact Hwb|].
           rewrite Hrun, Hs. exists u'. split; [reflexivity|].
           unfold hasApp, getAppVersion. rewrite Hm, Hold, Hdel. auto.
        -- edestruct (push_then_ensure_log u) as (n & u' & Hrun & _ & Hm & _ & _ & _ & Hs & _ & Hlog & Hlast);
             [exact Hwb|].
           rewrite Hrun, Hs. exists u'. split; [reflexivity|].
           unfold hasApp, getAppVersion. rewrite Hm.
           destruct (decide (oldest = (uid, app))) as [->|Hne].
           ++ rewrite lookup_delete_eq. auto.
           ++ rewrite lookup_delete_ne, Hold, Hdel by exact Hne. auto.
      * edestruct (push_then_ensure_log u) as (n & u' & Hrun & _ & Hm & _ & _ & _ & Hs & _ & Hlog & Hlast);
          [exact Hwb|].
        rewrite Hrun, Hs. exists u'. split; [reflexivity|].
        unfold hasApp, getAppVersion. rewrite Hm, Hold, Hdel. auto.
    + (* live: it becomes a tombstone *)
      destruct (Z.of_nat (length (mDeletedApps u ++ [(uid, app)])) >? kMaxDeletedAppsInUidMap).
      * destruct (mDeletedApps u ++ [(uid, app)]) as [|oldest rest].
        -- edestruct (push_then_ensure_log u) as (n & u' & Hrun & _ & Hm & _ & _ & _ & Hs & _ & Hlog & Hlast);
             [exact Hwb|].
           rewrite Hrun, Hs. exists u'. split; [reflexivity|].
           unfold hasApp, getAppVersion. rewrite Hm, lookup_insert_eq. cbn. auto.
        -- edestruct (push_then_ensure_log u) as (n & u' & Hrun & _ & Hm & _ & _ & _ & Hs & _ & Hlog & Hlast);
             [exact Hwb|].
           rewrite Hrun, Hs. exists u'. split; [reflexivity|].
           unfold hasApp, getAppVersion. rewrite Hm.
           destruct (decide (oldest = (uid, app))) as [->|Hne].
           ++ rewrite lookup_delete_eq. auto.
           ++ rewrite lookup_delete_ne, lookup_insert_eq by exact Hne. cbn. auto.
      * edestruct (push_then_ensure_log u) as (n & u' & Hrun & _ & Hm & _ & _ & _ & Hs & _ & Hlog & Hlast);
          [exact Hwb|].
        rewrite Hrun, Hs. exists u'. split; [reflexivity|].
        unfold hasApp, getAppVersion. rewrite Hm, lookup_insert_eq. cbn. auto.
  - (* not in the map *)
    destruct (Z.of_nat (length (mDeletedApps u)) >? kMaxDeletedAppsInUidMap).
    + destruct (mDeletedApps u) as [|oldest rest].
      * edestruct (push_then_ensure_log u) as (n & u' & Hrun & _ & Hm & _ & _ & _ & Hs & _ & Hlog & Hlast);
          [exact Hwb|].
        rewrite Hrun, Hs. exists u'. split; [reflexivity|].
        unfold hasApp, getAppVersion. rewrite Hm, Hold. auto.
      * edestruct (push_then_ensure_log u) as (n & u' & Hrun & _ & Hm & _ & _ & _ & Hs & _ & Hlog & Hlast);
          [exact Hwb|].
        rewrite Hrun, Hs. exists u'. split; [reflexivity|].
        unfold hasApp, getAppVersion. rewrite Hm.
        destruct (decide (oldest = (uid, app))) as [->|Hne].
        -- rewrite lookup_delete_eq. auto.
        -- rewrite lookup_delete_ne, Hold by exact Hne. auto.
    + edestruct (push_then_ensure_log u) as (n & u' & Hrun & _ & Hm & _ & _ & _ & Hs & _ & Hlog & Hlast);
        [exact Hwb|].
      rewrite Hrun, Hs. exists u'. split; [reflexivity|].
      unfold hasApp, getAppVersion. rewrite Hm, Hold. auto.
Qed.

(** X2.  [updateApp] on a map within its budget completes.  Afterwards the
    app is visible with the new version under its uid and its name, and every
    other (uid, package) is looked up as before.  The record of the change
    carries as previous version the version the entry had -- also that of a
    tombstone -- cut down to 32 bits, and is appended to the change log: the
    log is the old one with the record at its end, less its oldest record
    when the bytes no longer fit.  So the record is the last of the log,
    unless the log was empty and the limit is below the cost of one record. *)
Theorem updateApp_then_lookup (u : t) (timestamp : Z) (appName : string)
    (uid versionCode : Z) (versionString installer certificateHash : string)
    (Hwb : within u) :
  let record :=
    mkChangeRecord false timestamp appName uid versionCode versionString
      (match mMap u !! (uid, appName) with
       | Some old => to_int32 (UidMap.versionCode old)
       | None => 0
       end)
      (match mMap u !! (uid, appName) with
       | Some old => UidMap.versionString old
       | None => ""
       end) in
  exists (u' : t) (calls : list Callback),
    UidMap.updateApp K kMaxBytesUsedUidMap timestamp appName uid versionCode
      versionString installer certificateHash u = Some (u', calls) /\
    hasApp u' uid appName = true /\
    getAppVersion u' uid appName = versionCode /\
    (appName ∈ getAppNamesFromUid u' uid false) /\
    (uid ∈ getAppUid u' appName) /\
    (forall uid' packageName',
       (uid', packageName') <> (uid, appName) ->
       hasApp u' uid' packageName' = hasApp u uid' packageName' /\
       getAppVersion u' uid' packageName' = getAppVersion u uid' packageName') /\
    mChanges u' =
      (if mBytesUsed u + K <=? UidMap.limit kMaxBytesUsedUidMap u
       then mChanges u ++ [record]
       else drop 1 (mChanges u ++ [record])) /\
    (mChanges u <> [] \/ K <= UidMap.limit kMaxBytesUsedUidMap u ->
     last (mChanges u') = Some record).
Proof.
  cbv zeta.
  assert (Hgoal : forall (u' : t),
    mMap u' = <[(uid, appName) :=
                  mkAppData versionCode versionString installer false certificateHash]>
                (mMap u) ->
    hasApp u' uid appName = true /\
    getAppVersion u' uid appName = versionCode /\
    (appName ∈ getAppNamesFromUid u' uid false) /\
    (uid ∈ getAppUid u' appName) /\
    (forall uid' packageName',
       (uid', packageName') <> (uid, appName) ->
       hasApp u' uid' packageName' = hasApp u uid' packageName' /\
       getAppVersion u' uid' packageName' = getAppVersion u uid' packageName')).
  { intros u' Hm.
    assert (Hl : mMap u' !! (uid, appName) =
                 Some (mkAppData versionCode versionString installer false certificateHash)).
    { rewrite Hm. apply lookup_insert_eq. }
    split; [unfold hasApp; rewrite Hl; reflexivity|].
    split; [unfold getAppVersion; rewrite Hl; reflexivity|].
    split; [apply elem_of_getAppNamesFromUid; eauto|].
    split; [apply elem_of_getAppUid; eauto|].
    intros uid' pkg' Hne. unfold hasApp, getAppVersion.
    rewrite Hm, lookup_insert_ne by congruence. auto. }
  unfold UidMap.updateApp.
  destruct (mMap u !! (uid, appName)) as [old|] eqn:Hold.
  - edestruct (push_then_ensure_log u) as (n & u' & Hrun & _ & Hm & _ & _ & _ & _ & _ & Hlog & Hlast);
      [exact Hwb|].
    rewrite Hrun. exists u'. eexists. split; [reflexivity|].
    destruct (Hgoal u' Hm) as (H1 & H2 & H3 & H4 & H5). auto 10.
  - edestruct (push_then_ensure_log u) as (n & u' & Hrun & _ & Hm & _ & _ & _ & _ & _ & Hlog & Hlast);
      [exact Hwb|].
    rewrite Hrun. exists u'. eexists. split; [reflexivity|].
    destruct (Hgoal u' Hm) as (H1 & H2 & H3 & H4 & H5). auto 10.
Qed.

(** *** The full update *)

(** The key of an [app_info] entry and the entry it gives. *)
Definition keyOf (appInfo : ApplicationInfo) : Z * string :=
  (info_uid appInfo, info_package_name appInfo).

Definition listed (uidData : list ApplicationInfo) (key : Z * string) : Prop :=
  exists appInfo, In appInfo uidData /\ keyOf appInfo = key.

Lemma refill_lookup (uidData : list ApplicationInfo) :
  forall (m0 : gmap (Z * string) AppData) (key : Z * string),
    (listed uidData key ->
       exists appInfo,
         In appInfo uidData /\ keyOf appInfo = key /\
         foldl (fun (m : gmap (Z * string) AppData) appInfo =>
                  <[(info_uid appInfo, info_package_name appInfo) :=
                      AppData_new (info_version appInfo) (info_version_string appInfo)
                        (info_installer appInfo) (info_certificate_hash appInfo)]> m)
               m0 uidData !! key
         = Some (AppData_new (info_version appInfo) (info_version_string appInfo)
                   (info_installer appInfo) (info_certificate_hash appInfo))) /\
    (~ listed uidData key ->
       foldl (fun (m : gmap (Z * string) AppData) appInfo =>
                <[(info_uid appInfo, info_package_name appInfo) :=
                    AppData_new (info_version appInfo) (info_version_string appInfo)
                      (info_installer appInfo) (info_certificate_hash appInfo)]> m)
             m0 uidData !! key = m0 !! key).
Proof.
  induction uidData as [|a rest IH]; intros m0 key.
  - split; [intros (x & [] & _)|reflexivity].
  - cbn [foldl].
    destruct (IH (<[(info_uid a, info_package_name a) :=
                      AppData_new (info_version a) (info_version_string a)
                        (info_installer a) (info_certificate_hash a)]> m0) key)
      as [IHin IHout].
    assert (Hdec : listed rest key \/ ~ listed rest key).
    { clear. induction rest as [|b rest IHr].
      - right. intros (x & [] & _).
      - destruct (decide (keyOf b = key)) as [Hb|Hb].
        + left. exists b. split; [left; reflexivity|exact Hb].
        + destruct IHr as [(x & Hx & Hk)|Hno].
          * left. exists x. split; [right; exact Hx|exact Hk].
          * right. intros (x & [<- | Hx] & Hk); [congruence|].
            apply Hno. exists x. split; assumption. }
    split.
    + intros Hl. destruct Hdec as [Hrest|Hrest].
      * destruct (IHin Hrest) as (x & Hx & Hk & Hlook).
        exists x. split; [right; exact Hx|]. split; [exact Hk|exact Hlook].
      * destruct Hl as (x & [<-|Hx] & Hk); [|exfalso; apply Hrest; exists x; auto].
        exists a. split; [left; reflexivity|]. split; [exact Hk|].
        rewrite (IHout Hrest). unfold keyOf in Hk. rewrite <- Hk. apply lookup_insert_eq.
    + intros Hno.
      assert (Hrest : ~ listed rest key).
      { intros (x & Hx & Hk). apply Hno. exists x. split; [right; exact Hx|exact Hk]. }
      rewrite (IHout Hrest). apply lookup_insert_ne.
      intros Heq. apply Hno. exists a. split; [left; reflexivity|exact Heq].
Qed.

(** X3.  [updateMap] on a map within its budget completes and leaves the
    change log as it is.  The map then holds the listed apps and nothing else: an
    app that is not listed is gone, tombstone or not; a listed app that was a
    tombstone is still that tombstone, and so still not visible; any other
    listed app is live with the data of an entry listing it.  The listener,
    if there is one, is told. *)
Theorem updateMap_replaces_map (u : t) (timestamp : Z) (uidData : list ApplicationInfo)
    (Hwb : within u) :
  exists u',
    UidMap.updateMap K kMaxBytesUsedUidMap timestamp uidData u
      = Some (u', if mSubscriber u then [onUidMapReceived timestamp] else []) /\
    mChanges u' = mChanges u /\
    forall key,
      (~ listed uidData key -> mMap u' !! key = None) /\
      (listed uidData key -> forall old,
         mMap u !! key = Some old -> deleted old = true ->
         mMap u' !! key = Some old /\ hasApp u' (fst key) (snd key) = false) /\
      (listed uidData key ->
         (forall old, mMap u !! key = Some old -> deleted old = false) ->
         exists appInfo,
           In appInfo uidData /\ keyOf appInfo = key /\
           mMap u' !! key =
             Some (AppData_new (info_version appInfo) (info_version_string appInfo)
                     (info_installer appInfo) (info_certificate_hash appInfo)) /\
           hasApp u' (fst key) (snd key) = true).
Proof.
  pose proof (within_budget_nonneg K kMaxBytesUsedUidMap record_cost_positive
                default_budget default_budget_fits u Hwb) as Hnn.
  destruct Hwb as (Hacc & Hle & Hfit). unfold UidMap.updateMap.
  match goal with
  | |- context [UidMap.ensureBytesUsedBelowLimit _ _ ?x] => set (u1 := x)
  end.
  assert (Hacc1 : accounted K u1) by exact Hacc.
  assert (Hfit1 : override_fits K u1) by exact Hfit.
  assert (Hlt1 : mBytesUsed u1 < 2 ^ 64) by (subst u1; cbn; lia).
  destruct (ensure_spec K kMaxBytesUsedUidMap record_cost_positive default_budget
              default_budget_fits u1 Hacc1 Hfit1 Hlt1)
    as (n & u' & Hrun & _ & Hch & _ & _ & Hmin & Hm & _ & _ & Hs & _).
  rewrite Hrun, Hs. exists u'. split; [reflexivity|].
  assert (n = 0%nat).
  { destruct n as [|n]; [reflexivity|]. exfalso.
    specialize (Hmin 0%nat ltac:(lia)). cbn in Hmin.
    change (UidMap.limit kMaxBytesUsedUidMap u1) with (UidMap.limit kMaxBytesUsedUidMap u)
      in Hmin. lia. }
  subst n. split; [exact Hch|].
  intros [i p]. cbn [fst snd]. unfold hasApp. rewrite Hm. subst u1. cbn [mMap].
  rewrite map_lookup_imap.
  destruct (refill_lookup uidData ∅ (i, p)) as [Hin Hout].
  split; [|split].
  - intros Hno. rewrite (Hout Hno), lookup_empty. reflexivity.
  - intros Hl old Hold Hdel. destruct (Hin Hl) as (x & _ & _ & ->). cbn.
    assert (Hf : filter (fun kv : Z * string * AppData => deleted kv.2 = true) (mMap u)
                 !! (i, p) = Some old).
    { apply map_lookup_filter_Some. split; [exact Hold|exact Hdel]. }
    rewrite Hf, Hdel. auto.
  - intros Hl Hlive. destruct (Hin Hl) as (x & Hx & Hk & ->). cbn.
    assert (Hf : filter (fun kv : Z * string * AppData => deleted kv.2 = true) (mMap u)
                 !! (i, p) = None).
    { apply map_lookup_filter_None. destruct (mMap u !! (i, p)) as [old|] eqn:Hold.
      - right. intros old' [= <-]. cbn. rewrite (Hlive old eq_refl). discriminate.
      - left. reflexivity. }
    exists x. rewrite Hf. auto.
Qed.

(** *** Tombstones and the deletion queue *)

Abbreviation run :=
  (UidMap.run kBytesChangeRecord kMaxBytesUsedUidMap kMaxDeletedAppsInUidMap).
Abbreviation step :=
  (UidMap.step kBytesChangeRecord kMaxBytesUsedUidMap kMaxDeletedAppsInUidMap).

(** The tombstones of the map. *)
Definition tombstones (u : t) : gmap (Z * string) AppData :=
  filter (fun kv : (Z * string) * AppData => deleted (snd kv) = true) (mMap u).

(** Every tombstone of the map is in the deletion queue, and the queue is no
    longer than [kMaxDeletedAppsInUidMap]. *)
Definition queued (u : t) : Prop :=
  (forall key a, mMap u !! key = Some a -> deleted a = true -> key ∈ mDeletedApps u) /\
  Z.of_nat (length (mDeletedApps u)) <= kMaxDeletedAppsInUidMap.

Lemma ensure_frame (u u' : t) :
  UidMap.ensureBytesUsedBelowLimit K kMaxBytesUsedUidMap u = Some u' ->
  mMap u' = mMap u /\ mDeletedApps u' = mDeletedApps u.
Proof.
  unfold UidMap.ensureBytesUsedBelowLimit.
  destruct (UidMap.ensure_loop K _ _ _) as [[b c]|]; [|discriminate].
  intros [= <-]. split; reflexivity.
Qed.

Lemma appendUidMap_frame (u : t) ts key :
  mMap (fst (UidMap.appendUidMap K ts key u)) = mMap u /\
  mDeletedApps (fst (UidMap.appendUidMap K ts key u)) = mDeletedApps u.
Proof.
  unfold UidMap.appendUidMap.
  match goal with |- context [if ?c then _ else _] => destruct c end; [|split; reflexivity].
  match goal with |- context [prune_loop ?a ?b ?c ?d] => destruct (prune_loop a b c d) end.
  split; reflexivity.
Qed.

Lemma refill_live (uidData : list ApplicationInfo) :
  forall (m0 : gmap (Z * string) AppData),
    (forall key a, m0 !! key = Some a -> deleted a = false) ->
    forall key a,
      foldl (fun (m : gmap (Z * string) AppData) appInfo =>
               <[(info_uid appInfo, info_package_name appInfo) :=
                   AppData_new (info_version appInfo) (info_version_string appInfo)
                     (info_installer appInfo) (info_certificate_hash appInfo)]> m)
            m0 uidData !! key = Some a ->
      deleted a = false.
Proof.
  induction uidData as [|b rest IH]; intros m0 Hm0 key a; cbn [foldl].
  - apply Hm0.
  - apply IH. intros key' a'.
    destruct (decide ((info_uid b, info_package_name b) = key')) as [<-|Hne].
    + rewrite lookup_insert_eq. intros [= <-]. reflexivity.
    + rewrite lookup_insert_ne by exact Hne. apply Hm0.
Qed.

Lemma updateMap_queued (u u' : t) ts uidData calls :
  queued u -> UidMap.updateMap K kMaxBytesUsedUidMap ts uidData u = Some (u', calls) ->
  queued u'.
Proof.
  intros [Hq Hlen]. unfold UidMap.updateMap.
  match goal with
  | |- context [UidMap.ensureBytesUsedBelowLimit _ _ ?x] =>
      destruct (UidMap.ensureBytesUsedBelowLimit K kMaxBytesUsedUidMap x) as [u1|] eqn:Hrun
  end; [|discriminate].
  intros [= <- _]. apply ensure_frame in Hrun. cbn in Hrun. destruct Hrun as [Hm Hd].
  split; [|rewrite Hd; exact Hlen].
  intros key a. rewrite Hm, Hd, map_lookup_imap.
  match goal with |- context [foldl ?f ∅ uidData] => set (fresh := foldl f ∅ uidData) end.
  destruct (fresh !! key) as [a'|] eqn:Hfresh; cbn; [|discriminate].
  destruct (filter _ (mMap u) !! key) as [d|] eqn:Hf.
  - apply map_lookup_filter_Some in Hf. destruct Hf as [Hold Hdel].
    intros [= <-] _. exact (Hq key d Hold Hdel).
  - intros [= <-] Hdel.
    assert (deleted a' = false); [|congruence].
    apply (refill_live uidData ∅) with (key := key); [|exact Hfresh].
    intros k x. rewrite lookup_empty. discriminate.
Qed.

Lemma updateApp_queued (u u' : t) ts appName uid v vs ins cert calls :
  queued u ->
  UidMap.updateApp K kMaxBytesUsedUidMap ts appName uid v vs ins cert u = Some (u', calls) ->
  queued u'.
Proof.
  intros [Hq Hlen]. unfold UidMap.updateApp.
  assert (Hgoal : forall (x : t),
            mMap x = <[(uid, appName) := mkAppData v vs ins false cert]> (mMap u) ->
            mDeletedApps x = mDeletedApps u -> queued x).
  { intros x Hm Hd. split; [|rewrite Hd; exact Hlen].
    intros key a. rewrite Hm, Hd.
    destruct (decide ((uid, appName) = key)) as [<-|Hne].
    - rewrite lookup_insert_eq. intros [= <-]. discriminate.
    - rewrite lookup_insert_ne by exact Hne. apply Hq. }
  destruct (mMap u !! (uid, appName)) as [old|];
    match goal with
    | |- context [UidMap.ensureBytesUsedBelowLimit _ _ ?x] =>
        destruct (UidMap.ensureBytesUsedBelowLimit K kMaxBytesUsedUidMap x) as [u1|] eqn:Hrun
    end; try discriminate;
    intros [= <- _]; apply ensure_frame in Hrun; cbn in Hrun; destruct Hrun as [Hm Hd];
    apply Hgoal; assumption.
Qed.

(** The queue step of [removeApp]: the oldest key goes when the queue is
    over its bound. *)
Lemma pop_queued (m : gmap (Z * string) AppData) (q : list (Z * string)) :
  (forall key a, m !! key = Some a -> deleted a = true -> key ∈ q) ->
  Z.of_nat (length q) <= kMaxDeletedAppsInUidMap + 1 ->
  0 <= kMaxDeletedAppsInUidMap ->
  let '(m2, q2) :=
    if Z.of_nat (length q) >? kMaxDeletedAppsInUidMap then
      match q with
      | oldest :: rest => (delete oldest m, rest)
      | [] => (m, q)
      end
    else (m, q) in
  (forall key a, m2 !! key = Some a -> deleted a = true -> key ∈ q2) /\
  Z.of_nat (length q2) <= kMaxDeletedAppsInUidMap.
Proof.
  intros Hq Hlen Hmax.
  destruct (Z.of_nat (length q) >? kMaxDeletedAppsInUidMap) eqn:E.
  - destruct q as [|oldest rest].
    + cbn in *. split; [exact Hq|lia].
    + cbn [length] in Hlen. rewrite Nat2Z.inj_succ in Hlen. split; [|lia].
      intros key a. destruct (decide (oldest = key)) as [<-|Hne].
      * rewrite lookup_delete_eq. discriminate.
      * rewrite lookup_delete_ne by exact Hne. intros Hk Hdel.
        specialize (Hq key a Hk Hdel). apply elem_of_cons in Hq.
        destruct Hq as [->|Hin]; [congruence|exact Hin].
  - rewrite Z.gtb_ltb in E. apply Z.ltb_ge in E. split; [exact Hq|exact E].
Qed.

Lemma removeApp_queued (u u' : t) ts app uid calls :
  queued u ->
  UidMap.removeApp K kMaxBytesUsedUidMap kMaxDeletedAppsInUidMap ts app uid u
    = Some (u', calls) ->
  queued u'.
Proof.
  intros [Hq Hlen].
  assert (Hmax : 0 <= kMaxDeletedAppsInUidMap) by lia.
  unfold UidMap.removeApp.
  destruct (mMap u !! (uid, app)) as [old|] eqn:Hold; [destruct (deleted old) eqn:Hdel|].
  - pose proof (pop_queued (mMap u) (mDeletedApps u) Hq ltac:(lia) Hmax) as Hpop.
    destruct (if Z.of_nat (length (mDeletedApps u)) >? kMaxDeletedAppsInUidMap
              then match mDeletedApps u with
                   | oldest :: rest => (delete oldest (mMap u), rest)
                   | [] => (mMap u, mDeletedApps u)
                   end
              else (mMap u, mDeletedApps u)) as [m2 q2].
    match goal with
    | |- context [UidMap.ensureBytesUsedBelowLimit _ _ ?x] =>
        destruct (UidMap.ensureBytesUsedBelowLimit K kMaxBytesUsedUidMap x) as [u1|] eqn:Hrun
    end; [|discriminate].
    intros [= <- _]. apply ensure_frame in Hrun. cbn in Hrun. destruct Hrun as [Hm Hd].
    unfold queued. rewrite Hm, Hd. exact Hpop.
  - set (m1 := <[(uid, app) := mkAppData (UidMap.versionCode old) (UidMap.versionString old)
                                 (UidMap.installer old) true (UidMap.certificateHash old)]>
                 (mMap u)).
    set (q1 := mDeletedApps u ++ [(uid, app)]).
    assert (Hq1 : forall key a, m1 !! key = Some a -> deleted a = true -> key ∈ q1).
    { intros key a. subst m1 q1. destruct (decide ((uid, app) = key)) as [<-|Hne].
      - intros _ _. apply elem_of_app. right. apply list_elem_of_singleton. reflexivity.
      - rewrite lookup_insert_ne by exact Hne. intros Hk Hd.
        apply elem_of_app. left. exact (Hq key a Hk Hd). }
    assert (Hlen1 : Z.of_nat (length q1) <= kMaxDeletedAppsInUidMap + 1).
    { subst q1. rewrite length_app. cbn [length]. lia. }
    pose proof (pop_queued m1 q1 Hq1 Hlen1 Hmax) as Hpop.
    destruct (if Z.of_nat (length q1) >? kMaxDeletedAppsInUidMap
              then match q1 with
                   | oldest :: rest => (delete oldest m1, rest)
                   | [] => (m1, q1)
                   end
              else (m1, q1)) as [m2 q2].
    match goal with
    | |- context [UidMap.ensureBytesUsedBelowLimit _ _ ?x] =>
        destruct (UidMap.ensureBytesUsedBelowLimit K kMaxBytesUsedUidMap x) as [u1|] eqn:Hrun
    end; [|discriminate].
    intros [= <- _]. apply ensure_frame in Hrun. cbn in Hrun. destruct Hrun as [Hm Hd].
    unfold queued. rewrite Hm, Hd. exact Hpop.
  - pose proof (pop_queued (mMap u) (mDeletedApps u) Hq ltac:(lia) Hmax) as Hpop.
    destruct (if Z.of_nat (length (mDeletedApps u)) >? kMaxDeletedAppsInUidMap
              then match mDeletedApps u with
                   | oldest :: rest => (delete oldest (mMap u), rest)
                   | [] => (mMap u, mDeletedApps u)
                   end
              else (mMap u, mDeletedApps u)) as [m2 q2].
    match goal with
    | |- context [UidMap.ensureBytesUsedBelowLimit _ _ ?x] =>
        destruct (UidMap.ensureBytesUsedBelowLimit K kMaxBytesUsedUidMap x) as [u1|] eqn:Hrun
    end; [|discriminate].
    intros [= <- _]. apply ensure_frame in Hrun. cbn in Hrun. destruct Hrun as [Hm Hd].
    unfold queued. rewrite Hm, Hd. exact Hpop.
Qed.

Lemma step_queued (u u' : t) (op : Op) : queued u -> step u op = Some u' -> queued u'.
Proof.
  intros Hq. destruct op as [ts d | ts n i v vs ins c | ts a i | l | | ts k | k | k];
    cbn [UidMap.step].
  - destruct (UidMap.updateMap _ _ ts d u) as [[x calls]|] eqn:E; [|discriminate].
    intros [= <-]. exact (updateMap_queued u x ts d calls Hq E).
  - destruct (UidMap.updateApp _ _ ts n i v vs ins c u) as [[x calls]|] eqn:E; [|discriminate].
    intros [= <-]. exact (updateApp_queued u x ts n i v vs ins c calls Hq E).
  - destruct (UidMap.removeApp _ _ _ ts a i u) as [[x calls]|] eqn:E; [|discriminate].
    intros [= <-]. exact (removeApp_queued u x ts a i calls Hq E).
  - intros [= <-]. exact Hq.
  - intros [= <-]. exact Hq.
  - intros [= <-]. destruct (appendUidMap_frame u ts k) as [Hm Hd].
    unfold queued. rewrite Hm, Hd. exact Hq.
  - intros [= <-]. exact Hq.
  - intros [= <-]. exact Hq.
Qed.

Lemma run_queued (ops : list Op) :
  forall (u u' : t), queued u -> run u ops = Some u' -> queued u'.
Proof.
  induction ops as [|op rest IH]; intros u u' Hq; cbn [UidMap.run].
  - intros [= <-]. exact Hq.
  - destruct (step u op) as [u1|] eqn:E; [|discriminate].
    apply IH. exact (step_queued u u1 op Hq E).
Qed.

Lemma size_list_to_set_le (l : list (Z * string)) :
  (size (list_to_set l : gset (Z * string)) <= length l)%nat.
Proof.
  induction l as [|x l IH]; cbn [list_to_set length].
  - rewrite size_empty. lia.
  - rewrite size_union_alt, size_singleton.
    assert (size (list_to_set l ∖ {[x]} : gset (Z * string))
            <= size (list_to_set l : gset (Z * string)))%nat.
    { apply subseteq_size. apply subseteq_difference_l. reflexivity. }
    lia.
Qed.

(** X4.  From a fresh map, whatever operations are performed: every
    tombstone of the map is in the deletion queue, the queue holds at most
    [kMaxDeletedAppsInUidMap] keys, and so the map holds at most that many
    tombstones. *)
Theorem tombstones_bounded (maxBytes : Z) (ops : list Op) (u : t)
    (Hmax : 0 <= kMaxDeletedAppsInUidMap)
    (Hrun : run (init maxBytes) ops = Some u) :
  (forall key a, mMap u !! key = Some a -> deleted a = true -> key ∈ mDeletedApps u) /\
  Z.of_nat (length (mDeletedApps u)) <= kMaxDeletedAppsInUidMap /\
  Z.of_nat (size (tombstones u)) <= kMaxDeletedAppsInUidMap.
Proof.
  assert (Hinit : queued (init maxBytes)).
  { split; [|exact Hmax]. intros key a. cbn. rewrite lookup_empty. discriminate. }
  destruct (run_queued ops (init maxBytes) u Hinit Hrun) as [Hq Hlen].
  split; [exact Hq|]. split; [exact Hlen|].
  assert (Hsub : dom (tombstones u) ⊆ (list_to_set (mDeletedApps u) : gset (Z * string))).
  { intros key Hkey. apply elem_of_dom in Hkey. destruct Hkey as [a Ha].
    apply map_lookup_filter_Some in Ha. destruct Ha as [Hk Hdel].
    apply elem_of_list_to_set. exact (Hq key a Hk Hdel). }
  apply subseteq_size in Hsub. rewrite size_dom in Hsub.
  pose proof (size_list_to_set_le (mDeletedApps u)). lia.
Qed.

(** X5.  [removeApp] of a live app on a map whose deletion queue is full
    erases the entry of the oldest queued key, whatever that entry is by
    then: a key that was installed again after its removal is still in the
    queue, and its live entry goes with it. *)
Theorem removeApp_evicts_oldest (u : t) (timestamp : Z) (app : string) (uid : Z)
    (oldest : Z * string) (rest : list (Z * string))
    (Hwb : within u)
    (Hqueue : mDeletedApps u = oldest :: rest)
    (Hfull : kMaxDeletedAppsInUidMap <= Z.of_nat (length (mDeletedApps u)))
    (Hlive : hasApp u uid app = true) :
  exists (u' : t) (calls : list Callback),
    UidMap.removeApp K kMaxBytesUsedUidMap kMaxDeletedAppsInUidMap timestamp app uid u
      = Some (u', calls) /\
    mDeletedApps u' = rest ++ [(uid, app)] /\
    mMap u' !! oldest = None /\
    hasApp u' (fst oldest) (snd oldest) = false /\
    (forall key, key <> oldest -> key <> (uid, app) -> mMap u' !! key = mMap u !! key).
Proof.
  unfold hasApp in Hlive. unfold UidMap.removeApp.
  destruct (mMap u !! (uid, app)) as [old|] eqn:Hold; [|discriminate].
  destruct (deleted old) eqn:Hdel; [discriminate|].
  rewrite Hqueue in *. rewrite <- app_comm_cons. cbn [length] in *.
  assert (E : (Z.of_nat (S (length (rest ++ [(uid, app)]))) >? kMaxDeletedAppsInUidMap) = true).
  { apply Z.gtb_lt. rewrite length_app. cbn [length].
    rewrite Nat2Z.inj_succ in *. rewrite Nat2Z.inj_add. cbn. lia. }
  rewrite E.
  edestruct (push_then_ensure_log u) as (n & u' & Hrun & _ & Hm & Hd & _); [exact Hwb|].
  rewrite Hrun. exists u'. eexists. split; [reflexivity|].
  split; [exact Hd|].
  assert (Hgone : mMap u' !! oldest = None) by (rewrite Hm; apply lookup_delete_eq).
  split; [exact Hgone|]. split.
  - unfold hasApp. destruct oldest as [i p]. cbn [fst snd]. rewrite Hgone. reflexivity.
  - intros key Hk1 Hk2. rewrite Hm, lookup_delete_ne, lookup_insert_ne by congruence.
    reflexivity.
Qed.

(** *** The marks of the configs *)

Lemma min_fold_spec (l : list (ConfigKey * Z)) :
  forall m : Z,
    m <> 0 -> Forall (fun kv => snd kv <> 0) l ->
    let r := foldl min_step m l in
    r <> 0 /\ r <= m /\ Forall (fun kv => r <= snd kv) l /\
    (r = m \/ exists kv, kv ∈ l /\ snd kv = r).
Proof.
  induction l as [|kv rest IH]; intros m Hm Hall; cbn [foldl].
  - cbv zeta. repeat split; auto. lia.
  - inversion Hall as [|? ? Hkv Hrest]; subst.
    assert (Hstep : min_step m kv = if snd kv <? m then snd kv else m).
    { unfold min_step. apply Z.eqb_neq in Hm. rewrite Hm. reflexivity. }
    rewrite Hstep. clear Hstep.
    destruct (snd kv <? m) eqn:E.
    + apply Z.ltb_lt in E.
      destruct (IH (snd kv) Hkv Hrest) as (H1 & H2 & H3 & H4). cbv zeta.
      split; [exact H1|]. split; [lia|]. split.
      * constructor; [exact H2|exact H3].
      * right. destruct H4 as [H4|(kv' & Hin & Heq)].
        -- exists kv. split; [left|congruence].
        -- exists kv'. split; [right; exact Hin|exact Heq].
    + apply Z.ltb_ge in E.
      destruct (IH m Hm Hrest) as (H1 & H2 & H3 & H4). cbv zeta.
      split; [exact H1|]. split; [exact H2|]. split.
      * constructor; [lia|exact H3].
      * destruct H4 as [H4|(kv' & Hin & Heq)]; [left; exact H4|].
        right. exists kv'. split; [right; exact Hin|exact Heq].
Qed.

(** X6.  [getMinimumTimestampNs] gives 0 when no config has a mark.  When
    no mark is 0, it gives the smallest mark: the mark of some config, and at
    most the mark of every config. *)
Theorem getMinimumTimestampNs_is_minimum (u : t)
    (Hnonzero : forall key ts, mLastUpdatePerConfigKey u !! key = Some ts -> ts <> 0) :
  (mLastUpdatePerConfigKey u = ∅ -> getMinimumTimestampNs u = 0) /\
  (mLastUpdatePerConfigKey u <> ∅ ->
     (exists key, mLastUpdatePerConfigKey u !! key = Some (getMinimumTimestampNs u)) /\
     (forall key ts, mLastUpdatePerConfigKey u !! key = Some ts ->
                     getMinimumTimestampNs u <= ts)).
Proof.
  unfold getMinimumTimestampNs, minimumOf. split.
  - intros ->. rewrite map_to_list_empty. reflexivity.
  - intros Hne.
    assert (Hall : Forall (fun kv : ConfigKey * Z => snd kv <> 0)
                     (map_to_list (mLastUpdatePerConfigKey u))).
    { apply Forall_forall. intros [key ts] Hin. apply elem_of_map_to_list in Hin.
      exact (Hnonzero key ts Hin). }
    destruct (map_to_list (mLastUpdatePerConfigKey u)) as [|[key0 ts0] rest] eqn:Hl.
    { apply map_to_list_empty_iff in Hl. contradiction. }
    cbn [foldl]. change (min_step 0 (key0, ts0)) with ts0.
    inversion Hall as [|? ? H0 Hrest]; subst. cbn [snd] in H0.
    destruct (min_fold_spec rest ts0 H0 Hrest) as (_ & Hle & Hlow & Hwho).
    cbv zeta in *. split.
    + destruct Hwho as [->|([key ts] & Hin & Heq)].
      * exists key0. apply elem_of_map_to_list. rewrite Hl. left.
      * exists key. apply elem_of_map_to_list. rewrite Hl. cbn [snd] in Heq. subst ts.
        right. exact Hin.
    + intros key ts Hk. apply elem_of_map_to_list in Hk. rewrite Hl in Hk.
      apply elem_of_cons in Hk. destruct Hk as [[= -> ->]|Hin]; [exact Hle|].
      rewrite Forall_forall in Hlow. exact (Hlow (key, ts) Hin).
Qed.

(** X7.  A report for a config sets its mark, and the next report for the
    same config writes exactly the records left in the log that are newer
    than the timestamp of the first.  So when no record of the log is newer
    than the first report, the second report repeats no change. *)
Theorem appendUidMap_no_repeat (u : t) (ts1 ts2 : Z) (key : ConfigKey) :
  let u1 := fst (UidMap.appendUidMap K ts1 key u) in
  let out2 := snd (UidMap.appendUidMap K ts2 key u1) in
  mLastUpdatePerConfigKey u1 !! key = Some ts1 /\
  out_changes out2 = List.filter (fun r => timestampNs r >? ts1) (mChanges u1) /\
  (forall r, In r (mChanges u1) -> In r (mChanges u)) /\
  ((forall r, In r (mChanges u) -> timestampNs r <= ts1) -> out_changes out2 = []).
Proof.
  cbv zeta.
  assert (Hmark : mLastUpdatePerConfigKey (fst (UidMap.appendUidMap K ts1 key u)) !! key
                  = Some ts1).
  { unfold UidMap.appendUidMap.
    match goal with |- context [if ?c then _ else _] => destruct c end.
    - match goal with |- context [prune_loop ?a ?b ?c ?d] => destruct (prune_loop a b c d) end.
      cbn. apply lookup_insert_eq.
    - cbn. apply lookup_insert_eq. }
  assert (Hsub : forall r, In r (mChanges (fst (UidMap.appendUidMap K ts1 key u))) ->
                           In r (mChanges u)).
  { intros r. unfold UidMap.appendUidMap.
    match goal with |- context [if ?c then _ else _] => destruct c end; [|cbn; auto].
    match goal with
    | |- context [prune_loop ?a ?b ?c ?d] =>
        pose proof (prune_loop_kept a b c d) as Hk; destruct (prune_loop a b c d) as [b' k']
    end.
    cbn in *. subst k'. intros Hr. apply kept_bound in Hr. tauto. }
  split; [exact Hmark|].
  assert (Hout : out_changes (snd (UidMap.appendUidMap K ts2 key
                                     (fst (UidMap.appendUidMap K ts1 key u)))) =
                 List.filter (fun r => timestampNs r >? ts1)
                   (mChanges (fst (UidMap.appendUidMap K ts1 key u)))).
  { rewrite (appendUidMap_written K _ ts2 key), Hmark. reflexivity. }
  split; [exact Hout|]. split; [exact Hsub|].
  intros Hpast. rewrite Hout.
  assert (Hnone : forall l : list ChangeRecord,
            (forall r, In r l -> timestampNs r <= ts1) ->
            List.filter (fun r => timestampNs r >? ts1) l = []).
  { induction l as [|r l IH]; intros Hl; [reflexivity|]. cbn [List.filter].
    assert (Hr : (timestampNs r >? ts1) = false).
    { rewrite Z.gtb_ltb. apply Z.ltb_ge. apply Hl. left. reflexivity. }
    rewrite Hr. apply IH. intros r' Hr'. apply Hl. right. exact Hr'. }
  apply Hnone. intros r Hr. apply Hpast, Hsub, Hr.
Qed.

(** *** The high-water marks and the change log *)

(** [m] is the minimum of the marks: the mark of some config, and at most
    the mark of every config. *)
Definition isMinMark (marks : gmap ConfigKey Z) (m : Z) : Prop :=
  (exists key, marks !! key = Some m) /\
  forall key ts, marks !! key = Some ts -> m <= ts.

(** No mark is 0, the value [getMinimumTimestampNs] takes for "no mark seen
    yet". *)
Definition marksNonzero (marks : gmap ConfigKey Z) : Prop :=
  forall key ts, marks !! key = Some ts -> ts <> 0.

Lemma minimumOf_isMinMark (marks : gmap ConfigKey Z) (m : Z) :
  marksNonzero marks -> isMinMark marks m -> minimumOf marks = m.
Proof.
  intros Hnz [[keym Hkeym] Hlow]. unfold minimumOf.
  assert (Hall : Forall (fun kv : ConfigKey * Z => snd kv <> 0) (map_to_list marks)).
  { apply Forall_forall. intros [key ts] Hin. apply elem_of_map_to_list in Hin.
    exact (Hnz key ts Hin). }
  destruct (map_to_list marks) as [|[key0 ts0] rest] eqn:Hl.
  { apply map_to_list_empty_iff in Hl. subst marks. rewrite lookup_empty in Hkeym.
    discriminate. }
  cbn [foldl]. change (min_step 0 (key0, ts0)) with ts0.
  inversion Hall as [|? ? H0 Hrest]; subst. cbn [snd] in H0.
  destruct (min_fold_spec rest ts0 H0 Hrest) as (_ & Hle & Hbelow & Hwho).
  cbv zeta in *.
  assert (Hge : m <= foldl min_step ts0 rest).
  { destruct Hwho as [->|([key ts] & Hin & Heq)].
    - apply (Hlow key0). apply elem_of_map_to_list. rewrite Hl. left.
    - cbn [snd] in Heq. subst ts. apply (Hlow key).
      apply elem_of_map_to_list. rewrite Hl. right. exact Hin. }
  assert (Hle' : foldl min_step ts0 rest <= m).
  { apply elem_of_map_to_list in Hkeym. rewrite Hl in Hkeym.
    apply elem_of_cons in Hkeym. destruct Hkeym as [[= -> ->]|Hin]; [exact Hle|].
    rewrite Forall_forall in Hbelow. exact (Hbelow (keym, m) Hin). }
  lia.
Qed.

Lemma appendUidMap_sets_mark (u : t) (ts : Z) (key : ConfigKey) :
  mLastUpdatePerConfigKey (fst (UidMap.appendUidMap K ts key u)) =
    <[key := ts]> (mLastUpdatePerConfigKey u).
Proof.
  unfold UidMap.appendUidMap.
  assert (Hmarks : <[key := ts]>
                     (match mChanges u, mLastUpdatePerConfigKey u !! key with
                      | _ :: _, None => <[key := 0]> (mLastUpdatePerConfigKey u)
                      | _, _ => mLastUpdatePerConfigKey u
                      end) = <[key := ts]> (mLastUpdatePerConfigKey u)).
  { destruct (mChanges u), (mLastUpdatePerConfigKey u !! key);
      try reflexivity. apply insert_insert_eq. }
  match goal with |- context [if ?c then _ else _] => destruct c end.
  - match goal with |- context [prune_loop ?a ?b ?c ?d] => destruct (prune_loop a b c d) end.
    cbn. exact Hmarks.
  - cbn. exact Hmarks.
Qed.

Lemma marksNonzero_insert (marks : gmap ConfigKey Z) (key : ConfigKey) (ts : Z) :
  marksNonzero marks -> ts <> 0 -> marksNonzero (<[key := ts]> marks).
Proof.
  intros Hnz Hts key' ts' Hl. apply lookup_insert_Some in Hl.
  destruct Hl as [[_ <-]|[_ Hl]]; [exact Hts|exact (Hnz key' ts' Hl)].
Qed.

Lemma appendAll_marksNonzero (calls : list (Z * ConfigKey)) (u : t) :
  marksNonzero (mLastUpdatePerConfigKey u) ->
  (forall ts key, In (ts, key) calls -> ts <> 0) ->
  marksNonzero (mLastUpdatePerConfigKey (appendAll K calls u)).
Proof.
  revert u. induction calls as [|[ts key] rest IH]; intros u Hnz Hts; [exact Hnz|].
  cbn [appendAll]. apply IH.
  - rewrite appendUidMap_sets_mark. apply marksNonzero_insert; [exact Hnz|].
    apply (Hts ts key). left. reflexivity.
  - intros ts' key' Hin. apply (Hts ts' key'). right. exact Hin.
Qed.

(** C9 (amended).  Every call of [appendUidMap] writes exactly the change
    records whose timestamp is above the mark of the config (0 when it has
    none), in the order of the log, and sets the mark of the config to its
    timestamp.  For a config that has a mark, no mark and no timestamp being
    0: if the call moves the minimum of the marks strictly forward, exactly
    the records older than the new minimum are erased, so that none remains;
    otherwise the change log stays as it is.  So after a series of such
    calls, if the minimum of the marks is higher than before the series, no
    record older than it remains. *)
Theorem appendUidMap_high_water (u : t) (timestamp : Z) (key : ConfigKey) :
  let u' := fst (UidMap.appendUidMap K timestamp key u) in
  let out := snd (UidMap.appendUidMap K timestamp key u) in
  out_changes out =
    List.filter (fun r => timestampNs r >? default 0 (mLastUpdatePerConfigKey u !! key))
                (mChanges u) /\
  mLastUpdatePerConfigKey u' = <[key := timestamp]> (mLastUpdatePerConfigKey u) /\
  (is_Some (mLastUpdatePerConfigKey u !! key) ->
   marksNonzero (mLastUpdatePerConfigKey u) -> timestamp <> 0 ->
   forall m m',
     isMinMark (mLastUpdatePerConfigKey u) m ->
     isMinMark (mLastUpdatePerConfigKey u') m' ->
     (m < m' ->
        mChanges u' = List.filter (fun r => m' <=? timestampNs r) (mChanges u) /\
        forall r, In r (mChanges u') -> m' <= timestampNs r) /\
     (m' <= m -> mChanges u' = mChanges u)) /\
  (forall calls u0 m0 m1,
     registered u0 calls ->
     marksNonzero (mLastUpdatePerConfigKey u0) ->
     (forall ts k, In (ts, k) calls -> ts <> 0) ->
     isMinMark (mLastUpdatePerConfigKey u0) m0 ->
     isMinMark (mLastUpdatePerConfigKey (appendAll K calls u0)) m1 ->
     m0 < m1 ->
     forall r, In r (mChanges (appendAll K calls u0)) -> m1 <= timestampNs r).
Proof.
  cbv zeta. split; [apply appendUidMap_written|].
  split; [apply appendUidMap_sets_mark|]. split.
  - intros Hkey Hnz Hts m m' Hm Hm'.
    pose proof (appendUidMap_changes K u timestamp key Hkey) as Hch.
    rewrite appendUidMap_sets_mark in Hm'.
    unfold getMinimumTimestampNs in Hch.
    rewrite (minimumOf_isMinMark _ m Hnz Hm) in Hch.
    rewrite (minimumOf_isMinMark _ m' (marksNonzero_insert _ key timestamp Hnz Hts) Hm')
      in Hch.
    assert (Hkept : kept m' (mChanges u)
                    = List.filter (fun r => m' <=? timestampNs r) (mChanges u)).
    { unfold kept. apply List.filter_ext. intros r. rewrite Z.leb_antisym. reflexivity. }
    split.
    + intros Hlt. apply Z.gtb_lt in Hlt. rewrite Hlt in Hch. rewrite <- Hkept.
      split; [exact Hch|]. intros r Hr. rewrite Hch in Hr. apply kept_bound in Hr. tauto.
    + intros Hle. destruct (m' >? m) eqn:E; [apply Z.gtb_lt in E; lia|exact Hch].
  - intros calls u0 m0 m1 Hreg Hnz Hts Hm0 Hm1 Hlt r Hr.
    pose proof (minimumOf_isMinMark _ m0 Hnz Hm0) as Hmin0.
    pose proof (minimumOf_isMinMark _ m1 (appendAll_marksNonzero calls u0 Hnz Hts) Hm1)
      as Hmin1.
    destruct (appendAll_high_water K calls u0 m0 m0 Hreg) as (hmax & Hle & Hall).
    { unfold getMinimumTimestampNs. lia. }
    { intros Habs. lia. }
    unfold getMinimumTimestampNs in Hle. rewrite Hmin1 in Hle.
    specialize (Hall ltac:(lia) r Hr). lia.
Qed.

End Operations.

(** *** Concrete maps *)

(** An app is installed, removed and installed again, and a second app is
    installed; the bound on remembered deletions is 1.  The key of the first
    app is still in the deletion queue. *)
Definition reinstall_ops : list Op :=
  [OpSetListener true;
   OpUpdateApp 100 "com.example.a" 10001 1 "1.0" "store" "";
   OpRemoveApp 200 "com.example.a" 10001;
   OpUpdateApp 300 "com.example.a" 10001 2 "2.0" "store" "";
   OpUpdateApp 400 "com.example.b" 10002 5 "5.0" "store" ""].

Definition reinstalled : t :=
  mkUidMap
    {[ (10001, "com.example.a"%string) := mkAppData 2 "2.0" "store" false "";
       (10002, "com.example.b"%string) := mkAppData 5 "5.0" "store" false "" ]}
    [mkChangeRecord false 100 "com.example.a" 10001 1 "1.0" 0 "";
     mkChangeRecord true 200 "com.example.a" 10001 0 "" 1 "1.0";
     mkChangeRecord false 300 "com.example.a" 10001 2 "2.0" 1 "1.0";
     mkChangeRecord false 400 "com.example.b" 10002 5 "5.0" 0 ""]
    [(10001, "com.example.a"%string)] 544 ∅ true 0.

Example reinstalled_reached :
  run K0 budget0 1 (init 0) reinstall_ops = Some reinstalled.
Proof. vm_compute. reflexivity. Qed.

Lemma reinstalled_within : within_budget K0 budget0 reinstalled.
Proof.
  unfold within_budget, accounted, override_fits. split; [reflexivity|].
  split; [discriminate|reflexivity].
Defined.

Lemma removeApp_hides_app_witness :
  within_budget K0 budget0 reinstalled /\
  exists u' : t,
    removeApp K0 budget0 maxDeleted0 500 "com.example.a" 10001 reinstalled
      = Some (u', [notifyAppRemoved 500 "com.example.a" 10001]) /\
    hasApp u' 10001 "com.example.a" = false /\
    getAppVersion u' 10001 "com.example.a" = 0 /\
    mChanges u' =
      mChanges reinstalled ++ [mkChangeRecord true 500 "com.example.a" 10001 0 "" 2 "2.0"] /\
    last (mChanges u') = Some (mkChangeRecord true 500 "com.example.a" 10001 0 "" 2 "2.0").
Proof.
  split; [exact reinstalled_within|].
  destruct (removeApp_hides_app K0 budget0 maxDeleted0 K0_positive budget0_nonneg
              budget0_fits reinstalled 500 "com.example.a" 10001 reinstalled_within)
    as (u' & Hrun & Hhas & Hver & Hlog & Hlast).
  exists u'. split; [exact Hrun|]. split; [exact Hhas|]. split; [exact Hver|].
  split; [exact Hlog|].
  apply Hlast. left. discriminate.
Defined.

Lemma updateApp_then_lookup_witness :
  within_budget K0 budget0 reinstalled /\
  exists (u' : t) (calls : list Callback),
    updateApp K0 budget0 500 "com.example.b" 10002 6 "6.0" "store" "" reinstalled
      = Some (u', calls) /\
    hasApp u' 10002 "com.example.b" = true /\
    getAppVersion u' 10002 "com.example.b" = 6 /\
    (10002 ∈ getAppUid u' "com.example.b") /\
    mChanges u' =
      mChanges reinstalled ++ [mkChangeRecord false 500 "com.example.b" 10002 6 "6.0" 5 "5.0"] /\
    last (mChanges u') = Some (mkChangeRecord false 500 "com.example.b" 10002 6 "6.0" 5 "5.0").
Proof.
  split; [exact reinstalled_within|].
  destruct (updateApp_then_lookup K0 budget0 K0_positive budget0_nonneg budget0_fits
              reinstalled 500 "com.example.b" 10002 6 "6.0" "store" ""
              reinstalled_within)
    as (u' & calls & Hrun & Hhas & Hver & _ & Huid & _ & Hlog & Hlast).
  exists u', calls. split; [exact Hrun|]. split; [exact Hhas|]. split; [exact Hver|].
  split; [exact Huid|]. split; [exact Hlog|].
  apply Hlast. left. discriminate.
Defined.

(** The full update that lists only the second app. *)
Definition only_b : list ApplicationInfo :=
  [mkApplicationInfo 10002 "com.example.b" 6 "6.0" "store" ""].

Lemma updateMap_replaces_map_witness :
  within_budget K0 budget0 reinstalled /\
  exists u' : t,
    updateMap K0 budget0 500 only_b reinstalled = Some (u', [onUidMapReceived 500]) /\
    mChanges u' = mChanges reinstalled /\
    mMap u' !! (10001, "com.example.a"%string) = None.
Proof.
  split; [exact reinstalled_within|].
  destruct (updateMap_replaces_map K0 budget0 K0_positive budget0_nonneg budget0_fits
              reinstalled 500 only_b reinstalled_within)
    as (u' & Hrun & Hch & Hkeys).
  exists u'. split; [exact Hrun|]. split; [exact Hch|].
  apply (Hkeys (10001, "com.example.a"%string)).
  intros (x & [<- | []] & Hk). discriminate Hk.
Defined.

Lemma tombstones_bounded_witness :
  0 <= maxDeleted0 /\
  exists u : t,
    run K0 budget0 maxDeleted0 (init 0) install_then_remove = Some u /\
    Z.of_nat (size (tombstones u)) <= maxDeleted0.
Proof.
  assert (Hmax : 0 <= maxDeleted0) by discriminate.
  split; [exact Hmax|].
  destruct (run K0 budget0 maxDeleted0 (init 0) install_then_remove) as [u|] eqn:Hrun.
  - exists u. split; [reflexivity|].
    exact (proj2 (proj2 (tombstones_bounded K0 budget0 maxDeleted0 0 install_then_remove u
                           Hmax Hrun))).
  - vm_compute in Hrun. discriminate Hrun.
Defined.

(** With the queue full, the removal of the second app erases the first,
    which is live. *)
Lemma removeApp_evicts_oldest_witness :
  (within_budget K0 budget0 reinstalled /\
   mDeletedApps reinstalled = [(10001, "com.example.a"%string)] /\
   1 <= Z.of_nat (length (mDeletedApps reinstalled)) /\
   hasApp reinstalled 10002 "com.example.b" = true) /\
  hasApp reinstalled 10001 "com.example.a" = true /\
  exists (u' : t) (calls : list Callback),
    removeApp K0 budget0 1 500 "com.example.b" 10002 reinstalled = Some (u', calls) /\
    mMap u' !! (10001, "com.example.a"%string) = None /\
    hasApp u' 10001 "com.example.a" = false.
Proof.
  assert (Hq : mDeletedApps reinstalled = [(10001, "com.example.a"%string)]) by reflexivity.
  assert (Hfull : 1 <= Z.of_nat (length (mDeletedApps reinstalled))) by discriminate.
  assert (Hlive : hasApp reinstalled 10002 "com.example.b" = true) by reflexivity.
  split; [exact (conj reinstalled_within (conj Hq (conj Hfull Hlive)))|].
  split; [reflexivity|].
  destruct (removeApp_evicts_oldest K0 budget0 1 K0_positive budget0_nonneg budget0_fits
              reinstalled 500 "com.example.b" 10002 (10001, "com.example.a"%string) []
              reinstalled_within Hq Hfull Hlive)
    as (u' & calls & Hrun & _ & Hgone & Hhas & _).
  exists u', calls. split; [exact Hrun|]. split; [exact Hgone|exact Hhas].
Defined.

(** Two configs: one has reported at time 10, the other was just updated. *)
Definition two_marks : t :=
  mkUidMap ∅ [] [] 0 {[ configA := 10; configB := -1 ]} false 0.

Lemma getMinimumTimestampNs_is_minimum_witness :
  (forall key ts, mLastUpdatePerConfigKey two_marks !! key = Some ts -> ts <> 0) /\
  forall key ts, mLastUpdatePerConfigKey two_marks !! key = Some ts ->
                 getMinimumTimestampNs two_marks <= ts.
Proof.
  assert (Hnz : forall key ts,
            mLastUpdatePerConfigKey two_marks !! key = Some ts -> ts <> 0).
  { intros key ts. cbn [two_marks mLastUpdatePerConfigKey].
    rewrite lookup_insert_Some, lookup_singleton_Some.
    intros [[_ <-]|[_ [_ <-]]]; discriminate. }
  split; [exact Hnz|].
  apply (getMinimumTimestampNs_is_minimum two_marks Hnz).
  intros Hempty. apply (f_equal (fun m => m !! configA)) in Hempty.
  vm_compute in Hempty. discriminate Hempty.
Defined.

(** Two configs register, an app is installed at time 5, the first config
    reports at time 10, and the app is updated at time 15.  When the second
    config then reports at time 20, the minimum of the marks moves from -1 to
    10: both records are written, and the record of time 5 is erased. *)
Definition one_report_ops : list Op :=
  [OpOnConfigUpdated configA;
   OpOnConfigUpdated configB;
   OpUpdateApp 5 "com.example.app" 10001 7 "7.0" "store" "";
   OpAppendUidMap 10 configA;
   OpUpdateApp 15 "com.example.app" 10001 8 "8.0" "store" ""].

Definition one_reported : t :=
  mkUidMap
    {[ (10001, "com.example.app"%string) := mkAppData 8 "8.0" "store" false "" ]}
    [mkChangeRecord false 5 "com.example.app" 10001 7 "7.0" 0 "";
     mkChangeRecord false 15 "com.example.app" 10001 8 "8.0" 7 "7.0"]
    [] 272 {[ configA := 10; configB := -1 ]} false 0.

Example one_reported_reached :
  run K0 budget0 maxDeleted0 (init 0) one_report_ops = Some one_reported.
Proof. vm_compute. reflexivity. Qed.

Lemma appendUidMap_high_water_witness :
  (is_Some (mLastUpdatePerConfigKey one_reported !! configB) /\
   marksNonzero (mLastUpdatePerConfigKey one_reported) /\
   20 <> 0 /\
   isMinMark (mLastUpdatePerConfigKey one_reported) (-1) /\
   isMinMark (mLastUpdatePerConfigKey (fst (appendUidMap K0 20 configB one_reported))) 10 /\
   -1 < 10) /\
  map timestampNs (out_changes (snd (appendUidMap K0 20 configB one_reported))) = [5; 15] /\
  mLastUpdatePerConfigKey (fst (appendUidMap K0 20 configB one_reported)) !! configB
    = Some 20 /\
  map timestampNs (mChanges (fst (appendUidMap K0 20 configB one_reported))) = [15] /\
  forall r, In r (mChanges (fst (appendUidMap K0 20 configB one_reported))) ->
            10 <= timestampNs r.
Proof.
  destruct (appendUidMap_high_water K0 one_reported 20 configB)
    as (Hout & Hmarks & Hprune & _).
  assert (Hkey : is_Some (mLastUpdatePerConfigKey one_reported !! configB)).
  { exists (-1). reflexivity. }
  assert (Hnz : marksNonzero (mLastUpdatePerConfigKey one_reported)).
  { intros key ts. cbn [one_reported mLastUpdatePerConfigKey].
    rewrite lookup_insert_Some, lookup_singleton_Some.
    intros [[_ <-]|[_ [_ <-]]]; lia. }
  assert (Hts : 20 <> 0) by discriminate.
  assert (Hm : isMinMark (mLastUpdatePerConfigKey one_reported) (-1)).
  { split; [exists configB; reflexivity|].
    intros key ts. cbn [one_reported mLastUpdatePerConfigKey].
    rewrite lookup_insert_Some, lookup_singleton_Some.
    intros [[_ <-]|[_ [_ <-]]]; lia. }
  assert (Hm' : isMinMark (mLastUpdatePerConfigKey
                             (fst (appendUidMap K0 20 configB one_reported))) 10).
  { rewrite Hmarks. split; [exists configA; reflexivity|].
    intros key ts. cbn [one_reported mLastUpdatePerConfigKey].
    rewrite !lookup_insert_Some, lookup_singleton_Some.
    intros [[_ <-]|[Hne [[_ <-]|[_ [Heq _]]]]]; [lia|lia|congruence]. }
  assert (Hlt : -1 < 10) by reflexivity.
  split; [exact (conj Hkey (conj Hnz (conj Hts (conj Hm (conj Hm' Hlt)))))|].
  destruct (Hprune Hkey Hnz Hts (-1) 10 Hm Hm') as [Hforward _].
  destruct (Hforward Hlt) as [Hlog Hall].
  split; [rewrite Hout; reflexivity|].
  split; [rewrite Hmarks; reflexivity|].
  split; [rewrite Hlog; reflexivity|exact Hall].
Defined.

End UidMapMoreFacts.

(** ** The uid map: the snapshot of a report *)

Module SnapshotFacts.
Import UidMap Snapshot.

Section Writer.

Variable Hash64 : string -> Z.
Variable includeVersionStrings : bool.
Variable truncatedCertificateHashSize : Z.

(** The installers seen so far are numbered 0, 1, ... below [cur], each
    number given once. *)
Definition numbered (indices : gmap string Z) (cur : Z) : Prop :=
  cur = Z.of_nat (size indices) /\
  (forall s i, indices !! s = Some i -> 0 <= i < cur) /\
  (forall s s' i, indices !! s = Some i -> indices !! s' = Some i -> s = s') /\
  (forall i, 0 <= i < cur -> exists s, indices !! s = Some i).

Lemma numbered_insert (indices : gmap string Z) (cur : Z) (s : string) :
  numbered indices cur -> indices !! s = None ->
  numbered (<[s := cur]> indices) (cur + 1).
Proof.
  intros (Hsize & Hrange & Hinj & Hsurj) Hnew. split; [|split; [|split]].
  - rewrite map_size_insert_None by exact Hnew. lia.
  - intros s1 i. destruct (decide (s = s1)) as [<-|Hne].
    + rewrite lookup_insert_eq. intros [= <-]. lia.
    + rewrite lookup_insert_ne by exact Hne. intros Hi. specialize (Hrange s1 i Hi). lia.
  - intros s1 s2 i.
    destruct (decide (s = s1)) as [<-|Hne1]; destruct (decide (s = s2)) as [<-|Hne2];
      rewrite ?lookup_insert_eq, ?lookup_insert_ne by assumption.
    + reflexivity.
    + intros [= <-] Hi. specialize (Hrange s2 cur Hi). lia.
    + intros Hi [= <-]. specialize (Hrange s1 cur Hi). lia.
    + apply Hinj.
  - intros i Hi. destruct (decide (i = cur)) as [->|Hne].
    + exists s. apply lookup_insert_eq.
    + destruct (Hsurj i ltac:(lia)) as [s1 Hs1]. exists s1.
      rewrite lookup_insert_ne; [exact Hs1|]. intros <-. congruence.
Qed.

(** The loop with installers included, every uid interesting, and a map of
    installer indices that is numbered. *)
Lemma snapshot_loop_numbered (entries : list ((Z * string) * AppData)) :
  forall (st : State) (indices : gmap string Z),
    installerIndices st = Some indices ->
    numbered indices (curInstallerIndex st) ->
    curInstallerIndex st + Z.of_nat (length entries) < 2 ^ 31 ->
    let st' := snapshot_loop Hash64 includeVersionStrings true truncatedCertificateHashSize
                 ∅ entries st in
    exists (indices' : gmap string Z) (ws : list PackageInfo),
      installerIndices st' = Some indices' /\
      numbered indices' (curInstallerIndex st') /\
      indices ⊆ indices' /\
      (forall s, is_Some (indices' !! s) ->
                 is_Some (indices !! s) \/
                 exists kv, kv ∈ entries /\ installer (snd kv) = s) /\
      hashing st' = hashing st /\
      written st' = written st ++ ws /\
      length ws = length entries /\
      (forall j kv, entries !! j = Some kv ->
         exists p i, ws !! j = Some p /\
                     pkg_uid p = fst (fst kv) /\
                     pkg_deleted p = deleted (snd kv) /\
                     pkg_installer p = Some (InstallerIndex i) /\
                     indices' !! installer (snd kv) = Some i).
Proof.
  induction entries as [|kv rest IH]; intros st indices Hidx Hnum Hlen; cbv zeta.
  - exists indices, []. cbn. rewrite app_nil_r.
    split; [exact Hidx|]. split; [exact Hnum|]. split; [reflexivity|].
    split; [auto|]. split; [reflexivity|]. split; [reflexivity|]. split; [reflexivity|].
    intros j kv Hj. rewrite lookup_nil in Hj. discriminate.
  - cbn [length] in Hlen. rewrite Nat2Z.inj_succ in Hlen.
    unfold snapshot_loop. cbn [foldl].
    set (st1 := snapshot_step Hash64 includeVersionStrings true truncatedCertificateHashSize
                  ∅ st kv).
    pose proof Hnum as (Hsize & Hrange & _ & _).
    assert (Hcur : 0 <= curInstallerIndex st) by lia.
    assert (Hst1 : exists (indices1 : gmap string Z) (p : PackageInfo) (i : Z),
               installerIndices st1 = Some indices1 /\
               numbered indices1 (curInstallerIndex st1) /\
               curInstallerIndex st1 <= curInstallerIndex st + 1 /\
               indices ⊆ indices1 /\
               (forall s, is_Some (indices1 !! s) ->
                          is_Some (indices !! s) \/ installer (snd kv) = s) /\
               hashing st1 = hashing st /\
               written st1 = written st ++ [p] /\
               pkg_uid p = fst (fst kv) /\
               pkg_deleted p = deleted (snd kv) /\
               pkg_installer p = Some (InstallerIndex i) /\
               indices1 !! installer (snd kv) = Some i).
    { subst st1. unfold snapshot_step.
      rewrite bool_decide_eq_true_2 by reflexivity. cbn [negb andb]. rewrite Hidx.
      destruct (indices !! installer (snd kv)) as [i|] eqn:Hi.
      - assert (Hne : (i =? -1) = false).
        { apply Z.eqb_neq. specialize (Hrange _ _ Hi). lia. }
        rewrite Hne. cbn [negb].
        eexists indices, _, i. cbn.
        split; [reflexivity|]. split; [exact Hnum|]. split; [lia|]. split; [reflexivity|].
        split; [auto|]. split; [unfold hashing; cbn; destruct (str_set st); reflexivity|].
        split; [reflexivity|]. split; [reflexivity|]. split; [reflexivity|].
        split; [reflexivity|exact Hi].
      - assert (Hne : (curInstallerIndex st =? -1) = false) by (apply Z.eqb_neq; lia).
        rewrite Hne. cbn [negb].
        assert (Hwrap : to_int32 (curInstallerIndex st + 1) = curInstallerIndex st + 1).
        { unfold to_int32. rewrite Z.mod_small; lia. }
        eexists (<[installer (snd kv) := curInstallerIndex st]> indices), _,
                (curInstallerIndex st). cbn. rewrite Hwrap.
        split; [reflexivity|]. split; [apply numbered_insert; assumption|].
        split; [lia|]. split; [apply insert_subseteq; exact Hi|].
        split.
        { intros s. destruct (decide (installer (snd kv) = s)) as [Heq|Hneq]; [auto|].
          rewrite lookup_insert_ne by exact Hneq. auto. }
        split; [unfold hashing; cbn; destruct (str_set st); reflexivity|].
        split; [reflexivity|]. split; [reflexivity|]. split; [reflexivity|].
        split; [reflexivity|apply lookup_insert_eq]. }
    destruct Hst1 as (indices1 & p & i & Hidx1 & Hnum1 & Hcur1 & Hsub1 & Hdom1 & Hhash1 &
                      Hw1 & Huid & Hdel & Hinst & Hlook).
    destruct (IH st1 indices1 Hidx1 Hnum1 ltac:(lia))
      as (indices' & ws & Hidx' & Hnum' & Hsub' & Hdom' & Hhash' & Hw' & Hlen' & Hall).
    exists indices', (p :: ws).
    split; [exact Hidx'|]. split; [exact Hnum'|].
    split; [etransitivity; eassumption|].
    split.
    { intros s Hs. destruct (Hdom' s Hs) as [H1|(kv' & Hin & Heq)].
      - destruct (Hdom1 s H1) as [H0|Heq]; [left; exact H0|].
        right. exists kv. split; [left|exact Heq].
      - right. exists kv'. split; [right; exact Hin|exact Heq]. }
    split; [unfold snapshot_loop in Hhash'; congruence|].
    split.
    { unfold snapshot_loop in Hw'. rewrite Hw', Hw1, <- app_assoc. reflexivity. }
    split; [cbn [length]; congruence|].
    intros [|j] kv' Hj; cbn in Hj.
    + injection Hj as <-. exists p, i. split; [reflexivity|]. split; [exact Huid|].
      split; [exact Hdel|]. split; [exact Hinst|].
      exact (lookup_weaken _ _ _ _ Hlook Hsub').
    + exact (Hall j kv' Hj).
Qed.

(** Filling the installer list from numbered indices. *)
Lemma store_all (l : list (string * Z)) :
  forall v0 : list string,
    (forall s i, (s, i) ∈ l -> 0 <= i < Z.of_nat (length v0)) ->
    (forall s s' i, (s, i) ∈ l -> (s', i) ∈ l -> s = s') ->
    exists v, foldl store_installer (Some v0) l = Some v /\
              length v = length v0 /\
              forall s i, (s, i) ∈ l -> v !! Z.to_nat i = Some s.
Proof.
  induction l as [|[s0 i0] l IH] using rev_ind; intros v0 Hrange Hinj.
  - exists v0. split; [reflexivity|]. split; [reflexivity|].
    intros s i Hin. apply elem_of_nil in Hin. contradiction.
  - destruct (IH v0) as (v & Hv & Hlen & Hall).
    { intros s i Hin. apply (Hrange s i). apply elem_of_app. left. exact Hin. }
    { intros s s' i H1 H2. apply (Hinj s s' i); apply elem_of_app; left; assumption. }
    assert (Hi0 : 0 <= i0 < Z.of_nat (length v0)).
    { apply (Hrange s0). apply elem_of_app. right. apply list_elem_of_singleton. reflexivity. }
    rewrite foldl_snoc, Hv. unfold store_installer. cbn [fst snd]. rewrite Hlen.
    assert (Hin_range : (0 <=? i0) && (i0 <? Z.of_nat (length v0)) = true).
    { apply andb_true_iff. split; [apply Z.leb_le|apply Z.ltb_lt]; lia. }
    rewrite Hin_range. eexists. split; [reflexivity|].
    split; [rewrite length_insert; exact Hlen|].
    intros s i Hin. apply elem_of_app in Hin. destruct Hin as [Hin|Hin].
    + destruct (decide (i = i0)) as [->|Hne].
      * assert (s = s0).
        { apply (Hinj s s0 i0); apply elem_of_app; [left; exact Hin|].
          right. apply list_elem_of_singleton. reflexivity. }
        subst s. apply list_lookup_insert_eq. lia.
      * rewrite list_lookup_insert_ne; [exact (Hall s i Hin)|].
        pose proof (Hrange s i ltac:(apply elem_of_app; left; exact Hin)). lia.
    + apply list_elem_of_singleton in Hin. injection Hin as -> ->.
      apply list_lookup_insert_eq. lia.
Qed.

Lemma installers_of_numbered (indices : gmap string Z) :
  numbered indices (Z.of_nat (size indices)) ->
  exists installers,
    installers_of indices = Some installers /\
    length installers = size indices /\
    NoDup installers /\
    (forall s i, indices !! s = Some i -> installers !! Z.to_nat i = Some s) /\
    (forall s, s ∈ installers -> is_Some (indices !! s)).
Proof.
  intros (_ & Hrange & Hinj & Hsurj). unfold installers_of.
  destruct (store_all (map_to_list indices) (replicate (size indices) EmptyString))
    as (v & Hv & Hlen & Hall).
  { intros s i Hin. apply elem_of_map_to_list in Hin. rewrite length_replicate.
    exact (Hrange s i Hin). }
  { intros s s' i H1 H2. apply elem_of_map_to_list in H1, H2. exact (Hinj s s' i H1 H2). }
  rewrite length_replicate in Hlen.
  assert (Hat : forall k x, v !! k = Some x -> indices !! x = Some (Z.of_nat k)).
  { intros k x Hk. pose proof (lookup_lt_Some _ _ _ Hk) as Hlt.
    destruct (Hsurj (Z.of_nat k) ltac:(lia)) as [s Hs].
    pose proof (Hall s (Z.of_nat k) ltac:(apply elem_of_map_to_list; exact Hs)) as Hvk.
    rewrite Nat2Z.id in Hvk. congruence. }
  exists v. split; [exact Hv|]. split; [exact Hlen|]. split; [|split].
  - apply NoDup_alt. intros j k x Hj Hk.
    apply Hat in Hj, Hk. rewrite Hj in Hk. injection Hk as Hk. lia.
  - intros s i Hs. apply Hall. apply elem_of_map_to_list. exact Hs.
  - intros s Hs. apply list_elem_of_lookup in Hs. destruct Hs as [k Hk].
    exists (Z.of_nat k). exact (Hat k s Hk).
Qed.

(** X8.  The snapshot of [appendUidMap] with installers included: the
    installer list is built without a store outside the vector; it names
    each installer once, and only installers of apps of the map; one package
    info is written per entry of the map, tombstones too, and its installer
    index designates, in the list, the installer of that entry. *)
Theorem installer_indices_resolve (u : UidMap.t) (strs : option (gset string))
    (Hsize : Z.of_nat (size (mMap u)) < 2 ^ 31) :
  exists (st : State) (names : list Text) (installers : list string),
    appendUidMap_snapshot Hash64 u includeVersionStrings true truncatedCertificateHashSize
      strs = Some (st, names) /\
    names = map (text Hash64 (hashing st)) installers /\
    NoDup installers /\
    (forall s, s ∈ installers ->
       exists kv, kv ∈ map_to_list (mMap u) /\ installer (snd kv) = s) /\
    length (written st) = size (mMap u) /\
    (forall j kv, map_to_list (mMap u) !! j = Some kv ->
       exists p i, written st !! j = Some p /\
                   pkg_uid p = fst (fst kv) /\
                   pkg_deleted p = deleted (snd kv) /\
                   pkg_installer p = Some (InstallerIndex i) /\
                   0 <= i /\
                   installers !! Z.to_nat i = Some (installer (snd kv))).
Proof.
  unfold appendUidMap_snapshot, writeUidMapSnapshotLocked.
  assert (Hnum0 : numbered (∅ : gmap string Z) 0).
  { split; [rewrite map_size_empty; reflexivity|]. split; [|split].
    - intros s i. rewrite lookup_empty. discriminate.
    - intros s s' i. rewrite lookup_empty. discriminate.
    - intros i Hi. lia. }
  destruct (snapshot_loop_numbered (map_to_list (mMap u)) (mkState 0 (Some ∅) strs []) ∅
              eq_refl Hnum0)
    as (indices & ws & Hidx & Hnum & _ & Hdom & _ & Hw & Hlen & Hall).
  { cbn. rewrite length_map_to_list. lia. }
  cbv zeta in *. cbn [written] in Hw. rewrite app_nil_l in Hw.
  rewrite Hidx.
  pose proof Hnum as (Hcur & Hrange & _ & _).
  rewrite Hcur in Hnum.
  destruct (installers_of_numbered indices Hnum)
    as (installers & Hfill & _ & Hnodup & Hresolve & Hfrom).
  rewrite Hfill. eexists _, _, installers. split; [reflexivity|].
  split; [reflexivity|]. split; [exact Hnodup|]. split.
  { intros s Hs. destruct (Hdom s (Hfrom s Hs)) as [[x Hx]|Hkv]; [|exact Hkv].
    rewrite lookup_empty in Hx. discriminate. }
  split; [rewrite Hw, Hlen; apply length_map_to_list|].
  intros j kv Hj. destruct (Hall j kv Hj) as (p & i & Hp & Huid & Hdel & Hinst & Hi).
  exists p, i. rewrite Hw. split; [exact Hp|]. split; [exact Huid|]. split; [exact Hdel|].
  split; [exact Hinst|]. split; [specialize (Hrange _ _ Hi); lia|].
  exact (Hresolve _ _ Hi).
Qed.

Section AnyCaller.

Variable includeInstaller : bool.
Variable interestingUids : gset Z.

(** The test of the loop on a uid: an empty set means every uid. *)
Definition interesting (uid : Z) : bool :=
  bool_decide (interestingUids = ∅) || bool_decide (uid ∈ interestingUids).

Abbreviation step_ :=
  (snapshot_step Hash64 includeVersionStrings includeInstaller truncatedCertificateHashSize
     interestingUids).
Abbreviation loop_ :=
  (snapshot_loop Hash64 includeVersionStrings includeInstaller truncatedCertificateHashSize
     interestingUids).

(** What one package info tells about the entry it was written for, and
    where its strings can be found when they are hashed. *)
Definition describes (hashed : bool) (strs : option (gset string)) (p : PackageInfo)
    (kv : (Z * string) * AppData) : Prop :=
  pkg_uid p = fst (fst kv) /\
  pkg_version p = versionCode (snd kv) /\
  pkg_deleted p = deleted (snd kv) /\
  pkg_name p = text Hash64 hashed (snd (fst kv)) /\
  pkg_version_string p =
    (if includeVersionStrings then Some (text Hash64 hashed (versionString (snd kv)))
     else None) /\
  (forall t, pkg_installer p = Some (InstallerText t) ->
             t = text Hash64 hashed (installer (snd kv))) /\
  (forall strs1, strs = Some strs1 ->
     (snd (fst kv) ∈ strs1) /\
     (includeVersionStrings = true -> versionString (snd kv) ∈ strs1) /\
     (includeInstaller = true -> installer (snd kv) ∈ strs1)).

(** The string set only grows. *)
Definition grows (strs strs' : option (gset string)) : Prop :=
  match strs, strs' with
  | Some s, Some s' => s ⊆ s'
  | None, None => True
  | _, _ => False
  end.

Lemma grows_refl strs : grows strs strs.
Proof. destruct strs; cbn; auto. Qed.

Lemma grows_trans a b c : grows a b -> grows b c -> grows a c.
Proof. destruct a, b, c; cbn; try tauto. intros H1 H2. etransitivity; eassumption. Qed.

Lemma describes_grows hashed strs strs' p kv :
  grows strs strs' -> describes hashed strs p kv -> describes hashed strs' p kv.
Proof.
  intros Hg (H1 & H2 & H3 & H4 & H5 & H6 & H7).
  repeat (split; [assumption|]).
  intros s' ->. destruct strs as [s|]; [|contradiction]. cbn in Hg.
  destruct (H7 s eq_refl) as (Ha & Hb & Hc).
  split; [apply Hg, Ha|]. split; intros Hyes; apply Hg; auto.
Qed.

Lemma snapshot_step_spec (st : State) (kv : (Z * string) * AppData) :
  hashing (step_ st kv) = hashing st /\
  grows (str_set st) (str_set (step_ st kv)) /\
  (interesting (fst (fst kv)) = false -> written (step_ st kv) = written st) /\
  (interesting (fst (fst kv)) = true ->
     exists p, written (step_ st kv) = written st ++ [p] /\
               describes (hashing st) (str_set (step_ st kv)) p kv).
Proof.
  unfold snapshot_step, interesting.
  destruct (bool_decide (interestingUids = ∅)); cbn [negb andb orb];
    [|destruct (bool_decide (fst (fst kv) ∈ interestingUids)); cbn [negb]].
  3: { split; [reflexivity|]. split; [apply grows_refl|]. split; [reflexivity|discriminate]. }
  all: destruct includeInstaller eqn:Hii.
  all: destruct (installerIndices st) as [indices|];
    [try destruct (indices !! installer (snd kv)) as [index|]|].
  all: (split; [unfold hashing; cbn; destruct (str_set st); reflexivity|]).
  all: (split; [cbn; destruct (str_set st) as [s0|]; cbn; [|exact I];
                destruct includeVersionStrings; set_solver|]).
  all: (split; [discriminate|]); intros _; eexists; (split; [reflexivity|]).
  all: unfold describes; cbn.
  all: (split; [reflexivity|]); (split; [reflexivity|]); (split; [reflexivity|]);
    (split; [reflexivity|]); (split; [reflexivity|]).
  all: split; [intros t;
               repeat match goal with
                      | |- context [if ?c then _ else _] => destruct c
                      end; first [intros [= <-]; reflexivity | discriminate]|].
  all: intros strs1; destruct (str_set st) as [s0|]; [|discriminate];
    intros [= <-]; destruct includeVersionStrings; (split; [set_solver|]);
    (split; intros; try discriminate; set_solver).
Qed.

Lemma snapshot_loop_spec (entries : list ((Z * string) * AppData)) :
  forall st : State,
    hashing (loop_ entries st) = hashing st /\
    grows (str_set st) (str_set (loop_ entries st)) /\
    exists ws,
      written (loop_ entries st) = written st ++ ws /\
      Forall2 (describes (hashing st) (str_set (loop_ entries st))) ws
        (List.filter (fun kv => interesting (fst (fst kv))) entries).
Proof.
  induction entries as [|kv rest IH]; intros st.
  - cbn. split; [reflexivity|]. split; [apply grows_refl|].
    exists []. rewrite app_nil_r. split; [reflexivity|constructor].
  - unfold snapshot_loop. cbn [foldl List.filter].
    destruct (snapshot_step_spec st kv) as (Hh1 & Hg1 & Hskip & Htake).
    destruct (IH (step_ st kv)) as (Hh & Hg & ws & Hw & Hall).
    unfold snapshot_loop in *.
    split; [congruence|]. split; [exact (grows_trans _ _ _ Hg1 Hg)|].
    destruct (interesting (fst (fst kv))).
    + destruct (Htake eq_refl) as (p & Hp & Hdesc).
      exists (p :: ws). split; [rewrite Hw, Hp, <- app_assoc; reflexivity|].
      constructor.
      * exact (describes_grows _ _ _ _ _ Hg Hdesc).
      * rewrite <- Hh1. exact Hall.
    + exists ws. split; [rewrite Hw, (Hskip eq_refl); reflexivity|].
      rewrite <- Hh1. exact Hall.
Qed.

(** X9.  [writeUidMapSnapshotLocked] writes one package info for each entry
    of the map whose uid is interesting (every entry when the set of
    interesting uids is empty), in the order of the map, with the uid, the
    version and the deleted flag of the entry: tombstones are part of the
    snapshot.  When the strings are hashed, every string behind a written
    hash -- package name, version string, installer -- is in the string set
    afterwards, and the set has lost nothing. *)
Theorem snapshot_describes_map (u : UidMap.t) (installerIndices : option (gmap string Z))
    (strs : option (gset string)) :
  let st := writeUidMapSnapshotLocked Hash64 u includeVersionStrings includeInstaller
              truncatedCertificateHashSize interestingUids installerIndices strs in
  let hashed := match strs with Some _ => true | None => false end in
  grows strs (str_set st) /\
  Forall2 (describes hashed (str_set st)) (written st)
    (List.filter (fun kv => interesting (fst (fst kv))) (map_to_list (mMap u))).
Proof.
  cbv zeta. unfold writeUidMapSnapshotLocked.
  destruct (snapshot_loop_spec (map_to_list (mMap u)) (mkState 0 installerIndices strs []))
    as (_ & Hg & ws & Hw & Hall).
  cbn [written str_set] in *. rewrite app_nil_l in Hw. rewrite Hw.
  split; [exact Hg|exact Hall].
Qed.

End AnyCaller.

End Writer.

(** The snapshot of the map of [UidMapMoreFacts.reinstalled]: two apps of
    one installer. *)
Lemma installer_indices_resolve_witness :
  Z.of_nat (size (mMap UidMapMoreFacts.reinstalled)) < 2 ^ 31 /\
  exists (st : State) (names : list Text) (installers : list string),
    appendUidMap_snapshot (fun s => Z.of_nat (String.length s))
      UidMapMoreFacts.reinstalled true true 0 None = Some (st, names) /\
    names = map (text (fun s => Z.of_nat (String.length s)) (hashing st)) installers /\
    NoDup installers /\
    length (written st) = size (mMap UidMapMoreFacts.reinstalled).
Proof.
  assert (Hsize : Z.of_nat (size (mMap UidMapMoreFacts.reinstalled)) < 2 ^ 31)
    by (vm_compute; reflexivity).
  split; [exact Hsize|].
  destruct (installer_indices_resolve (fun s => Z.of_nat (String.length s)) true 0
              UidMapMoreFacts.reinstalled None Hsize)
    as (st & names & installers & Hrun & Hnames & Hnodup & _ & Hlen & _).
  exists st, names, installers.
  split; [exact Hrun|]. split; [exact Hnames|]. split; [exact Hnodup|exact Hlen].
Defined.

Example reinstalled_snapshot :
  (fun r => (map pkg_installer (written (fst r)), snd r))
    <$> appendUidMap_snapshot (fun s => Z.of_nat (String.length s))
          UidMapMoreFacts.reinstalled true true 0 None
  = Some ([Some (InstallerIndex 0); Some (InstallerIndex 0)], [Plain "store"]).
Proof. vm_compute. reflexivity. Qed.

End SnapshotFacts.

(** ** The isolated uids *)

Module IsolatedUidFacts.
Import IsolatedUid.

(** The host of [uid] as the calls tell it, from the host before them: the
    parent of the last [assignIsolatedUid] for [uid] that no
    [removeIsolatedUid] of [uid] follows, and [uid] itself after such a
    removal. *)
Fixpoint hostAfter (ops : list Op) (uid : Z) (host : Z) : Z :=
  match ops with
  | [] => host
  | OpAssign isolatedUid parentUid :: rest =>
      hostAfter rest uid (if isolatedUid =? uid then parentUid else host)
  | OpRemove isolatedUid :: rest =>
      hostAfter rest uid (if isolatedUid =? uid then uid else host)
  end.

Lemma getHostUidOrSelf_foldl (ops : list Op) (uid : Z) :
  forall m : t,
    getHostUidOrSelf (foldl step m ops) uid = hostAfter ops uid (getHostUidOrSelf m uid).
Proof.
  induction ops as [|op rest IH]; intros m; [reflexivity|].
  cbn [foldl hostAfter]. rewrite IH. destruct op as [i p|i]; cbn [step].
  - f_equal. unfold getHostUidOrSelf, assignIsolatedUid, t in *.
    destruct (i =? uid) eqn:E.
    + apply Z.eqb_eq in E. subst i. rewrite lookup_insert_eq. reflexivity.
    + apply Z.eqb_neq in E. rewrite lookup_insert_ne by exact E. reflexivity.
  - f_equal. unfold getHostUidOrSelf, removeIsolatedUid, t in *.
    destruct (i =? uid) eqn:E.
    + apply Z.eqb_eq in E. subst i.
      destruct (m !! uid) as [parent|] eqn:Hm.
      * rewrite lookup_delete_eq. reflexivity.
      * rewrite Hm. reflexivity.
    + apply Z.eqb_neq in E.
      destruct (m !! i); [rewrite lookup_delete_ne by exact E|]; reflexivity.
Qed.

(** X10.  After any sequence of [assignIsolatedUid] and [removeIsolatedUid]
    calls, [getHostUidOrSelf uid] is the parent given by the last assignment
    for [uid], unless that uid was removed since or never assigned: then it
    is [uid] itself.  The parent is returned as it was given: it is not
    looked up in turn, and assignments and removals of other uids do not
    matter. *)
Theorem getHostUidOrSelf_last_assignment (ops : list Op) (uid : Z) :
  getHostUidOrSelf (run ops) uid = hostAfter ops uid uid /\
  (forall parentUid, getHostUidOrSelf (run (ops ++ [OpAssign uid parentUid])) uid
                     = parentUid) /\
  getHostUidOrSelf (run (ops ++ [OpRemove uid])) uid = uid /\
  (forall other parentUid, other <> uid ->
     getHostUidOrSelf (run (ops ++ [OpAssign other parentUid])) uid
       = getHostUidOrSelf (run ops) uid /\
     getHostUidOrSelf (run (ops ++ [OpRemove other])) uid = getHostUidOrSelf (run ops) uid).
Proof.
  assert (Hrun : forall l, getHostUidOrSelf (run l) uid = hostAfter l uid uid).
  { intros l. unfold run. rewrite getHostUidOrSelf_foldl.
    reflexivity. }
  assert (Hsnoc : forall l op h,
            hostAfter (l ++ [op]) uid h = hostAfter [op] uid (hostAfter l uid h)).
  { induction l as [|x l IH]; intros op h; [reflexivity|].
    destruct x; cbn [app hostAfter]; apply IH. }
  split; [apply Hrun|]. split; [|split].
  - intros parentUid. rewrite Hrun, Hsnoc. cbn. rewrite Z.eqb_refl. reflexivity.
  - rewrite Hrun, Hsnoc. cbn. rewrite Z.eqb_refl. reflexivity.
  - intros other parentUid Hne. apply Z.eqb_neq in Hne.
    rewrite !Hrun, !Hsnoc. cbn. rewrite Hne. split; reflexivity.
Qed.

End IsolatedUidFacts.

(** ** Field-value matching: the ranges and the leaf matchers *)

Module MatcherMoreFacts.
Import Matcher.

Section Blocks.

Variable values : list FieldValue.
Variable depth : nat.

Definition posOf (d : nat) (v : FieldValue) : Z := getPosAtDepth (mField v) d.

(** The positions at [depth] do not decrease over the values of
    [[start, end_)]: the order in which a log event stores its values. *)
Definition sortedAt (start end_ : nat) : Prop :=
  forall i j v w, (start <= i)%nat -> (i <= j)%nat -> (j < end_)%nat ->
    values !! i = Some v -> values !! j = Some w -> posOf depth v <= posOf depth w.

(** What is known of a result of the loop of [getStartEndAtDepth] about the
    values of [[start, bound)]. *)
Definition blockUpTo (targetField : Z) (start end_ bound : nat) (r : option nat * nat)
    : Prop :=
  match r with
  | (None, newEnd) =>
      newEnd = end_ /\
      forall k v, (start <= k < bound)%nat -> values !! k = Some v ->
                  posOf depth v <> targetField
  | (Some newStart, newEnd) =>
      (start <= newStart < newEnd)%nat /\ (newEnd <= bound)%nat /\
      forall k v, (start <= k < bound)%nat -> values !! k = Some v ->
                  (posOf depth v = targetField <-> (newStart <= k < newEnd)%nat)
  end.

Lemma posAt_Some (i : nat) (v : FieldValue) (d : nat) :
  values !! i = Some v -> posAt values i d = Some (posOf d v).
Proof. unfold posAt. intros ->. reflexivity. Qed.

Lemma getStartEndAtDepth_loop_block (targetField : Z) (start end_ : nat)
    (Hend : (end_ <= length values)%nat) (Hsorted : sortedAt start end_) (n : nat) :
  forall (i : nat) (newStart : option nat) (newEnd : nat),
    (i + n = end_)%nat -> (start <= i)%nat ->
    blockUpTo targetField start end_ i (newStart, newEnd) ->
    blockUpTo targetField start end_ end_
      (getStartEndAtDepth_loop targetField depth values i n newStart newEnd).
Proof.
  induction n as [|n IH]; intros i newStart newEnd Hin Hlo Hinv.
  - assert (Hi : i = end_) by lia. subst i. exact Hinv.
  - cbn [getStartEndAtDepth_loop].
    destruct (lookup_lt_is_Some_2 values i ltac:(lia)) as [vi Hvi].
    rewrite (posAt_Some i vi depth Hvi).
    destruct (posOf depth vi =? targetField) eqn:Eeq.
    + (* the field is found at i *)
      apply Z.eqb_eq in Eeq. apply IH; [lia|lia|].
      destruct newStart as [a|]; cbn [from_option blockUpTo] in Hinv |- *; unfold id.
      * destruct Hinv as (Ha & Hne & Hall). split; [lia|]. split; [lia|].
        intros k v Hk Hv.
        destruct (le_lt_dec a k) as [Hak|Hka].
        -- split; [intros _; lia|intros _].
           destruct (lookup_lt_is_Some_2 values a ltac:(lia)) as [va Hva].
           assert (Hpa : posOf depth va = targetField).
           { apply (Hall a va); [lia|exact Hva|lia]. }
           pose proof (Hsorted a k va v ltac:(lia) Hak ltac:(lia) Hva Hv).
           pose proof (Hsorted k i v vi ltac:(lia) ltac:(lia) ltac:(lia) Hv Hvi).
           lia.
        -- split; [|lia]. intros Hp. apply (Hall k v) in Hp; [lia|lia|exact Hv].
      * destruct Hinv as (-> & Hall). split; [lia|]. split; [lia|].
        intros k v Hk Hv. destruct (decide (k = i)) as [->|Hki].
        -- rewrite Hvi in Hv. injection Hv as <-. split; [intros _; lia|intros _; exact Eeq].
        -- split; [|lia]. intros Hp. exfalso. apply (Hall k v); [lia|exact Hv|exact Hp].
    + apply Z.eqb_neq in Eeq. destruct (posOf depth vi >? targetField) eqn:Egt.
      * (* past the field: break *)
        apply Z.gtb_lt in Egt.
        assert (Hafter : forall k v, (i <= k < end_)%nat -> values !! k = Some v ->
                                     posOf depth v <> targetField).
        { intros k v Hk Hv.
          pose proof (Hsorted i k vi v Hlo ltac:(lia) ltac:(lia) Hvi Hv). lia. }
        destruct newStart as [a|]; cbn [blockUpTo] in Hinv |- *.
        -- destruct Hinv as (Ha & Hne & Hall). split; [lia|]. split; [lia|].
           intros k v Hk Hv. destruct (le_lt_dec i k) as [Hik|Hki].
           ++ split; [|lia]. intros Hp. exfalso. exact (Hafter k v ltac:(lia) Hv Hp).
           ++ apply Hall; [lia|exact Hv].
        -- destruct Hinv as (-> & Hall). split; [reflexivity|].
           intros k v Hk Hv. destruct (le_lt_dec i k) as [Hik|Hki].
           ++ exact (Hafter k v ltac:(lia) Hv).
           ++ apply (Hall k v); [lia|exact Hv].
      * (* before the field *)
        apply IH; [lia|lia|].
        destruct newStart as [a|]; cbn [blockUpTo] in Hinv |- *.
        -- destruct Hinv as (Ha & Hne & Hall). split; [lia|]. split; [lia|].
           intros k v Hk Hv. destruct (decide (k = i)) as [->|Hki].
           ++ rewrite Hvi in Hv. injection Hv as <-. split; [congruence|lia].
           ++ apply Hall; [lia|exact Hv].
        -- destruct Hinv as (-> & Hall). split; [reflexivity|].
           intros k v Hk Hv. destruct (decide (k = i)) as [->|Hki].
           ++ rewrite Hvi in Hv. injection Hv as <-. exact Eeq.
           ++ apply (Hall k v); [lia|exact Hv].
Qed.

Lemma getStartEndAtDepth_block (targetField : Z) (start end_ : nat)
    (Hend : (end_ <= length values)%nat)
    (Hsorted : sortedAt start end_) :
  match getStartEndAtDepth targetField start end_ depth values with
  | (Some newStart, newEnd) =>
      (start <= newStart < newEnd)%nat /\ (newEnd <= end_)%nat /\
      forall k v, (start <= k < end_)%nat -> values !! k = Some v ->
                  (posOf depth v = targetField <-> (newStart <= k < newEnd)%nat)
  | (None, newEnd) =>
      newEnd = end_ /\
      forall k v, (start <= k < end_)%nat -> values !! k = Some v ->
                  posOf depth v <> targetField
  end.
Proof.
  unfold getStartEndAtDepth.
  destruct (le_lt_dec end_ start) as [Hle|Hlt].
  - replace (end_ - start)%nat with 0%nat by lia. cbn.
    split; [reflexivity|]. intros k v Hk. lia.
  - pose proof (getStartEndAtDepth_loop_block targetField start end_ Hend Hsorted
                  (end_ - start) start None end_ ltac:(lia) ltac:(lia)) as Hloop.
    assert (Hinit : blockUpTo targetField start end_ start (None, end_)).
    { split; [reflexivity|]. intros k v Hk. lia. }
    specialize (Hloop Hinit). unfold blockUpTo in Hloop.
    destruct (getStartEndAtDepth_loop targetField depth values start (end_ - start) None end_)
      as [[a|] e]; exact Hloop.
Qed.

(** X11.  On values whose positions at [depth] do not decrease over
    [[start, end_)], [getStartEndAtDepth] finds the block of the field: the
    range it returns is inside [[start, end_)], is not empty, and holds
    exactly the values of that range whose position is the field; and it
    returns no start exactly when no value of the range has that position. *)
Theorem getStartEndAtDepth_finds_block (targetField : Z) (start end_ : nat)
    (Hend : (end_ <= length values)%nat)
    (Hsorted : sortedAt start end_) :
  match getStartEndAtDepth targetField start end_ depth values with
  | (Some newStart, newEnd) =>
      (start <= newStart < newEnd)%nat /\ (newEnd <= end_)%nat /\
      forall k v, (start <= k < end_)%nat -> values !! k = Some v ->
                  (posOf depth v = targetField <-> (newStart <= k < newEnd)%nat)
  | (None, newEnd) =>
      newEnd = end_ /\
      forall k v, (start <= k < end_)%nat -> values !! k = Some v ->
                  posOf depth v <> targetField
  end.
Proof.
  unfold getStartEndAtDepth.
  destruct (le_lt_dec end_ start) as [Hle|Hlt].
  - replace (end_ - start)%nat with 0%nat by lia. cbn.
    split; [reflexivity|]. intros k v Hk. lia.
  - assert (Hinit : blockUpTo targetField start end_ start (None, end_)).
    { split; [reflexivity|]. intros k v Hk. lia. }
    pose proof (getStartEndAtDepth_loop_block targetField start end_ Hend Hsorted
                  (end_ - start) start None end_ ltac:(lia) ltac:(lia) Hinit) as Hloop.
    unfold blockUpTo in Hloop.
    destruct (getStartEndAtDepth_loop targetField depth values start (end_ - start) None end_)
      as [[a|] e]; exact Hloop.
Qed.

End Blocks.

Section Elements.

Variable fnmatch : string -> string -> bool.
Variable isAttributionUidField : FieldValue -> bool.
Variable isUidField : FieldValue -> bool.
Variable uidMap : UidMap.t.

Abbreviation matches :=
  (matchesSimple fnmatch isAttributionUidField isUidField uidMap).

Variable values : list FieldValue.
Variable depth : nat.
Variables start end_ : nat.

(** The values of [[start, end_)] are in depth-first order at [depth] and
    the depth below it: the positions at [depth] do not decrease, and among
    values of one position at [depth] the positions at the next depth do not
    decrease. *)
Definition dfsSortedAt : Prop :=
  forall i j v w, (start <= i)%nat -> (i <= j)%nat -> (j < end_)%nat ->
    values !! i = Some v -> values !! j = Some w ->
    posOf depth v < posOf depth w \/
    (posOf depth v = posOf depth w /\ posOf (S depth) v <= posOf (S depth) w).

(** [[s, e)] holds the element at position [p] of the repeated field [f]:
    it is not empty, lies in [[start, end_)], and holds exactly the values
    of [[start, end_)] whose position at [depth] is [f] and whose position at
    the next depth is [p]. *)
Definition repeatedElement (f p : Z) (s e : nat) : Prop :=
  (start <= s)%nat /\ (s < e)%nat /\ (e <= end_)%nat /\
  forall k v, (start <= k < end_)%nat -> values !! k = Some v ->
              (posOf depth v = f /\ posOf (S depth) v = p <-> (s <= k < e)%nat).

Lemma dfsSortedAt_sortedAt : dfsSortedAt -> sortedAt values depth start end_.
Proof.
  intros Hdfs i j v w Hi Hij Hj Hv Hw.
  destruct (Hdfs i j v w Hi Hij Hj Hv Hw) as [Hlt|[Heq _]]; lia.
Qed.

(** Inside the block of the field, the stretches of one position that the
    ANY case cuts are the elements of the repeated field. *)
Lemma subRange_repeatedElement (f : Z) (ns ne : nat)
    (Hend : (end_ <= length values)%nat)
    (Hdfs : dfsSortedAt)
    (Hns : (start <= ns < ne)%nat) (Hne : (ne <= end_)%nat)
    (Hblock : forall k v, (start <= k < end_)%nat -> values !! k = Some v ->
                          (posOf depth v = f <-> (ns <= k < ne)%nat)) :
  forall s e,
    MatcherFacts.subRange values (S depth) ns ne s e <->
    exists p, repeatedElement f p s e.
Proof.
  assert (Hin : forall k, (k < end_)%nat -> exists v, values !! k = Some v).
  { intros k Hk. apply lookup_lt_is_Some_2. lia. }
  assert (Hpos : forall k v, values !! k = Some v ->
                             posAt values k (S depth) = Some (posOf (S depth) v)).
  { intros k v Hv. exact (posAt_Some values k v (S depth) Hv). }
  assert (Hmono : forall i j v w, (ns <= i)%nat -> (i <= j)%nat -> (j < ne)%nat ->
                    values !! i = Some v -> values !! j = Some w ->
                    posOf (S depth) v <= posOf (S depth) w).
  { intros i j v w Hi Hij Hj Hv Hw.
    assert (Hfv : posOf depth v = f) by (apply (Hblock i v); [lia|exact Hv|lia]).
    assert (Hfw : posOf depth w = f) by (apply (Hblock j w); [lia|exact Hw|lia]).
    destruct (Hdfs i j v w ltac:(lia) Hij ltac:(lia) Hv Hw) as [Hlt|[_ Hle]]; lia. }
  intros s e. unfold MatcherFacts.subRange, repeatedElement. split.
  - intros (Hlo & Hse & Hehi & Hrun & Hleft & Hright).
    destruct (Hin s ltac:(lia)) as [vs Hvs].
    exists (posOf (S depth) vs).
    split; [lia|]. split; [exact Hse|]. split; [lia|].
    intros k v Hk Hv. split.
    + intros [Hf Hp]. apply (Hblock k v Hk Hv) in Hf.
      destruct (le_lt_dec s k) as [Hsk|Hks].
      * destruct (le_lt_dec e k) as [Hek|Hke]; [|lia]. exfalso.
        destruct Hright as [->|Hne']; [lia|]. apply Hne'.
        destruct (Hin e ltac:(lia)) as [ve Hve].
        rewrite (Hpos e ve Hve), (Hpos s vs Hvs). f_equal.
        pose proof (Hmono s e vs ve ltac:(lia) ltac:(lia) ltac:(lia) Hvs Hve).
        pose proof (Hmono e k ve v ltac:(lia) ltac:(lia) ltac:(lia) Hve Hv).
        lia.
      * exfalso. destruct Hleft as [->|Hne']; [lia|]. apply Hne'.
        destruct (Hin (Nat.pred s) ltac:(lia)) as [vp Hvp].
        rewrite (Hpos (Nat.pred s) vp Hvp), (Hpos s vs Hvs). f_equal.
        pose proof (Hmono k (Nat.pred s) v vp ltac:(lia) ltac:(lia) ltac:(lia) Hv Hvp).
        pose proof (Hmono (Nat.pred s) s vp vs ltac:(lia) ltac:(lia) ltac:(lia) Hvp Hvs).
        lia.
    + intros Hk'. split.
      * apply (Hblock k v Hk Hv). lia.
      * specialize (Hrun k Hk'). rewrite (Hpos k v Hv), (Hpos s vs Hvs) in Hrun.
        congruence.
  - intros (p & Hlo & Hse & Hehi & Hall).
    destruct (Hin s ltac:(lia)) as [vs Hvs].
    destruct (proj2 (Hall s vs ltac:(lia) Hvs) ltac:(lia)) as [Hfs Hps].
    assert (Hsin : (ns <= s < ne)%nat) by (apply (Hblock s vs); [lia|exact Hvs|exact Hfs]).
    destruct (Hin (Nat.pred e) ltac:(lia)) as [vl Hvl].
    destruct (proj2 (Hall (Nat.pred e) vl ltac:(lia) Hvl) ltac:(lia)) as [Hfl _].
    assert (Hlin : (ns <= Nat.pred e < ne)%nat)
      by (apply (Hblock (Nat.pred e) vl); [lia|exact Hvl|exact Hfl]).
    split; [lia|]. split; [exact Hse|]. split; [lia|]. split; [|split].
    + intros j Hj. destruct (Hin j ltac:(lia)) as [vj Hvj].
      destruct (proj2 (Hall j vj ltac:(lia) Hvj) Hj) as [_ Hpj].
      rewrite (Hpos j vj Hvj), (Hpos s vs Hvs). congruence.
    + destruct (decide (s = ns)) as [->|Hsn]; [left; reflexivity|right].
      destruct (Hin (Nat.pred s) ltac:(lia)) as [vp Hvp].
      rewrite (Hpos (Nat.pred s) vp Hvp), (Hpos s vs Hvs). intros [= Heq].
      assert (Hfp : posOf depth vp = f)
        by (apply (Hblock (Nat.pred s) vp); [lia|exact Hvp|lia]).
      pose proof (proj1 (Hall (Nat.pred s) vp ltac:(lia) Hvp)
                    (conj Hfp (eq_trans Heq Hps))).
      lia.
    + destruct (decide (e = ne)) as [->|Hen]; [left; reflexivity|right].
      destruct (Hin e ltac:(lia)) as [ve Hve].
      rewrite (Hpos e ve Hve), (Hpos s vs Hvs). intros [= Heq].
      assert (Hfe : posOf depth ve = f) by (apply (Hblock e ve); [lia|exact Hve|lia]).
      pose proof (proj1 (Hall e ve ltac:(lia) Hve) (conj Hfe (eq_trans Heq Hps))).
      lia.
Qed.

(** C3.  On values in depth-first order, a matcher with [Position::ANY] and
    [matches_tuple] matches iff one element of its repeated field -- the
    values of the range whose position at [depth] is the field and that
    share one position at the next depth -- satisfies every matcher of the
    tuple.  Matchers of the tuple that are only satisfied in different
    elements give no match. *)
Theorem any_tuple_matches_in_one_subrange (f : Z)
    (subMatchers : list FieldValueMatcher)
    (Hdepth : (depth <= 1)%nat)
    (Hend : (end_ <= length values)%nat)
    (Hsorted : dfsSortedAt) :
  matches (mkFieldValueMatcher f (Some ANY) (kMatchesTuple subMatchers))
          values start end_ depth = true
  <->
  exists p s e,
    repeatedElement f p s e /\
    forall subMatcher, In subMatcher subMatchers ->
                       matches subMatcher values s e (S (S depth)) = true.
Proof.
  rewrite (MatcherFacts.any_tuple_over_narrowed_range fnmatch isAttributionUidField
             isUidField uidMap f subMatchers values start end_ depth Hdepth Hend).
  pose proof (getStartEndAtDepth_block values depth f start end_ Hend
                (dfsSortedAt_sortedAt Hsorted)) as Hblock.
  destruct (getStartEndAtDepth f start end_ depth values) as [[ns|] ne] eqn:Hnarrow.
  - destruct Hblock as (Hns & Hne & Hblock).
    pose proof (subRange_repeatedElement f ns ne Hend Hsorted Hns Hne Hblock) as Hiff.
    split.
    + intros (ns' & ne' & s & e & [= <- <-] & Hsub & Hall).
      apply Hiff in Hsub. destruct Hsub as [p Hel].
      exists p, s, e. split; [exact Hel|exact Hall].
    + intros (p & s & e & Hel & Hall).
      exists ns, ne, s, e. split; [reflexivity|].
      split; [apply Hiff; exists p; exact Hel|exact Hall].
  - destruct Hblock as (_ & Hnone). split.
    + intros (ns' & ne' & s & e & Hfalse & _). discriminate.
    + intros (p & s & e & (Hlo & Hse & Hehi & Hall) & _). exfalso.
      destruct (lookup_lt_is_Some_2 values s ltac:(lia)) as [vs Hvs].
      destruct (proj2 (Hall s vs ltac:(lia) Hvs) ltac:(lia)) as [Hf _].
      exact (Hnone s vs ltac:(lia) Hvs Hf).
Qed.

End Elements.

Section Leaves.

Variable fnmatch : string -> string -> bool.
Variable isAttributionUidField : FieldValue -> bool.
Variable isUidField : FieldValue -> bool.
Variable uidMap : UidMap.t.

Abbreviation matches := (matchesSimple fnmatch isAttributionUidField isUidField uidMap).

(** The test a value matcher makes on one value: what [matchesSimple] says
    of the list of that one value, for the matcher without position on the
    field of the value.  [Satisfies], below, says what the test means. *)
Definition holds (vm : ValueMatcher FieldValueMatcher) (v : FieldValue) : bool :=
  matches (mkFieldValueMatcher (posOf 0 v) None vm) [v] 0 1 0.

Lemma anyInRange_ext (t1 t2 : FieldValue -> bool) (values : list FieldValue) (a b : nat) :
  (forall v, t1 v = t2 v) -> anyInRange t1 values a b = anyInRange t2 values a b.
Proof.
  intros Hext. unfold anyInRange.
  induction (take (b - a) (drop a values)) as [|x l IH]; [reflexivity|].
  cbn. rewrite Hext, IH. reflexivity.
Qed.

Lemma anyInRange_true (test : FieldValue -> bool) (values : list FieldValue) (a b : nat) :
  anyInRange test values a b = true <->
  exists i v, (a <= i < b)%nat /\ values !! i = Some v /\ test v = true.
Proof.
  unfold anyInRange. rewrite existsb_exists. split.
  - intros (v & Hin & Ht). apply list_elem_of_In, list_elem_of_lookup in Hin.
    destruct Hin as [j Hj]. apply lookup_take_Some in Hj. destruct Hj as [Hj Hlt].
    rewrite lookup_drop in Hj. exists (a + j)%nat, v. split; [lia|]. split; assumption.
  - intros (i & v & Hi & Hv & Ht). exists v. split; [|exact Ht].
    apply list_elem_of_In, list_elem_of_lookup. exists (i - a)%nat.
    apply lookup_take_Some. split; [|lia]. rewrite lookup_drop.
    replace (a + (i - a))%nat with i by lia. exact Hv.
Qed.

Lemma anyInRange_never (values : list FieldValue) (a b : nat) :
  anyInRange (fun _ => false) values a b = false.
Proof.
  unfold anyInRange. induction (take (b - a) (drop a values)); [reflexivity|assumption].
Qed.

Lemma computeRanges_single (vm : ValueMatcher FieldValueMatcher) (v : FieldValue) :
  computeRanges (mkFieldValueMatcher (posOf 0 v) None vm) [v] 0 1 0 = ([(0, 1)], 0)%nat.
Proof.
  unfold computeRanges, getStartEndAtDepth, posAt, posOf. cbn.
  rewrite Z.eqb_refl. reflexivity.
Qed.

(** Past the ranges, a matcher that is not [matches_tuple] asks whether
    some value of the first range satisfies it. *)
Lemma matches_leaf (vm : ValueMatcher FieldValueMatcher) (f : Z) (pos : option Position)
    (values : list FieldValue) (s e d : nat) :
  isMatchesTuple vm = false ->
  matches (mkFieldValueMatcher f pos vm) values s e d =
    if (2 <? d)%nat then false
    else if (e <=? s)%nat then false
    else match fst (computeRanges (mkFieldValueMatcher f pos vm) values s e d) with
         | [] => false
         | (a, b) :: _ => anyInRange (holds vm) values a b
         end.
Proof.
  intros Hleaf.
  destruct vm; try discriminate Hleaf; cbn [matchesSimple];
    destruct (2 <? d)%nat; try reflexivity;
    destruct (e <=? s)%nat; try reflexivity;
    match goal with
    | |- context [computeRanges ?m ?vs ?a ?b ?c] =>
        destruct (computeRanges m vs a b c) as [[|[lo hi] rs] d']
    end; cbn [fst]; try reflexivity.
  { (* no value matcher *)
    rewrite (anyInRange_ext (holds VALUE_MATCHER_NOT_SET) (fun _ => false)).
    - symmetry. apply anyInRange_never.
    - intros v. unfold holds. cbn [matchesSimple Nat.ltb Nat.leb].
      rewrite computeRanges_single. reflexivity. }
  all: apply anyInRange_ext; intros v; unfold holds; cbn [matchesSimple Nat.ltb Nat.leb];
    rewrite computeRanges_single; unfold anyInRange; cbn [take drop existsb Nat.sub];
    rewrite orb_false_r; reflexivity.
Qed.

Lemma first_loop_spec (d' : nat) (values : list FieldValue) (e : nat)
    (Hend : (e <= length values)%nat) (n : nat) :
  forall i : nat,
    (i + n = e)%nat ->
    let r := first_loop d' values i n e in
    (i <= r <= e)%nat /\
    (forall k v, (i <= k < r)%nat -> values !! k = Some v -> posOf d' v = 1) /\
    ((r < e)%nat -> exists v, values !! r = Some v /\ posOf d' v <> 1).
Proof.
  induction n as [|n IH]; intros i Hin; cbv zeta; cbn [first_loop].
  - split; [lia|]. split; [intros k v Hk; lia|lia].
  - destruct (lookup_lt_is_Some_2 values i ltac:(lia)) as [vi Hvi].
    rewrite (posAt_Some values i vi d' Hvi).
    destruct (posOf d' vi =? 1) eqn:E.
    + apply Z.eqb_eq in E. destruct (IH (S i) ltac:(lia)) as (Hr & Hones & Hstop).
      split; [lia|]. split; [|exact Hstop].
      intros k v Hk Hv. destruct (decide (k = i)) as [->|Hne].
      * rewrite Hvi in Hv. injection Hv as <-. exact E.
      * apply (Hones k v); [lia|exact Hv].
    + apply Z.eqb_neq in E. split; [lia|]. split; [intros k v Hk; lia|].
      intros _. exists vi. split; assumption.
Qed.

Lemma last_loop_spec (d' : nat) (values : list FieldValue) (e : nat)
    (Hend : (e <= length values)%nat) (start0 : nat) (n : nat) :
  forall i : nat,
    (i + n = e)%nat ->
    let r := last_loop d' values i n start0 in
    (r = start0 /\
     forall k v, (i <= k < e)%nat -> values !! k = Some v -> isLastPos (mField v) d' = false) \/
    ((i <= r < e)%nat /\
     (exists v, values !! r = Some v /\ isLastPos (mField v) d' = true) /\
     forall k v, (i <= k < r)%nat -> values !! k = Some v -> isLastPos (mField v) d' = false).
Proof.
  induction n as [|n IH]; intros i Hin; cbv zeta; cbn [last_loop].
  - left. split; [reflexivity|]. intros k v Hk. lia.
  - destruct (lookup_lt_is_Some_2 values i ltac:(lia)) as [vi Hvi]. rewrite Hvi.
    destruct (isLastPos (mField vi) d') eqn:E.
    + right. split; [lia|]. split; [exists vi; auto|]. intros k v Hk. lia.
    + destruct (IH (S i) ltac:(lia)) as [(Hr & Hnone)|(Hr & Hat & Hbefore)].
      * left. split; [exact Hr|]. intros k v Hk Hv.
        destruct (decide (k = i)) as [->|Hne].
        -- rewrite Hvi in Hv. injection Hv as <-. exact E.
        -- apply (Hnone k v); [lia|exact Hv].
      * right. split; [lia|]. split; [exact Hat|]. intros k v Hk Hv.
        destruct (decide (k = i)) as [->|Hne].
        -- rewrite Hvi in Hv. injection Hv as <-. exact E.
        -- apply (Hbefore k v); [lia|exact Hv].
Qed.

(** *** One value against a value matcher *)

Lemma find_by_uid (l : list (string * Z)) (name : string) (aid : Z) :
  NoDup (map snd l) -> In (name, aid) l ->
  List.find (fun kv => snd kv =? aid) l = Some (name, aid).
Proof.
  induction l as [|[n a] l IH]; intros Hnd Hin; [destruct Hin|].
  cbn [map snd] in Hnd. apply NoDup_cons in Hnd. destruct Hnd as [Hnotin Hnd].
  cbn [List.find snd]. destruct Hin as [[= -> ->]|Hin].
  - rewrite Z.eqb_refl. reflexivity.
  - destruct (a =? aid) eqn:E; [|exact (IH Hnd Hin)].
    apply Z.eqb_eq in E. subst a. exfalso. apply Hnotin.
    apply list_elem_of_In. apply (in_map snd l (name, aid)). exact Hin.
Qed.

Lemma find_by_name (l : list (string * Z)) (name : string) (aid : Z) :
  NoDup (map fst l) -> In (name, aid) l ->
  List.find (fun kv => String.eqb (fst kv) name) l = Some (name, aid).
Proof.
  induction l as [|[n a] l IH]; intros Hnd Hin; [destruct Hin|].
  cbn [map fst] in Hnd. apply NoDup_cons in Hnd. destruct Hnd as [Hnotin Hnd].
  cbn [List.find fst]. destruct Hin as [[= -> ->]|Hin].
  - rewrite String.eqb_refl. reflexivity.
  - destruct (String.eqb n name) eqn:E; [|exact (IH Hnd Hin)].
    apply String.eqb_eq in E. subst n. exfalso. apply Hnotin.
    apply list_elem_of_In. apply (in_map fst l (name, aid)). exact Hin.
Qed.

(** The value read as an integer: an INT or a LONG. *)
Definition intOf (v : FieldValue) : option Z :=
  match mValue v with
  | INT i => Some i
  | LONG l => Some l
  | _ => None
  end.

(** The value is in a field that holds a uid. *)
Definition onUidField (v : FieldValue) : Prop :=
  isAttributionUidField v = true \/ isUidField v = true.

(** [name] is the AID name of [uid]. *)
Definition aidName (name : string) (uid : Z) : Prop :=
  In (name, uid) UidMap.sAidToUidMapping.

(** [packageName] is installed under [uid] and has not been removed. *)
Definition livePackage (uid : Z) (packageName : string) : Prop :=
  exists a, UidMap.mMap uidMap !! (uid, packageName) = Some a /\
            UidMap.deleted a = false.

(** The value matches the string.  In a uid field the value is a uid, and
    the string names it: as its AID name or, when the string is no AID name,
    as the lower-cased name of one of its live packages.  In any other field
    the value is that string. *)
Definition StringMatches (v : FieldValue) (str : string) : Prop :=
  (onUidField v /\
   exists uid, mValue v = INT uid /\
     (aidName str uid \/
      ((forall aid, ~ aidName str aid) /\
       exists packageName,
         livePackage uid packageName /\ UidMap.normalizeAppName packageName = str))) \/
  (~ onUidField v /\ mValue v = STRING str).

(** The value matches the wildcard pattern.  In a uid field the value is a
    uid, and the pattern matches its AID name or, when the uid has no AID
    name, the lower-cased name of one of its live packages.  In any other
    field the value is a string that the pattern matches. *)
Definition WildcardMatches (v : FieldValue) (pattern : string) : Prop :=
  (onUidField v /\
   exists uid, mValue v = INT uid /\
     ((exists name, aidName name uid /\ fnmatch pattern name = true) \/
      ((forall name, ~ aidName name uid) /\
       exists packageName,
         livePackage uid packageName /\
         fnmatch pattern (UidMap.normalizeAppName packageName) = true))) \/
  (~ onUidField v /\ exists s, mValue v = STRING s /\ fnmatch pattern s = true).

(** A value satisfies a value matcher.  Integers are compared with INT and
    LONG values, floats with FLOAT values only; the integers of a list are
    cut down to 32 bits before they are compared; a value no string of a
    list matches -- whatever its type -- satisfies the matcher that excludes
    the list.  No single value satisfies a tuple or a matcher that is not
    set. *)
Definition Satisfies (vm : ValueMatcher FieldValueMatcher) (v : FieldValue) : Prop :=
  match vm with
  | VALUE_MATCHER_NOT_SET => False
  | kEqBool b => exists i, intOf v = Some i /\ (b = true <-> i <> 0)
  | kEqString str => StringMatches v str
  | kEqInt k => intOf v = Some k
  | kLtInt k => exists i, intOf v = Some i /\ i < k
  | kGtInt k => exists i, intOf v = Some i /\ i > k
  | kLtFloat x => exists y, mValue v = FLOAT y /\ PrimFloat.ltb y x = true
  | kGtFloat x => exists y, mValue v = FLOAT y /\ PrimFloat.ltb x y = true
  | kLteInt k => exists i, intOf v = Some i /\ i <= k
  | kGteInt k => exists i, intOf v = Some i /\ i >= k
  | kMatchesTuple _ => False
  | kEqAnyString strs => exists str, In str strs /\ StringMatches v str
  | kNeqAnyString strs => forall str, In str strs -> ~ StringMatches v str
  | kEqAnyInt ints => exists k, In k ints /\ intOf v = Some (to_int32 k)
  | kNeqAnyInt ints => forall k, In k ints -> intOf v <> Some (to_int32 k)
  | kEqWildcardString pattern => WildcardMatches v pattern
  | kEqAnyWildcardString patterns =>
      exists pattern, In pattern patterns /\ WildcardMatches v pattern
  | kNeqAnyWildcardString patterns =>
      forall pattern, In pattern patterns -> ~ WildcardMatches v pattern
  end.

Lemma aid_names_NoDup : NoDup (map fst UidMap.sAidToUidMapping).
Proof.
  apply (bool_decide_unpack (NoDup (map fst UidMap.sAidToUidMapping))).
  vm_compute. exact I.
Qed.

Lemma aid_uids_NoDup : NoDup (map snd UidMap.sAidToUidMapping).
Proof.
  apply (bool_decide_unpack (NoDup (map snd UidMap.sAidToUidMapping))).
  vm_compute. exact I.
Qed.

Lemma aid_uids_below : forall name uid, aidName name uid -> uid < 10000.
Proof.
  assert (Hbelow : Forall (fun kv : string * Z => snd kv < 10000) UidMap.sAidToUidMapping).
  { apply (bool_decide_unpack
             (Forall (fun kv : string * Z => snd kv < 10000) UidMap.sAidToUidMapping)).
    vm_compute. exact I. }
  intros name uid Hin. rewrite Forall_forall in Hbelow.
  apply (Hbelow (name, uid)). apply list_elem_of_In. exact Hin.
Qed.

Lemma aid_find_Some (name : string) (aid : Z) :
  UidMap.aid_find name = Some aid <-> aidName name aid.
Proof.
  unfold UidMap.aid_find, aidName. split.
  - destruct (List.find (fun kv => String.eqb (fst kv) name) UidMap.sAidToUidMapping)
      as [[n a]|] eqn:Hf; [|discriminate].
    cbn. intros [= ->]. apply List.find_some in Hf. destruct Hf as [Hin Heq].
    cbn in Heq. apply String.eqb_eq in Heq. subst n. exact Hin.
  - intros Hin. rewrite (find_by_name _ name aid aid_names_NoDup Hin). reflexivity.
Qed.

Lemma aid_find_None (name : string) :
  UidMap.aid_find name = None <-> forall aid, ~ aidName name aid.
Proof.
  split.
  - intros Hnone aid Hin. apply aid_find_Some in Hin. congruence.
  - intros Hno. destruct (UidMap.aid_find name) as [aid|] eqn:Hf; [|reflexivity].
    exfalso. apply (Hno aid). apply aid_find_Some. exact Hf.
Qed.

(** The look-up of the AID name of a uid, as the wildcard matcher does it. *)
Lemma aid_of_uid (uid : Z) :
  match (if uid <? 10000
         then List.find (fun kv : string * Z => snd kv =? uid) UidMap.sAidToUidMapping
         else None) with
  | Some (name, _) => aidName name uid /\ forall name', aidName name' uid -> name' = name
  | None => forall name, ~ aidName name uid
  end.
Proof.
  destruct (uid <? 10000) eqn:E.
  - destruct (List.find (fun kv : string * Z => snd kv =? uid) UidMap.sAidToUidMapping)
      as [[name a]|] eqn:Hf.
    + pose proof (List.find_some _ _ Hf) as [Hin Heq]. cbn in Heq.
      apply Z.eqb_eq in Heq. subst a. split; [exact Hin|].
      intros name' Hin'. pose proof (find_by_uid _ name' uid aid_uids_NoDup Hin') as Hf'.
      rewrite Hf in Hf'. congruence.
    + intros name Hin. pose proof (find_by_uid _ name uid aid_uids_NoDup Hin) as Hf'.
      rewrite Hf in Hf'. discriminate.
  - apply Z.ltb_ge in E. intros name Hin. pose proof (aid_uids_below name uid Hin). lia.
Qed.

Lemma live_names_normalized (uid : Z) (name : string) :
  name ∈ UidMap.getAppNamesFromUid uidMap uid true <->
  exists packageName, livePackage uid packageName /\
                      UidMap.normalizeAppName packageName = name.
Proof.
  rewrite UidMapFacts.elem_of_getAppNamesFromUid. unfold livePackage. split.
  - intros (pkg & a & Hl & Hd & ->). exists pkg. split; [eauto|reflexivity].
  - intros (pkg & (a & Hl & Hd) & <-). exists pkg, a. auto.
Qed.

Lemma onUidField_true (v : FieldValue) :
  isAttributionUidField v || isUidField v = true <-> onUidField v.
Proof. unfold onUidField. apply orb_true_iff. Qed.

Lemma onUidField_false (v : FieldValue) :
  isAttributionUidField v || isUidField v = false <-> ~ onUidField v.
Proof.
  rewrite <- onUidField_true. destruct (isAttributionUidField v || isUidField v).
  - split; [discriminate|]. intros Hn. exfalso. apply Hn. reflexivity.
  - split; [intros _; discriminate|reflexivity].
Qed.

Lemma tryMatchString_StringMatches (v : FieldValue) (str : string) :
  tryMatchString isAttributionUidField isUidField uidMap v str = true <->
  StringMatches v str.
Proof.
  unfold tryMatchString, StringMatches.
  destruct (isAttributionUidField v || isUidField v) eqn:Euid.
  - apply onUidField_true in Euid.
    destruct (mValue v) as [uid|l|x|x|s|b|] eqn:Hval;
      try (split; [discriminate|];
           intros [(_ & uid' & Habs & _)|(Hno & _)]; [discriminate|contradiction]).
    destruct (UidMap.aid_find str) as [aid|] eqn:Hfind.
    + apply aid_find_Some in Hfind. rewrite Z.eqb_eq. split.
      * intros ->. left. split; [exact Euid|]. exists uid. split; [reflexivity|].
        left. exact Hfind.
      * intros [(_ & uid' & [= <-] & [Hin|(Hno & _)])|(Hno & _)].
        -- apply aid_find_Some in Hfind, Hin. congruence.
        -- exfalso. exact (Hno aid Hfind).
        -- contradiction.
    + pose proof (proj1 (aid_find_None str) Hfind) as Hno.
      rewrite bool_decide_eq_true, live_names_normalized. split.
      * intros Hpkg. left. split; [exact Euid|]. exists uid. split; [reflexivity|].
        right. split; assumption.
      * intros [(_ & uid' & [= <-] & [Hin|(_ & Hpkg)])|(Hnu & _)].
        -- exfalso. exact (Hno uid Hin).
        -- exact Hpkg.
        -- contradiction.
  - apply onUidField_false in Euid.
    destruct (mValue v) as [uid|l|x|x|s|b|] eqn:Hval;
      try (split; [discriminate|];
           intros [(Hu & _)|(_ & Habs)]; [contradiction|discriminate]).
    rewrite String.eqb_eq. split.
    + intros ->. right. split; [exact Euid|reflexivity].
    + intros [(Hu & _)|(_ & [= ->])]; [contradiction|reflexivity].
Qed.

Lemma tryMatchWildcardString_WildcardMatches (v : FieldValue) (pattern : string) :
  tryMatchWildcardString fnmatch isAttributionUidField isUidField uidMap v pattern = true <->
  WildcardMatches v pattern.
Proof.
  unfold tryMatchWildcardString, WildcardMatches.
  destruct (isAttributionUidField v || isUidField v) eqn:Euid.
  - apply onUidField_true in Euid.
    destruct (mValue v) as [uid|l|x|x|s|b|] eqn:Hval;
      try (split; [discriminate|];
           intros [(_ & uid' & Habs & _)|(Hno & _)]; [discriminate|contradiction]).
    pose proof (aid_of_uid uid) as Haid.
    destruct (if uid <? 10000
              then List.find (fun kv : string * Z => snd kv =? uid) UidMap.sAidToUidMapping
              else None) as [[name a]|].
    + destruct Haid as [Hin Honly]. split.
      * intros Hm. left. split; [exact Euid|]. exists uid. split; [reflexivity|].
        left. exists name. split; assumption.
      * intros [(_ & uid' & [= <-] & [(name' & Hin' & Hm)|(Hno & _)])|(Hno & _)].
        -- rewrite <- (Honly name' Hin'). exact Hm.
        -- exfalso. exact (Hno name Hin).
        -- contradiction.
    + rewrite existsb_exists. split.
      * intros (name & Hin & Hm). apply list_elem_of_In, elem_of_elements in Hin.
        apply live_names_normalized in Hin. destruct Hin as (pkg & Hlive & <-).
        left. split; [exact Euid|]. exists uid. split; [reflexivity|].
        right. split; [exact Haid|]. exists pkg. split; assumption.
      * intros [(_ & uid' & [= <-] & [(name' & Hin' & _)|(_ & pkg & Hlive & Hm)])|(Hno & _)].
        -- exfalso. exact (Haid name' Hin').
        -- exists (UidMap.normalizeAppName pkg). split; [|exact Hm].
           apply list_elem_of_In, elem_of_elements, live_names_normalized.
           exists pkg. split; [exact Hlive|reflexivity].
        -- contradiction.
  - apply onUidField_false in Euid.
    destruct (mValue v) as [uid|l|x|x|s|b|] eqn:Hval;
      try (split; [discriminate|];
           intros [(Hu & _)|(_ & s' & Habs & _)]; [contradiction|discriminate]).
    split.
    + intros Hm. right. split; [exact Euid|]. exists s. split; [reflexivity|exact Hm].
    + intros [(Hu & _)|(_ & s' & [= <-] & Hm)]; [contradiction|exact Hm].
Qed.

Lemma intEq_intOf (k : Z) (v : FieldValue) : intEq k v = true <-> intOf v = Some k.
Proof.
  unfold intEq, intOf. destruct (mValue v); try (split; discriminate).
  - rewrite Z.eqb_eq. split; [intros ->; reflexivity|intros [= ->]; reflexivity].
  - rewrite Z.eqb_eq. split; [intros ->; reflexivity|intros [= ->]; reflexivity].
Qed.

(** [holds] decides [Satisfies]. *)
Lemma holds_Satisfies (vm : ValueMatcher FieldValueMatcher) (v : FieldValue) :
  isMatchesTuple vm = false ->
  (holds vm v = true <-> Satisfies vm v).
Proof.
  intros Hleaf. unfold holds.
  destruct vm as [|b|str|k|k|k|x|x|k|k|subs|strs|strs|ints|ints|pat|pats|pats];
    try discriminate Hleaf;
    cbn [matchesSimple Nat.ltb Nat.leb]; rewrite computeRanges_single;
    cbn [Satisfies].
  - split; [discriminate|intros []].
  - (* eq_bool *)
    unfold anyInRange. cbn [take drop existsb Nat.sub]. rewrite orb_false_r.
    unfold intOf. destruct (mValue v) as [i|i| | | | |];
      try (split; [discriminate|intros (i' & Habs & _); discriminate]).
    all: split;
      [intros Hb; exists i; split; [reflexivity|];
       destruct b, (i =? 0) eqn:E; cbn in Hb; try discriminate;
       [apply Z.eqb_neq in E; tauto|apply Z.eqb_eq in E; split; [discriminate|lia]]
      |intros (i' & [= <-] & Hiff);
       destruct b, (i =? 0) eqn:E; cbn; try reflexivity;
       [apply Z.eqb_eq in E; exfalso; apply (proj1 Hiff eq_refl); exact E
       |apply Z.eqb_neq in E; apply Hiff in E; discriminate]].
  - (* eq_string *)
    unfold anyInRange. cbn [take drop existsb Nat.sub]. rewrite orb_false_r.
    apply tryMatchString_StringMatches.
  - (* eq_int *)
    unfold anyInRange. cbn [take drop existsb Nat.sub]. rewrite orb_false_r.
    apply intEq_intOf.
  - (* lt_int *)
    unfold anyInRange. cbn [take drop existsb Nat.sub]. rewrite orb_false_r.
    unfold intOf. destruct (mValue v) as [i|i| | | | |];
      try (split; [discriminate|intros (i' & Habs & _); discriminate]).
    all: rewrite Z.ltb_lt; split;
      [intros Hlt; exists i; split; [reflexivity|exact Hlt]
      |intros (i' & [= <-] & Hlt); exact Hlt].
  - (* gt_int *)
    unfold anyInRange. cbn [take drop existsb Nat.sub]. rewrite orb_false_r.
    unfold intOf. destruct (mValue v) as [i|i| | | | |];
      try (split; [discriminate|intros (i' & Habs & _); discriminate]).
    all: rewrite Z.gtb_gt; split;
      [intros Hlt; exists i; split; [reflexivity|exact Hlt]
      |intros (i' & [= <-] & Hlt); exact Hlt].
  - (* lt_float *)
    unfold anyInRange. cbn [take drop existsb Nat.sub]. rewrite orb_false_r.
    destruct (mValue v) as [| |y| | | |];
      try (split; [discriminate|intros (y' & Habs & _); discriminate]).
    split; [intros Hlt; exists y; split; [reflexivity|exact Hlt]
           |intros (y' & [= <-] & Hlt); exact Hlt].
  - (* gt_float *)
    unfold anyInRange. cbn [take drop existsb Nat.sub]. rewrite orb_false_r.
    destruct (mValue v) as [| |y| | | |];
      try (split; [discriminate|intros (y' & Habs & _); discriminate]).
    split; [intros Hlt; exists y; split; [reflexivity|exact Hlt]
           |intros (y' & [= <-] & Hlt); exact Hlt].
  - (* lte_int *)
    unfold anyInRange. cbn [take drop existsb Nat.sub]. rewrite orb_false_r.
    unfold intOf. destruct (mValue v) as [i|i| | | | |];
      try (split; [discriminate|intros (i' & Habs & _); discriminate]).
    all: rewrite Z.leb_le; split;
      [intros Hlt; exists i; split; [reflexivity|exact Hlt]
      |intros (i' & [= <-] & Hlt); exact Hlt].
  - (* gte_int *)
    unfold anyInRange. cbn [take drop existsb Nat.sub]. rewrite orb_false_r.
    unfold intOf. destruct (mValue v) as [i|i| | | | |];
      try (split; [discriminate|intros (i' & Habs & _); discriminate]).
    all: rewrite Z.geb_le; split;
      [intros Hlt; exists i; split; [reflexivity|lia]
      |intros (i' & [= <-] & Hlt); lia].
  - (* eq_any_string *)
    unfold anyInRange. cbn [take drop existsb Nat.sub]. rewrite orb_false_r.
    rewrite existsb_exists. split.
    + intros (str & Hin & Hm). exists str. split; [exact Hin|].
      apply tryMatchString_StringMatches. exact Hm.
    + intros (str & Hin & Hm). exists str. split; [exact Hin|].
      apply tryMatchString_StringMatches. exact Hm.
  - (* neq_any_string *)
    unfold anyInRange. cbn [take drop existsb Nat.sub]. rewrite orb_false_r.
    rewrite forallb_forall. split.
    + intros Hall str Hin Hm. apply tryMatchString_StringMatches in Hm.
      specialize (Hall str Hin). rewrite Hm in Hall. discriminate.
    + intros Hall str Hin. apply negb_true_iff, not_true_is_false. intros Hm.
      apply (Hall str Hin). apply tryMatchString_StringMatches. exact Hm.
  - (* eq_any_int *)
    unfold anyInRange. cbn [take drop existsb Nat.sub]. rewrite orb_false_r.
    rewrite existsb_exists. split.
    + intros (k & Hin & Hm). exists k. split; [exact Hin|]. apply intEq_intOf. exact Hm.
    + intros (k & Hin & Hm). exists k. split; [exact Hin|]. apply intEq_intOf. exact Hm.
  - (* neq_any_int *)
    unfold anyInRange. cbn [take drop existsb Nat.sub]. rewrite orb_false_r.
    rewrite forallb_forall. split.
    + intros Hall k Hin Hm. apply intEq_intOf in Hm.
      specialize (Hall k Hin). rewrite Hm in Hall. discriminate.
    + intros Hall k Hin. apply negb_true_iff, not_true_is_false. intros Hm.
      apply (Hall k Hin). apply intEq_intOf. exact Hm.
  - (* eq_wildcard_string *)
    unfold anyInRange. cbn [take drop existsb Nat.sub]. rewrite orb_false_r.
    apply tryMatchWildcardString_WildcardMatches.
  - (* eq_any_wildcard_string *)
    unfold anyInRange. cbn [take drop existsb Nat.sub]. rewrite orb_false_r.
    rewrite existsb_exists. split.
    + intros (str & Hin & Hm). exists str. split; [exact Hin|].
      apply tryMatchWildcardString_WildcardMatches. exact Hm.
    + intros (str & Hin & Hm). exists str. split; [exact Hin|].
      apply tryMatchWildcardString_WildcardMatches. exact Hm.
  - (* neq_any_wildcard_string *)
    unfold anyInRange. cbn [take drop existsb Nat.sub]. rewrite orb_false_r.
    rewrite forallb_forall. split.
    + intros Hall str Hin Hm. apply tryMatchWildcardString_WildcardMatches in Hm.
      specialize (Hall str Hin). rewrite Hm in Hall. discriminate.
    + intros Hall str Hin. apply negb_true_iff, not_true_is_false. intros Hm.
      apply (Hall str Hin). apply tryMatchWildcardString_WildcardMatches. exact Hm.
Qed.

Section OneField.

Variable vm : ValueMatcher FieldValueMatcher.
Variable f : Z.
Variable values : list FieldValue.
Variables s e d : nat.

Hypothesis leaf : isMatchesTuple vm = false.
Hypothesis inside : (e <= length values)%nat.
Hypothesis sorted : sortedAt values d s e.

(** The values of field [f] in the range. *)
Definition ofField (i : nat) (v : FieldValue) : Prop :=
  (s <= i < e)%nat /\ values !! i = Some v /\ posOf d v = f.

(** A matcher that is not [matches_tuple] and whose first range is the
    block of its field. *)
Lemma leaf_over_block (pos : option Position) :
  (d <= 2)%nat ->
  fst (computeRanges (mkFieldValueMatcher f pos vm) values s e d) =
    match getStartEndAtDepth f s e d values with
    | (None, _) => []
    | (Some a, b) => [(a, b)]
    end ->
  matches (mkFieldValueMatcher f pos vm) values s e d = true <->
  exists i v, ofField i v /\ holds vm v = true.
Proof.
  intros Hdepth Hranges.
  rewrite (matches_leaf vm f pos values s e d leaf).
  pose proof (getStartEndAtDepth_block values d f s e inside sorted) as Hblock.
  assert (Hd : (2 <? d)%nat = false) by (apply Nat.ltb_ge; lia).
  rewrite Hd.
  destruct (e <=? s)%nat eqn:Ees.
  { apply Nat.leb_le in Ees. split; [discriminate|].
    intros (i & v & (Hi & _) & _). lia. }
  rewrite Hranges.
  destruct (getStartEndAtDepth f s e d values) as [[a|] b].
  - destruct Hblock as (Hab & Hbe & Hall). rewrite anyInRange_true. split.
    + intros (i & v & Hi & Hv & Ht). exists i, v. split; [|exact Ht].
      split; [lia|]. split; [exact Hv|]. apply (Hall i v); [lia|exact Hv|exact Hi].
    + intros (i & v & (Hi & Hv & Hp) & Ht). exists i, v.
      split; [apply (Hall i v); assumption|]. split; assumption.
  - destruct Hblock as (_ & Hall). split; [discriminate|].
    intros (i & v & (Hi & Hv & Hp) & _). exfalso. exact (Hall i v Hi Hv Hp).
Qed.

(** X12.  A matcher with a value matcher other than [matches_tuple] and
    without position -- or with position ANY, above the last depth -- matches
    exactly when some value of its field in the range satisfies the value
    matcher. *)
Theorem leaf_matches_some_value (pos : option Position)
    (Hpos : pos = None /\ (d <= 2)%nat \/ pos = Some ANY /\ (d <= 1)%nat) :
  matches (mkFieldValueMatcher f pos vm) values s e d = true <->
  exists i v, ofField i v /\ Satisfies vm v.
Proof.
  setoid_rewrite <- (fun v => holds_Satisfies vm v leaf).
  apply leaf_over_block; [destruct Hpos as [[_ Hd]|[_ Hd]]; lia|].
  unfold computeRanges. cbn [field position value_matcher].
  destruct (getStartEndAtDepth f s e d values) as [[a|] b]; [|reflexivity].
  destruct Hpos as [[-> _]|[-> Hd1]]; [reflexivity|].
  assert (Hd' : (2 <? S d)%nat = false) by (apply Nat.ltb_ge; lia).
  rewrite Hd', leaf. reflexivity.
Qed.

(** X13.  With position FIRST the matcher looks at the values of its field
    up to the first one whose position one level down is not 1: it matches
    exactly when a value of the field satisfies the value matcher and that
    value and every value of the field before it have position 1 there. *)
Theorem leaf_matches_first (Hdepth : (d <= 1)%nat) :
  matches (mkFieldValueMatcher f (Some FIRST) vm) values s e d = true <->
  exists i v, ofField i v /\ Satisfies vm v /\
              forall j w, (j <= i)%nat -> ofField j w -> posOf (S d) w = 1.
Proof.
  setoid_rewrite <- (fun v => holds_Satisfies vm v leaf).
  rewrite (matches_leaf vm f (Some FIRST) values s e d leaf).
  pose proof (getStartEndAtDepth_block values d f s e inside sorted) as Hblock.
  assert (Hd : (2 <? d)%nat = false) by (apply Nat.ltb_ge; lia).
  rewrite Hd.
  destruct (e <=? s)%nat eqn:Ees.
  { apply Nat.leb_le in Ees. split; [discriminate|].
    intros (i & v & (Hi & _) & _). lia. }
  unfold computeRanges. cbn [field position value_matcher].
  destruct (getStartEndAtDepth f s e d values) as [[a|] b].
  - destruct Hblock as (Hab & Hbe & Hall).
    assert (Hd' : (2 <? S d)%nat = false) by (apply Nat.ltb_ge; lia).
    rewrite Hd'. cbn [fst].
    destruct (first_loop_spec (S d) values b ltac:(lia) (b - a) a ltac:(lia))
      as (Hr & Hones & Hstop).
    set (r := first_loop (S d) values a (b - a) b) in *.
    rewrite anyInRange_true. split.
    + intros (i & v & Hi & Hv & Ht). exists i, v.
      split; [split; [lia|]; split; [exact Hv|]; apply (Hall i v); [lia|exact Hv|lia]|].
      split; [exact Ht|].
      intros j w Hj (Hjr & Hw & Hp). apply (Hones j w); [|exact Hw].
      apply (Hall j w) in Hp; [lia|lia|exact Hw].
    + intros (i & v & (Hi & Hv & Hp) & Ht & Hfirst). exists i, v.
      apply (Hall i v) in Hp; [|exact Hi|exact Hv].
      split; [|split; assumption]. split; [lia|].
      destruct (le_lt_dec r i) as [Hri|Hir]; [|exact Hir]. exfalso.
      destruct (Hstop ltac:(lia)) as (w & Hw & Hne). apply Hne.
      apply (Hfirst r w Hri). split; [lia|]. split; [exact Hw|].
      apply (Hall r w); [lia|exact Hw|lia].
  - destruct Hblock as (_ & Hall). cbn [fst]. split; [discriminate|].
    intros (i & v & (Hi & Hv & Hp) & _). exfalso. exact (Hall i v Hi Hv Hp).
Qed.

(** X14.  With position LAST the matcher looks at the values of its field
    from the first one flagged as last, one level down, on; when no value of
    the field has that flag it looks at all of them, as if no position had
    been given. *)
Theorem leaf_matches_last (Hdepth : (d <= 1)%nat) :
  matches (mkFieldValueMatcher f (Some LAST) vm) values s e d = true <->
  exists i v, ofField i v /\ Satisfies vm v /\
              ((exists j w, (j <= i)%nat /\ ofField j w /\
                            isLastPos (mField w) (S d) = true) \/
               (forall j w, ofField j w -> isLastPos (mField w) (S d) = false)).
Proof.
  setoid_rewrite <- (fun v => holds_Satisfies vm v leaf).
  rewrite (matches_leaf vm f (Some LAST) values s e d leaf).
  pose proof (getStartEndAtDepth_block values d f s e inside sorted) as Hblock.
  assert (Hd : (2 <? d)%nat = false) by (apply Nat.ltb_ge; lia).
  rewrite Hd.
  destruct (e <=? s)%nat eqn:Ees.
  { apply Nat.leb_le in Ees. split; [discriminate|].
    intros (i & v & (Hi & _) & _). lia. }
  unfold computeRanges. cbn [field position value_matcher].
  destruct (getStartEndAtDepth f s e d values) as [[a|] b].
  - destruct Hblock as (Hab & Hbe & Hall).
    assert (Hd' : (2 <? S d)%nat = false) by (apply Nat.ltb_ge; lia).
    rewrite Hd'. cbn [fst].
    assert (Hin : forall j w, ofField j w <-> (a <= j < b)%nat /\ values !! j = Some w).
    { intros j w. unfold ofField. split.
      - intros (Hj & Hw & Hp). split; [|exact Hw]. apply (Hall j w); assumption.
      - intros (Hj & Hw). split; [lia|]. split; [exact Hw|].
        apply (Hall j w); [lia|exact Hw|exact Hj]. }
    rewrite anyInRange_true.
    destruct (last_loop_spec (S d) values b ltac:(lia) a (b - a) a ltac:(lia))
      as [(Hr & Hnone)|(Hr & (w & Hw & Hflag) & Hbefore)];
      set (r := last_loop (S d) values a (b - a) a) in *.
    + rewrite Hr. split.
      * intros (i & v & Hi & Hv & Ht). exists i, v.
        split; [apply Hin; auto|]. split; [exact Ht|]. right.
        intros j w Hjw. apply Hin in Hjw. destruct Hjw as [Hj Hw]. exact (Hnone j w Hj Hw).
      * intros (i & v & Hiv & Ht & _). apply Hin in Hiv. destruct Hiv as [Hi Hv].
        exists i, v. auto.
    + split.
      * intros (i & v & Hi & Hv & Ht). exists i, v.
        split; [apply Hin; split; [lia|exact Hv]|]. split; [exact Ht|]. left.
        exists r, w. split; [lia|]. split; [apply Hin; split; [lia|exact Hw]|exact Hflag].
      * intros (i & v & Hiv & Ht & Hlast). apply Hin in Hiv. destruct Hiv as [Hi Hv].
        exists i, v. split; [|split; assumption]. split; [|lia].
        destruct Hlast as [(j & w' & Hji & Hjw & Hjflag)|Hnone].
        -- apply Hin in Hjw. destruct Hjw as [Hj Hw'].
           destruct (le_lt_dec r j) as [Hrj|Hjr]; [lia|].
           rewrite (Hbefore j w' ltac:(lia) Hw') in Hjflag. discriminate.
        -- rewrite (Hnone r w) in Hflag; [discriminate|]. apply Hin. split; [lia|exact Hw].
  - destruct Hblock as (_ & Hall). cbn [fst]. split; [discriminate|].
    intros (i & v & (Hi & Hv & Hp) & _). exfalso. exact (Hall i v Hi Hv Hp).
Qed.

End OneField.

(** X15.  What [matchesSimple] never matches, whatever the values: a range
    that is empty, a depth above 2, a matcher with position ALL or
    POSITION_UNKNOWN, a matcher with any position at depth 2, and a matcher
    whose value matcher is not set. *)
Theorem matchesSimple_rejects (f : Z) (pos : option Position)
    (vm : ValueMatcher FieldValueMatcher) (values : list FieldValue) (s e d : nat) :
  ((e <= s)%nat -> matches (mkFieldValueMatcher f pos vm) values s e d = false) /\
  ((2 < d)%nat -> matches (mkFieldValueMatcher f pos vm) values s e d = false) /\
  (pos = Some ALL \/ pos = Some POSITION_UNKNOWN ->
     matches (mkFieldValueMatcher f pos vm) values s e d = false) /\
  (d = 2%nat -> is_Some pos ->
     matches (mkFieldValueMatcher f pos vm) values s e d = false) /\
  (vm = VALUE_MATCHER_NOT_SET ->
     matches (mkFieldValueMatcher f pos vm) values s e d = false).
Proof.
  assert (Hshape : forall m vs a b c,
            matches m vs a b c =
            if (2 <? c)%nat then false
            else if (b <=? a)%nat then false
            else match fst (computeRanges m vs a b c) with
                 | [] => false
                 | _ :: _ => matches m vs a b c
                 end).
  { intros m vs a b c. destruct m as [f' pos' vm']. cbn [matchesSimple].
    destruct (2 <? c)%nat; [reflexivity|]. destruct (b <=? a)%nat; [reflexivity|].
    destruct (computeRanges (mkFieldValueMatcher f' pos' vm') vs a b c)
      as [[|[lo hi] rs] c']; reflexivity. }
  split; [|split; [|split; [|split]]].
  - intros Hes. rewrite Hshape. apply Nat.leb_le in Hes. rewrite Hes.
    destruct (2 <? d)%nat; reflexivity.
  - intros Hd. rewrite Hshape. apply Nat.ltb_lt in Hd. rewrite Hd. reflexivity.
  - intros Hpos. rewrite Hshape.
    destruct (2 <? d)%nat; [reflexivity|]. destruct (e <=? s)%nat; [reflexivity|].
    unfold computeRanges. cbn [field position].
    destruct (getStartEndAtDepth f s e d values) as [[a|] b]; [|reflexivity].
    destruct Hpos as [-> | ->]; destruct (2 <? S d)%nat; reflexivity.
  - intros -> [p ->]. rewrite Hshape. cbn [Nat.ltb Nat.leb].
    destruct (e <=? s)%nat; [reflexivity|].
    unfold computeRanges. cbn [field position].
    destruct (getStartEndAtDepth f s e 2 values) as [[a|] b]; reflexivity.
  - intros ->. cbn [matchesSimple].
    destruct (2 <? d)%nat; [reflexivity|]. destruct (e <=? s)%nat; [reflexivity|].
    destruct (computeRanges _ values s e d) as [[|[lo hi] rs] c']; reflexivity.
Qed.

(** *** The matcher of an atom *)

(** X25.  The public [matchesSimple], for a simple atom matcher whose field
    matchers have no position and no [matches_tuple], on an event whose
    values are sorted by field: the event matches exactly when it has the
    atom id of the matcher and, for each field matcher, some value of that
    field that satisfies the value matcher. *)
Theorem matchesSimpleAtom_leaves (simpleMatcher : SimpleAtomMatcher) (event : LogEvent)
    (Hleaves : Forall (fun fm => position fm = None /\
                                 isMatchesTuple (value_matcher fm) = false)
                      (simple_field_value_matcher simpleMatcher))
    (Hsorted : sortedAt (getValues event) 0 0 (length (getValues event))) :
  matchesSimpleAtom fnmatch isAttributionUidField isUidField uidMap simpleMatcher event
    = true <->
  GetTagId event = atom_id simpleMatcher /\
  forall fm, In fm (simple_field_value_matcher simpleMatcher) ->
    exists v, v ∈ getValues event /\ posOf 0 v = field fm /\
              Satisfies (value_matcher fm) v.
Proof.
  assert (Hone : forall fm, In fm (simple_field_value_matcher simpleMatcher) ->
            (matches fm (getValues event) 0 (length (getValues event)) 0 = true <->
             exists v, v ∈ getValues event /\ posOf 0 v = field fm /\
                       Satisfies (value_matcher fm) v)).
  { intros fm Hin. rewrite Forall_forall in Hleaves.
    destruct (Hleaves fm ltac:(apply list_elem_of_In; exact Hin)) as [Hpos Hleaf].
    destruct fm as [f pos vm]. cbn [position value_matcher field] in *. subst pos.
    setoid_rewrite <- (fun v => holds_Satisfies vm v Hleaf).
    rewrite (leaf_over_block vm f (getValues event) 0 (length (getValues event)) 0
               Hleaf (Nat.le_refl _) Hsorted None ltac:(lia)).
    - split.
      + intros (i & v & (Hi & Hv & Hp) & Ht). exists v.
        split; [apply list_elem_of_lookup; eauto|]. split; assumption.
      + intros (v & Hv & Hp & Ht). apply list_elem_of_lookup in Hv. destruct Hv as [i Hi].
        exists i, v. split; [|exact Ht]. split; [|split; assumption].
        pose proof (lookup_lt_Some _ _ _ Hi). lia.
    - unfold computeRanges. cbn [field position].
      destruct (getStartEndAtDepth f 0 (length (getValues event)) 0 (getValues event))
        as [[a|] b]; reflexivity. }
  unfold matchesSimpleAtom.
  destruct (GetTagId event =? atom_id simpleMatcher) eqn:Etag; cbn [negb].
  - apply Z.eqb_eq in Etag. rewrite forallb_forall. split.
    + intros Hall. split; [exact Etag|]. intros fm Hin. apply Hone; auto.
    + intros [_ Hall] fm Hin. apply Hone; auto.
  - apply Z.eqb_neq in Etag. split; [discriminate|]. intros [Habs _]. contradiction.
Qed.

(** *** Strings against uid fields *)




(** X17.  The AID table is what the matchers take it to be: no name and no
    uid is listed twice, and every uid is below 10000.  So for an entry of
    the table and a uid field that holds its uid, the exact matcher accepts
    the AID name, and the wildcard matcher compares the pattern with that
    one name, whatever packages the uid has. *)
Theorem aid_names_agree (fieldValue : FieldValue) (name : string) (aid : Z)
    (pattern : string)
    (Huid : isAttributionUidField fieldValue || isUidField fieldValue = true)
    (Hint : mValue fieldValue = INT aid)
    (Hin : In (name, aid) UidMap.sAidToUidMapping) :
  NoDup (map fst UidMap.sAidToUidMapping) /\
  NoDup (map snd UidMap.sAidToUidMapping) /\
  aid < 10000 /\
  UidMap.aid_find name = Some aid /\
  tryMatchString isAttributionUidField isUidField uidMap fieldValue name = true /\
  tryMatchWildcardString fnmatch isAttributionUidField isUidField uidMap fieldValue pattern
    = fnmatch pattern name.
Proof.
  assert (Hnames : NoDup (map fst UidMap.sAidToUidMapping)).
  { apply (bool_decide_unpack (NoDup (map fst UidMap.sAidToUidMapping))).
    vm_compute. exact I. }
  assert (Huids : NoDup (map snd UidMap.sAidToUidMapping)).
  { apply (bool_decide_unpack (NoDup (map snd UidMap.sAidToUidMapping))).
    vm_compute. exact I. }
  assert (Hbelow : Forall (fun kv : string * Z => snd kv < 10000) UidMap.sAidToUidMapping).
  { apply (bool_decide_unpack
             (Forall (fun kv : string * Z => snd kv < 10000) UidMap.sAidToUidMapping)).
    vm_compute. exact I. }
  assert (Haid : aid < 10000).
  { rewrite Forall_forall in Hbelow. apply (Hbelow (name, aid)).
    apply list_elem_of_In. exact Hin. }
  assert (Hfind : UidMap.aid_find name = Some aid).
  { unfold UidMap.aid_find. rewrite (find_by_name _ name aid Hnames Hin). reflexivity. }
  split; [exact Hnames|]. split; [exact Huids|]. split; [exact Haid|].
  split; [exact Hfind|]. split.
  - unfold tryMatchString. rewrite Huid, Hint, Hfind. apply Z.eqb_refl.
  - unfold tryMatchWildcardString. rewrite Huid, Hint.
    apply Z.ltb_lt in Haid. rewrite Haid.
    rewrite (find_by_uid _ name aid Huids Hin). reflexivity.
Qed.

End Leaves.

(** *** A concrete event *)

(** A check of [sortedAt] that can be run. *)
Fixpoint nondecreasing (d : nat) (values : list FieldValue) : bool :=
  match values with
  | [] => true
  | v :: rest => forallb (fun w => posOf d v <=? posOf d w) rest && nondecreasing d rest
  end.

Lemma nondecreasing_sortedAt (d : nat) (values : list FieldValue) (s e : nat) :
  nondecreasing d values = true -> sortedAt values d s e.
Proof.
  intros Hsorted i j v w _ Hij _. clear s e. revert i j Hij.
  induction values as [|x rest IH]; intros i j Hij Hv Hw; [rewrite lookup_nil in Hv; discriminate|].
  cbn [nondecreasing] in Hsorted. apply andb_true_iff in Hsorted.
  destruct Hsorted as [Hx Hrest]. rewrite forallb_forall in Hx.
  destruct i as [|i], j as [|j]; cbn in Hv, Hw.
  - injection Hv as <-. injection Hw as <-. lia.
  - injection Hv as <-. apply Z.leb_le. apply Hx.
    apply list_elem_of_In, list_elem_of_lookup. eauto.
  - lia.
  - apply (IH Hrest i j); [lia|exact Hv|exact Hw].
Qed.

(** A check of [dfsSortedAt] that can be run. *)
Fixpoint dfsOrdered (d : nat) (values : list FieldValue) : bool :=
  match values with
  | [] => true
  | v :: rest =>
      forallb (fun w => (posOf d v <? posOf d w) ||
                        ((posOf d v =? posOf d w) && (posOf (S d) v <=? posOf (S d) w)))
              rest
      && dfsOrdered d rest
  end.

Lemma dfsOrdered_dfsSortedAt (d : nat) (values : list FieldValue) (s e : nat) :
  dfsOrdered d values = true -> dfsSortedAt values d s e.
Proof.
  intros Hsorted i j v w _ Hij _. clear s e. revert i j Hij.
  induction values as [|x rest IH]; intros i j Hij Hv Hw; [rewrite lookup_nil in Hv; discriminate|].
  cbn [dfsOrdered] in Hsorted. apply andb_true_iff in Hsorted.
  destruct Hsorted as [Hx Hrest]. rewrite forallb_forall in Hx.
  destruct i as [|i], j as [|j]; cbn in Hv, Hw.
  - injection Hv as <-. injection Hw as <-. right. lia.
  - injection Hv as <-.
    assert (Hin : In w rest) by (apply list_elem_of_In, list_elem_of_lookup; eauto).
    apply Hx in Hin. apply orb_true_iff in Hin. destruct Hin as [Hlt|Heq].
    + left. apply Z.ltb_lt. exact Hlt.
    + right. apply andb_true_iff in Heq. destruct Heq as [Heq Hle].
      apply Z.eqb_eq in Heq. apply Z.leb_le in Hle. split; assumption.
  - lia.
  - apply (IH Hrest i j); [lia|exact Hv|exact Hw].
Qed.

(** The attribution nodes of scenario 6 are in depth-first order.  Where one
    node has uid 10 and tag "A", that node is the element that satisfies both
    matchers of the tuple; where uid 10 and tag "A" are in different nodes,
    no element does. *)
Lemma any_tuple_matches_in_one_subrange_witness :
  ((0 <= 1)%nat /\ (4 <= length MatcherFacts.matching_nodes)%nat /\
   dfsSortedAt MatcherFacts.matching_nodes 0 0 4) /\
  ((4 <= length MatcherFacts.split_nodes)%nat /\
   dfsSortedAt MatcherFacts.split_nodes 0 0 4) /\
  (exists p s e,
     repeatedElement MatcherFacts.matching_nodes 0 0 4 1 p s e /\
     forall subMatcher,
       In subMatcher [mkFieldValueMatcher 1 None (kEqInt 10);
                      mkFieldValueMatcher 2 None (kEqString "A")] ->
       matchesSimple MatcherFacts.no_wildcards MatcherFacts.attributionUid
         MatcherFacts.annotatedUid (UidMap.init 0) subMatcher
         MatcherFacts.matching_nodes s e 2 = true) /\
  ~ (exists p s e,
       repeatedElement MatcherFacts.split_nodes 0 0 4 1 p s e /\
       forall subMatcher,
         In subMatcher [mkFieldValueMatcher 1 None (kEqInt 10);
                        mkFieldValueMatcher 2 None (kEqString "A")] ->
         matchesSimple MatcherFacts.no_wildcards MatcherFacts.attributionUid
           MatcherFacts.annotatedUid (UidMap.init 0) subMatcher
           MatcherFacts.split_nodes s e 2 = true).
Proof.
  assert (Hd : (0 <= 1)%nat) by (apply Nat.le_0_l).
  assert (Hm : (4 <= length MatcherFacts.matching_nodes)%nat) by (apply Nat.le_refl).
  assert (Hs : (4 <= length MatcherFacts.split_nodes)%nat) by (apply Nat.le_refl).
  assert (Hom : dfsSortedAt MatcherFacts.matching_nodes 0 0 4)
    by (apply dfsOrdered_dfsSortedAt; reflexivity).
  assert (Hos : dfsSortedAt MatcherFacts.split_nodes 0 0 4)
    by (apply dfsOrdered_dfsSortedAt; reflexivity).
  split; [exact (conj Hd (conj Hm Hom))|]. split; [exact (conj Hs Hos)|]. split.
  - apply (proj1 (any_tuple_matches_in_one_subrange MatcherFacts.no_wildcards
                    MatcherFacts.attributionUid MatcherFacts.annotatedUid (UidMap.init 0)
                    MatcherFacts.matching_nodes 0 0 4 1
                    [mkFieldValueMatcher 1 None (kEqInt 10);
                     mkFieldValueMatcher 2 None (kEqString "A")] Hd Hm Hom)).
    reflexivity.
  - intros Hex.
    apply (proj2 (any_tuple_matches_in_one_subrange MatcherFacts.no_wildcards
                    MatcherFacts.attributionUid MatcherFacts.annotatedUid (UidMap.init 0)
                    MatcherFacts.split_nodes 0 0 4 1
                    [mkFieldValueMatcher 1 None (kEqInt 10);
                     mkFieldValueMatcher 2 None (kEqString "A")] Hd Hs Hos)) in Hex.
    discriminate Hex.
Defined.

(** Field 1 holds a uid; field 2 is repeated and holds 10, 20 and 30, the
    last of them flagged as last. *)
Definition sample_values : list FieldValue :=
  [mkFieldValue (mkField 5 [(1, false)]) (INT 1000);
   mkFieldValue (mkField 5 [(2, false); (1, false)]) (INT 10);
   mkFieldValue (mkField 5 [(2, false); (2, false)]) (INT 20);
   mkFieldValue (mkField 5 [(2, true); (3, true)]) (INT 30)].

Definition firstIsUid (v : FieldValue) : bool := posOf 0 v =? 1.

Abbreviation sample_matches :=
  (matchesSimple MatcherFacts.no_wildcards MatcherFacts.annotatedUid firstIsUid
     UidMapMoreFacts.reinstalled).
Abbreviation sample_satisfies :=
  (Satisfies MatcherFacts.no_wildcards MatcherFacts.annotatedUid firstIsUid
     UidMapMoreFacts.reinstalled).

(** The integers of [eq_any_int] and [neq_any_int] are cut down to 32 bits
    before they are compared: 2^32 + 20 is taken for 20. *)
Example any_int_is_narrowed :
  sample_matches (mkFieldValueMatcher 2 None (kEqAnyInt [2 ^ 32 + 20])) sample_values 0 4 0
    = true /\
  sample_matches (mkFieldValueMatcher 2 None (kEqInt (2 ^ 32 + 20))) sample_values 0 4 0
    = false /\
  sample_matches (mkFieldValueMatcher 1 None (kNeqAnyInt [2 ^ 32 + 1000])) sample_values 0 4 0
    = false.
Proof. vm_compute. repeat split. Qed.

Lemma sample_inside : (4 <= length sample_values)%nat.
Proof. cbn. lia. Defined.

Lemma sample_sorted : sortedAt sample_values 0 0 4.
Proof. apply nondecreasing_sortedAt. reflexivity. Defined.

Lemma getStartEndAtDepth_finds_block_witness :
  ((4 <= length sample_values)%nat /\ sortedAt sample_values 0 0 4) /\
  forall k v, (0 <= k < 4)%nat -> sample_values !! k = Some v ->
              (posOf 0 v = 2 <-> (1 <= k < 4)%nat).
Proof.
  split; [exact (conj sample_inside sample_sorted)|].
  exact (proj2 (proj2 (getStartEndAtDepth_finds_block sample_values 0 2 0 4
                         sample_inside sample_sorted))).
Defined.

Lemma leaf_matches_some_value_witness :
  (isMatchesTuple (kEqInt 20 : ValueMatcher FieldValueMatcher) = false /\
   (4 <= length sample_values)%nat /\ sortedAt sample_values 0 0 4) /\
  (sample_matches (mkFieldValueMatcher 2 (Some ANY) (kEqInt 20)) sample_values 0 4 0 = true <->
   exists i v, ofField 2 sample_values 0 4 0 i v /\ intOf v = Some 20).
Proof.
  split; [exact (conj eq_refl (conj sample_inside sample_sorted))|].
  apply (leaf_matches_some_value MatcherFacts.no_wildcards MatcherFacts.annotatedUid
           firstIsUid UidMapMoreFacts.reinstalled (kEqInt 20) 2 sample_values 0 4 0
           eq_refl sample_inside sample_sorted (Some ANY)).
  right. split; [reflexivity|lia].
Defined.

Lemma leaf_matches_first_witness :
  (isMatchesTuple (kEqInt 20 : ValueMatcher FieldValueMatcher) = false /\
   (4 <= length sample_values)%nat /\ sortedAt sample_values 0 0 4 /\ (0 <= 1)%nat) /\
  sample_matches (mkFieldValueMatcher 2 (Some FIRST) (kEqInt 20)) sample_values 0 4 0 = false /\
  (sample_matches (mkFieldValueMatcher 2 (Some FIRST) (kEqInt 20)) sample_values 0 4 0 = true <->
   exists i v, ofField 2 sample_values 0 4 0 i v /\ intOf v = Some 20 /\
               forall j w, (j <= i)%nat -> ofField 2 sample_values 0 4 0 j w ->
                           posOf 1 w = 1).
Proof.
  assert (Hd : (0 <= 1)%nat) by lia.
  split; [exact (conj eq_refl (conj sample_inside (conj sample_sorted Hd)))|].
  split; [reflexivity|].
  exact (leaf_matches_first MatcherFacts.no_wildcards MatcherFacts.annotatedUid
           firstIsUid UidMapMoreFacts.reinstalled (kEqInt 20) 2 sample_values 0 4 0
           eq_refl sample_inside sample_sorted Hd).
Defined.

Lemma leaf_matches_last_witness :
  (isMatchesTuple (kEqInt 30 : ValueMatcher FieldValueMatcher) = false /\
   (4 <= length sample_values)%nat /\ sortedAt sample_values 0 0 4 /\ (0 <= 1)%nat) /\
  sample_matches (mkFieldValueMatcher 2 (Some LAST) (kEqInt 30)) sample_values 0 4 0 = true /\
  (sample_matches (mkFieldValueMatcher 2 (Some LAST) (kEqInt 30)) sample_values 0 4 0 = true <->
   exists i v, ofField 2 sample_values 0 4 0 i v /\ intOf v = Some 30 /\
               ((exists j w, (j <= i)%nat /\ ofField 2 sample_values 0 4 0 j w /\
                             isLastPos (mField w) 1 = true) \/
                (forall j w, ofField 2 sample_values 0 4 0 j w ->
                             isLastPos (mField w) 1 = false))).
Proof.
  assert (Hd : (0 <= 1)%nat) by lia.
  split; [exact (conj eq_refl (conj sample_inside (conj sample_sorted Hd)))|].
  split; [reflexivity|].
  exact (leaf_matches_last MatcherFacts.no_wildcards MatcherFacts.annotatedUid
           firstIsUid UidMapMoreFacts.reinstalled (kEqInt 30) 2 sample_values 0 4 0
           eq_refl sample_inside sample_sorted Hd).
Defined.

(** The event of atom 5 with these values, and the matcher of atom 5 that
    wants 1000 in field 1 and 20 in field 2. *)
Definition sample_event : LogEvent := mkLogEvent 5 sample_values.

Definition sample_matcher : SimpleAtomMatcher :=
  mkSimpleAtomMatcher 5 [mkFieldValueMatcher 1 None (kEqInt 1000);
                         mkFieldValueMatcher 2 None (kEqInt 20)].

Lemma matchesSimpleAtom_leaves_witness :
  (Forall (fun fm => position fm = None /\ isMatchesTuple (value_matcher fm) = false)
          (simple_field_value_matcher sample_matcher) /\
   sortedAt (getValues sample_event) 0 0 (length (getValues sample_event))) /\
  matchesSimpleAtom MatcherFacts.no_wildcards MatcherFacts.annotatedUid firstIsUid
    UidMapMoreFacts.reinstalled sample_matcher sample_event = true /\
  forall fm, In fm (simple_field_value_matcher sample_matcher) ->
    exists v, v ∈ getValues sample_event /\ posOf 0 v = field fm /\
              sample_satisfies (value_matcher fm) v.
Proof.
  assert (Hleaves : Forall (fun fm => position fm = None /\
                                      isMatchesTuple (value_matcher fm) = false)
                      (simple_field_value_matcher sample_matcher)).
  { repeat constructor. }
  assert (Hsorted : sortedAt (getValues sample_event) 0 0 (length (getValues sample_event)))
    by exact sample_sorted.
  split; [exact (conj Hleaves Hsorted)|].
  assert (Hmatch : matchesSimpleAtom MatcherFacts.no_wildcards MatcherFacts.annotatedUid
                     firstIsUid UidMapMoreFacts.reinstalled sample_matcher sample_event
                   = true) by reflexivity.
  split; [exact Hmatch|].
  exact (proj2 (proj1 (matchesSimpleAtom_leaves MatcherFacts.no_wildcards
                         MatcherFacts.annotatedUid firstIsUid UidMapMoreFacts.reinstalled
                         sample_matcher sample_event Hleaves Hsorted) Hmatch)).
Defined.

(** The uid field of an event of app uid 10001, against the map of
    [UidMapMoreFacts.reinstalled]. *)
Definition app_uid_value : FieldValue :=
  mkFieldValue (mkField 5 [(1, false)]) (INT 10001).


Lemma aid_names_agree_witness :
  (MatcherFacts.annotatedUid (nth 0 sample_values app_uid_value)
     || firstIsUid (nth 0 sample_values app_uid_value) = true /\
   mValue (nth 0 sample_values app_uid_value) = INT 1000 /\
   In ("AID_SYSTEM"%string, 1000) UidMap.sAidToUidMapping) /\
  tryMatchString MatcherFacts.annotatedUid firstIsUid UidMapMoreFacts.reinstalled
    (nth 0 sample_values app_uid_value) "AID_SYSTEM" = true.
Proof.
  assert (Huid : MatcherFacts.annotatedUid (nth 0 sample_values app_uid_value)
                   || firstIsUid (nth 0 sample_values app_uid_value) = true) by reflexivity.
  assert (Hint : mValue (nth 0 sample_values app_uid_value) = INT 1000) by reflexivity.
  assert (Hin : In ("AID_SYSTEM"%string, 1000) UidMap.sAidToUidMapping)
    by (right; left; reflexivity).
  split; [exact (conj Huid (conj Hint Hin))|].
  destruct (aid_names_agree MatcherFacts.no_wildcards MatcherFacts.annotatedUid firstIsUid
              UidMapMoreFacts.reinstalled (nth 0 sample_values app_uid_value)
              "AID_SYSTEM" 1000 "AID_*" Huid Hint Hin)
    as (_ & _ & _ & _ & Hmatch & _).
  exact Hmatch.
Defined.

End MatcherMoreFacts.

(** ** Combination matchers: what is read *)

Module CombinationMoreFacts.
Import Matcher.

Lemma breaks_at_first_hit (test : MatchingState -> bool) (before after : list Z) (c : Z)
    (r : MatchingState) (matcherResults : list MatchingState) :
  Forall (fun b => exists rb, at_index matcherResults b = Some rb /\ test rb = false) before ->
  at_index matcherResults c = Some r -> test r = true ->
  breaks test (before ++ c :: after) matcherResults = Some true.
Proof.
  intros Hbefore Hc Hr. induction Hbefore as [|b before (rb & Hb & Htb) _ IH]; cbn [app breaks].
  - rewrite Hc, Hr. reflexivity.
  - rewrite Hb, Htb. exact IH.
Qed.

(** X18.  [combinationMatch] stops at the child that decides: with every
    child before [c] matched and [c] not matched, AND is false and NAND is
    true; with every child before [c] not matched and [c] matched, OR is
    true and NOR is false -- whatever follows [c], indices outside the
    result vector included.  NOT reads its first child only, and there is no
    result for NOT without a child. *)
Theorem combinationMatch_stops_at_decision (before after : list Z) (c : Z)
    (r : MatchingState) (matcherResults : list MatchingState)
    (Hc : at_index matcherResults c = Some r) :
  (Forall (fun b => at_index matcherResults b = Some kMatched) before ->
   r <> kMatched ->
   combinationMatch (before ++ c :: after) AND matcherResults = Some false /\
   combinationMatch (before ++ c :: after) NAND matcherResults = Some true) /\
  (Forall (fun b => exists rb, at_index matcherResults b = Some rb /\ rb <> kMatched)
          before ->
   r = kMatched ->
   combinationMatch (before ++ c :: after) OR matcherResults = Some true /\
   combinationMatch (before ++ c :: after) NOR matcherResults = Some false) /\
  combinationMatch (c :: after) NOT matcherResults = Some (isNotMatched r) /\
  combinationMatch [] NOT matcherResults = None.
Proof.
  split; [|split; [|split]].
  - intros Hbefore Hr.
    assert (Hb : breaks (fun x => negb (isMatched x)) (before ++ c :: after) matcherResults
                 = Some true).
    { apply (breaks_at_first_hit _ before after c r); [|exact Hc|destruct r; auto; congruence].
      eapply Forall_impl; [exact Hbefore|]. intros b Hb. exists kMatched. auto. }
    cbn [combinationMatch]. rewrite Hb. split; reflexivity.
  - intros Hbefore ->.
    assert (Hb : breaks isMatched (before ++ c :: after) matcherResults = Some true).
    { apply (breaks_at_first_hit _ before after c kMatched); [|exact Hc|reflexivity].
      eapply Forall_impl; [exact Hbefore|]. intros b (rb & Hb & Hne). exists rb.
      split; [exact Hb|]. destruct rb; auto; congruence. }
    cbn [combinationMatch]. rewrite Hb. split; reflexivity.
  - cbn [combinationMatch]. rewrite Hc. reflexivity.
  - reflexivity.
Qed.

(** Child 1 decides; the index 99 after it is outside the vector and is not
    read. *)
Lemma combinationMatch_stops_at_decision_witness :
  at_index [kMatched; kNotMatched] 1 = Some kNotMatched /\
  combinationMatch ([0] ++ 1 :: [99]) AND [kMatched; kNotMatched] = Some false /\
  combinationMatch ([0] ++ 1 :: [99]) NAND [kMatched; kNotMatched] = Some true.
Proof.
  assert (Hc : at_index [kMatched; kNotMatched] 1 = Some kNotMatched) by reflexivity.
  split; [exact Hc|].
  apply (combinationMatch_stops_at_decision [0] [99] 1 kNotMatched
           [kMatched; kNotMatched] Hc).
  - repeat constructor.
  - discriminate.
Defined.

End CombinationMoreFacts.

(** ** The state tracker: events, resets and malformed events *)

Module StateTrackerMoreFacts.
Import StateTracker StateTrackerFacts.

Section Events.

Context {Key : Type} `{Countable Key}.
Variable kStateUnknown : Z.
Variable filterPrimaryKey : list FieldValue -> Key.

Abbreviation tracker := (@StateTracker.t Key _ _).
Abbreviation update := (@updateStateForPrimaryKey Key _ _ kStateUnknown).
Abbreviation onEvent := (@onLogEvent Key _ _ kStateUnknown filterPrimaryKey).
Abbreviation reset := (@handleReset Key _ _ kStateUnknown).
Abbreviation clear := (@clearStateForPrimaryKey Key _ _ kStateUnknown).
Abbreviation query := (@getStateValue Key _ _ kStateUnknown).

(** The listener calls for one change of [primaryKey]. *)
Definition callsFor (tr : tracker) (eventTimeNs : Z) (primaryKey : Key)
    (oldState newState : Z) : list (nat * StateChanged Key) :=
  map (fun l => (l, mkStateChanged eventTimeNs (mAtomId tr) primaryKey oldState newState))
      (mListeners tr).

(** Events, one after the other. *)
Definition handle (events : list LogEvent) (tr : tracker) : tracker :=
  foldl (fun tr event => fst (onEvent event tr)) tr events.

(** An entry in a known state with a count between 1 and [k]. *)
Definition good (k : Z) (info : StateValueInfo) : Prop :=
  state info <> kStateUnknown /\ 1 <= count info <= k.

Definition allGood (k : Z) (tr : tracker) : Prop :=
  forall key info, mStateMap tr !! key = Some info -> good k info.

Lemma good_mono (k k' : Z) (info : StateValueInfo) : k <= k' -> good k info -> good k' info.
Proof. unfold good. intros Hk [Hs Hc]. split; [exact Hs|lia]. Qed.

Lemma update_frame (tr : tracker) ts key ns nested :
  mAtomId (fst (update ts key ns nested tr)) = mAtomId tr /\
  mFieldId (fst (update ts key ns nested tr)) = mFieldId tr /\
  mListeners (fst (update ts key ns nested tr)) = mListeners tr /\
  forall other, other <> key ->
    mStateMap (fst (update ts key ns nested tr)) !! other = mStateMap tr !! other.
Proof.
  unfold updateStateForPrimaryKey.
  destruct (mStateMap tr !! key) as [info|]; [|cbn; auto].
  destruct (updateInfo kStateUnknown tr ts key ns nested info) as [info' calls]. cbn.
  split; [reflexivity|]. split; [reflexivity|]. split; [reflexivity|].
  intros other Hne. destruct (ns =? kStateUnknown).
  - apply lookup_delete_ne. congruence.
  - apply lookup_insert_ne. congruence.
Qed.

(** The entry of the key after an update. *)
Lemma update_entry (tr : tracker) ts key ns nested info :
  mStateMap tr !! key = Some info ->
  mStateMap (fst (update ts key ns nested tr)) !! key =
    if ns =? kStateUnknown then None
    else Some (fst (updateInfo kStateUnknown tr ts key ns nested info)).
Proof.
  unfold updateStateForPrimaryKey. intros ->.
  destruct (updateInfo kStateUnknown tr ts key ns nested info) as [info' calls]. cbn.
  destruct (ns =? kStateUnknown).
  - apply lookup_delete_eq.
  - apply lookup_insert_eq.
Qed.

Lemma updateInfo_good (tr : tracker) ts key ns nested info (k : Z) :
  good k info \/ info = mkStateValueInfo kStateUnknown 0 ->
  0 <= k -> k + 1 < 2 ^ 31 -> ns <> kStateUnknown ->
  good (k + 1) (fst (updateInfo kStateUnknown tr ts key ns nested info)).
Proof.
  intros Hinfo Hk Hfit Hns. unfold updateInfo.
  assert (Hnsb : (ns =? kStateUnknown) = false) by (apply Z.eqb_neq; exact Hns).
  destruct nested; cbn [negb].
  - rewrite Hnsb.
    destruct (state info =? kStateUnknown) eqn:Eold; [split; [exact Hns|cbn; lia]|].
    apply Z.eqb_neq in Eold.
    destruct Hinfo as [[Hs Hc] | ->]; [|cbn in Eold; congruence].
    destruct (state info =? ns) eqn:Esame.
    + cbn. rewrite to_int32_id by lia. split; [exact Hs|cbn; lia].
    + rewrite to_int32_id by lia.
      destruct (count info - 1 =? 0) eqn:Ezero.
      * split; [exact Hns|cbn; lia].
      * apply Z.eqb_neq in Ezero. split; [exact Hs|cbn; lia].
  - destruct (ns =? state info) eqn:Esame; cbn [negb].
    + apply Z.eqb_eq in Esame.
      destruct Hinfo as [Hg | ->]; [exact (good_mono k (k + 1) info ltac:(lia) Hg)|].
      cbn in Esame. congruence.
    + split; [exact Hns|cbn; lia].
Qed.

Lemma updateInfo_flat (tr : tracker) ts key ns info (K : Z) :
  good K info -> 1 <= K -> ns <> kStateUnknown ->
  good K (fst (updateInfo kStateUnknown tr ts key ns false info)).
Proof.
  intros Hg HK Hns. unfold updateInfo. cbn [negb].
  destruct (ns =? state info); cbn [negb fst]; [exact Hg|].
  split; [exact Hns|cbn; lia].
Qed.

Lemma update_allGood (tr : tracker) ts key ns nested (k : Z) :
  (forall other info, other <> key -> mStateMap tr !! other = Some info -> good k info) ->
  (forall info, mStateMap tr !! key = Some info ->
                good k info \/ info = mkStateValueInfo kStateUnknown 0) ->
  0 <= k -> k + 1 < 2 ^ 31 ->
  allGood (k + 1) (fst (update ts key ns nested tr)).
Proof.
  intros Hothers Hkey Hk Hfit other info'.
  destruct (update_frame tr ts key ns nested) as (_ & _ & _ & Hframe).
  destruct (decide (other = key)) as [->|Hne].
  - destruct (mStateMap tr !! key) as [info|] eqn:Hentry.
    + rewrite (update_entry tr ts key ns nested info Hentry).
      destruct (ns =? kStateUnknown) eqn:Ens; [discriminate|].
      apply Z.eqb_neq in Ens. intros [= <-].
      apply updateInfo_good; auto.
    + unfold updateStateForPrimaryKey. rewrite Hentry. cbn. rewrite Hentry. discriminate.
  - rewrite (Hframe other Hne). intros Hl.
    exact (good_mono k (k + 1) info' ltac:(lia) (Hothers other info' Hne Hl)).
Qed.

Lemma update_flat_allGood (tr : tracker) ts key ns (K : Z) :
  allGood K tr -> 1 <= K ->
  allGood K (fst (update ts key ns false tr)).
Proof.
  intros Hall HK other info'.
  destruct (update_frame tr ts key ns false) as (_ & _ & _ & Hframe).
  destruct (decide (other = key)) as [->|Hne].
  - destruct (mStateMap tr !! key) as [info|] eqn:Hentry.
    + rewrite (update_entry tr ts key ns false info Hentry).
      destruct (ns =? kStateUnknown) eqn:Ens; [discriminate|].
      apply Z.eqb_neq in Ens. intros [= <-].
      apply updateInfo_flat; auto. exact (Hall key info Hentry).
    + unfold updateStateForPrimaryKey. rewrite Hentry. cbn. rewrite Hentry. discriminate.
  - rewrite (Hframe other Hne). apply Hall.
Qed.

Lemma allGood_mono (k k' : Z) (tr : tracker) : k <= k' -> allGood k tr -> allGood k' tr.
Proof. intros Hk Hall key info Hl. exact (good_mono k k' info Hk (Hall key info Hl)). Qed.

Lemma allGood_setField (k : Z) (fieldId : Z) (tr : tracker) :
  allGood k tr -> allGood k (setField fieldId tr).
Proof. intros Hall key info Hl. exact (Hall key info Hl). Qed.

Lemma clear_allGood (tr : tracker) ts key (k : Z) :
  allGood k tr -> allGood k (fst (clear ts key tr)).
Proof.
  intros Hall. unfold clearStateForPrimaryKey.
  destruct (mStateMap tr !! key) as [info|] eqn:Hentry; [|exact Hall].
  destruct (update_frame tr ts key kStateUnknown false) as (_ & _ & _ & Hframe).
  intros other info'. destruct (decide (other = key)) as [->|Hne].
  - rewrite (update_entry tr ts key kStateUnknown false info Hentry), Z.eqb_refl.
    discriminate.
  - rewrite (Hframe other Hne). apply Hall.
Qed.

(** The loop of [handleReset], from any tracker and calls. *)
Definition reset_step (eventTimeNs newStateValue : Z)
    (acc : tracker * list (nat * StateChanged Key)) (kv : Key * StateValueInfo)
    : tracker * list (nat * StateChanged Key) :=
  let '(tr', calls) := update eventTimeNs (fst kv) newStateValue false (fst acc) in
  (tr', snd acc ++ calls).

Lemma handleReset_fold (ts r : Z) (tr : tracker) :
  reset ts r tr = foldl (reset_step ts r) (tr, []) (map_to_list (mStateMap tr)).
Proof. reflexivity. Qed.

Lemma reset_fold_allGood (ts r K : Z) (l : list (Key * StateValueInfo)) :
  1 <= K ->
  forall acc, allGood K (fst acc) -> allGood K (fst (foldl (reset_step ts r) acc l)).
Proof.
  intros HK. induction l as [|kv rest IH]; intros acc Hall; [exact Hall|].
  cbn [foldl]. apply IH. unfold reset_step.
  pose proof (update_flat_allGood (fst acc) ts (fst kv) r K Hall HK) as Hstep.
  destruct (update ts (fst kv) r false (fst acc)) as [tr' calls]. exact Hstep.
Qed.

Lemma onLogEvent_allGood (event : LogEvent) (tr : tracker) (k : Z) :
  allGood k tr -> 0 <= k -> k + 1 < 2 ^ 31 ->
  allGood (k + 1) (fst (onEvent event tr)).
Proof.
  intros Hall Hk Hfit. unfold onLogEvent.
  destruct (getExclusiveStateFieldIndex event) as [idx|].
  2: { apply clear_allGood. exact (allGood_mono k (k + 1) tr ltac:(lia) Hall). }
  destruct (getValues event !! idx) as [newState|].
  2: { exact (allGood_mono k (k + 1) tr ltac:(lia) Hall). }
  assert (Hall' : allGood (k + 1) (setField (getField newState) tr)).
  { apply allGood_setField. exact (allGood_mono k (k + 1) tr ltac:(lia) Hall). }
  destruct (mValue newState) as [s|l| | | | |]; try (apply clear_allGood; exact Hall').
  destruct (negb (getResetState event =? -1)).
  - rewrite handleReset_fold. apply reset_fold_allGood; [lia|exact Hall'].
  - apply update_allGood; try assumption.
    + intros other info Hne.
      destruct (mStateMap (setField (getField newState) tr)
                  !! filterPrimaryKey (getValues event)) eqn:Hentry; cbn [mStateMap].
      * apply Hall.
      * rewrite lookup_insert_ne by congruence. apply Hall.
    + intros info.
      destruct (mStateMap (setField (getField newState) tr)
                  !! filterPrimaryKey (getValues event)) as [old|] eqn:Hentry;
        cbn [mStateMap].
      * intros Hl. left. exact (Hall _ _ Hl).
      * rewrite lookup_insert_eq. intros [= <-]. right. reflexivity.
Qed.

Lemma handle_allGood (events : list LogEvent) :
  forall (tr : tracker) (k : Z),
    allGood k tr -> 0 <= k -> k + Z.of_nat (length events) < 2 ^ 31 ->
    allGood (k + Z.of_nat (length events)) (handle events tr).
Proof.
  induction events as [|event rest IH]; intros tr k Hall Hk Hfit.
  - cbn. rewrite Z.add_0_r. exact Hall.
  - cbn [length] in *. rewrite Nat2Z.inj_succ in *. unfold handle. cbn [foldl].
    replace (k + Z.succ (Z.of_nat (length rest))) with (k + 1 + Z.of_nat (length rest))
      by lia.
    apply IH; [|lia|lia]. apply onLogEvent_allGood; [exact Hall|lia|lia].
Qed.

(** X19.  From a fresh tracker, after any events (fewer than 2^31, none of
    which asks for a reset to [kStateUnknown]: [handleReset] would then erase
    entries of the map its loop is going through), every entry of the state
    map holds a known state, with a count between 1 and the number of
    events.  So [getStateValue] returns true exactly when the state it writes
    is not [kStateUnknown]. *)
Theorem tracked_states_are_known (atomId : Z) (events : list LogEvent)
    (Hfit : Z.of_nat (length events) < 2 ^ 31)
    (Hreset : Forall (fun e => getResetState e = -1 \/ getResetState e <> kStateUnknown)
                     events) :
  let tr := handle events (create atomId) in
  (forall key info, mStateMap tr !! key = Some info ->
     state info <> kStateUnknown /\ 1 <= count info <= Z.of_nat (length events)) /\
  (forall key, fst (query tr key) = true <-> snd (query tr key) <> kStateUnknown).
Proof.
  cbv zeta.
  assert (Hall : allGood (Z.of_nat (length events)) (handle events (create atomId))).
  { apply (handle_allGood events (create atomId) 0); [|lia|lia].
    intros key info. cbn. rewrite lookup_empty. discriminate. }
  split; [exact Hall|].
  intros key. unfold getStateValue.
  destruct (mStateMap (handle events (create atomId)) !! key) as [info|] eqn:Hentry; cbn.
  - destruct (Hall key info Hentry) as [Hs _]. split; [intros _; exact Hs|reflexivity].
  - split; [discriminate|congruence].
Qed.

(** *** Resets *)

Definition resetInfo (r : Z) (info : StateValueInfo) : StateValueInfo :=
  if r =? state info then info else mkStateValueInfo r 1.

Lemma reset_fold_spec (ts r : Z) (Hr : r <> kStateUnknown)
    (l : list (Key * StateValueInfo)) :
  NoDup (map fst l) ->
  forall (tr : tracker) (calls : list (nat * StateChanged Key)),
    (forall key info, (key, info) ∈ l -> mStateMap tr !! key = Some info) ->
    let r' := foldl (reset_step ts r) (tr, calls) l in
    mAtomId (fst r') = mAtomId tr /\ mFieldId (fst r') = mFieldId tr /\
    mListeners (fst r') = mListeners tr /\
    (forall key info, (key, info) ∈ l ->
       mStateMap (fst r') !! key = Some (resetInfo r info)) /\
    (forall key, key ∉ map fst l -> mStateMap (fst r') !! key = mStateMap tr !! key) /\
    snd r' = calls ++
             flat_map (fun kv : Key * StateValueInfo =>
                         if r =? state (snd kv) then []
                         else callsFor tr ts (fst kv) (state (snd kv)) r) l.
Proof.
  assert (Hrb : (r =? kStateUnknown) = false) by (apply Z.eqb_neq; exact Hr).
  induction l as [|[key info] rest IH]; intros Hnd tr calls Hentries; cbv zeta.
  - cbn. rewrite app_nil_r. repeat split; auto.
    intros key info Hin. apply elem_of_nil in Hin. contradiction.
  - cbn [map fst] in Hnd. apply NoDup_cons in Hnd. destruct Hnd as [Hfresh Hnd].
    cbn [foldl].
    assert (Hstep : reset_step ts r (tr, calls) (key, info) =
                    (fst (update ts key r false tr),
                     calls ++ snd (update ts key r false tr))).
    { unfold reset_step. cbn [fst snd]. destruct (update ts key r false tr). reflexivity. }
    rewrite Hstep. clear Hstep.
    pose proof (Hentries key info ltac:(left)) as Hentry.
    destruct (update_frame tr ts key r false) as (Ha & Hf & Hl & Hframe).
    pose proof (update_entry tr ts key r false info Hentry) as Hnew. rewrite Hrb in Hnew.
    assert (Hcalls : snd (update ts key r false tr) =
                     if r =? state info then [] else callsFor tr ts key (state info) r).
    { unfold updateStateForPrimaryKey. rewrite Hentry. unfold updateInfo. cbn [negb].
      destruct (r =? state info); reflexivity. }
    assert (Hinfo : fst (updateInfo kStateUnknown tr ts key r false info) = resetInfo r info).
    { unfold updateInfo, resetInfo. cbn [negb]. destruct (r =? state info); reflexivity. }
    rewrite Hinfo in Hnew.
    destruct (update ts key r false tr) as [tr1 calls1]. cbn [fst snd] in *.
    destruct (IH Hnd tr1 (calls ++ calls1)) as (Ha' & Hf' & Hl' & Hin' & Hout' & Hc').
    { intros key' info' Hin. rewrite Hframe.
      - apply Hentries. right. exact Hin.
      - intros ->. apply Hfresh. apply list_elem_of_fmap. exists (key, info'). auto. }
    cbv zeta in *.
    split; [congruence|]. split; [congruence|]. split; [congruence|].
    split; [|split].
    + intros key' info' Hin. apply elem_of_cons in Hin. destruct Hin as [[= -> ->]|Hin].
      * rewrite (Hout' key Hfresh). exact Hnew.
      * apply Hin'. exact Hin.
    + intros key' Hnot. cbn [map fst] in Hnot. apply not_elem_of_cons in Hnot.
      destruct Hnot as [Hne Hnot]. rewrite (Hout' key' Hnot). apply Hframe. exact Hne.
    + rewrite Hc', Hcalls. cbn [flat_map fst snd]. rewrite <- app_assoc. f_equal. f_equal.
      apply flat_map_ext. intros [key' info']. cbn [fst snd].
      unfold callsFor. rewrite Ha, Hl. reflexivity.
Qed.

(** X20.  [handleReset] with a known state [r]: every tracked key ends in
    state [r] -- a key that was in another state with count 1, a key that
    was in [r] already as it was -- no key is added or lost, and the
    listeners are called once for each key whose state changed, with its old
    state, and for no other key. *)
Theorem handleReset_sets_every_key (tr : tracker) (eventTimeNs r : Z)
    (Hr : r <> kStateUnknown) :
  let tr' := fst (reset eventTimeNs r tr) in
  let calls := snd (reset eventTimeNs r tr) in
  (forall key, mStateMap tr' !! key = resetInfo r <$> mStateMap tr !! key) /\
  (forall key, is_Some (mStateMap tr !! key) -> query tr' key = (true, r)) /\
  mListeners tr' = mListeners tr /\
  calls = flat_map (fun kv : Key * StateValueInfo =>
                      if r =? state (snd kv) then []
                      else callsFor tr eventTimeNs (fst kv) (state (snd kv)) r)
                   (map_to_list (mStateMap tr)).
Proof.
  cbv zeta. rewrite handleReset_fold.
  destruct (reset_fold_spec eventTimeNs r Hr (map_to_list (mStateMap tr))
              (NoDup_fst_map_to_list _) tr [])
    as (_ & _ & Hl & Hin & Hout & Hc).
  { intros key info Hin. apply elem_of_map_to_list. exact Hin. }
  cbv zeta in *.
  assert (Hmap : forall key,
            mStateMap (fst (foldl (reset_step eventTimeNs r) (tr, [])
                              (map_to_list (mStateMap tr)))) !! key
            = resetInfo r <$> mStateMap tr !! key).
  { intros key. destruct (mStateMap tr !! key) as [info|] eqn:Hentry; cbn.
    - apply Hin. apply elem_of_map_to_list. exact Hentry.
    - rewrite Hout; [exact Hentry|].
      intros Hk. apply list_elem_of_fmap in Hk. destruct Hk as ([k i] & -> & Hk).
      apply elem_of_map_to_list in Hk. cbn in Hentry. congruence. }
  split; [exact Hmap|]. split; [|split; [exact Hl|exact Hc]].
  intros key [info Hentry]. unfold getStateValue. rewrite Hmap, Hentry. cbn.
  unfold resetInfo. destruct (r =? state info) eqn:E; [|reflexivity].
  apply Z.eqb_eq in E. rewrite E. reflexivity.
Qed.

(** *** One event *)

(** X21.  An event that carries a known state [s], not nested and without
    reset: afterwards the key of the event is in state [s], every other key
    is as before, and the listeners are called exactly when [s] differs from
    the state the key had ([kStateUnknown] for a key that was not tracked),
    with that state as the old one. *)
Theorem onLogEvent_overwrites (tr : tracker) (event : LogEvent) (idx : nat)
    (newState : FieldValue) (s : Z)
    (Hidx : getExclusiveStateFieldIndex event = Some idx)
    (Hvalue : getValues event !! idx = Some newState)
    (Hint : mValue newState = Matcher.INT s)
    (Hflat : isNested newState = false)
    (Hnoreset : getResetState event = -1)
    (Hknown : s <> kStateUnknown) :
  let key := filterPrimaryKey (getValues event) in
  let old := snd (query tr key) in
  let tr' := fst (onEvent event tr) in
  query tr' key = (true, s) /\
  (forall other, other <> key -> query tr' other = query tr other) /\
  mFieldId tr' = getField newState /\
  snd (onEvent event tr) =
    if s =? old then []
    else callsFor tr (GetElapsedTimestampNs event) key old s.
Proof.
  cbv zeta. unfold onLogEvent. rewrite Hidx, Hvalue, Hint, Hnoreset, Hflat.
  cbn [negb Z.eqb Pos.eqb].
  set (key := filterPrimaryKey (getValues event)).
  set (ts := GetElapsedTimestampNs event).
  set (tr0 := setField (getField newState) tr).
  assert (Hsb : (s =? kStateUnknown) = false) by (apply Z.eqb_neq; exact Hknown).
  destruct (mStateMap tr !! key) as [info|] eqn:Hentry.
  - assert (Hentry0 : mStateMap tr0 !! key = Some info) by exact Hentry.
    replace (snd (query tr key)) with (state info)
      by (unfold getStateValue; rewrite Hentry; reflexivity).
    rewrite Hentry0.
    destruct (update_frame tr0 ts key s false) as (_ & Hf & _ & Hframe).
    pose proof (update_entry tr0 ts key s false info Hentry0) as Hnew. rewrite Hsb in Hnew.
    split; [|split; [|split]].
    + unfold getStateValue. rewrite Hnew. unfold updateInfo. cbn [negb].
      destruct (s =? state info) eqn:E; cbn; [|reflexivity].
      apply Z.eqb_eq in E. rewrite E. reflexivity.
    + intros other Hne. unfold getStateValue. rewrite (Hframe other Hne). reflexivity.
    + exact Hf.
    + unfold updateStateForPrimaryKey. rewrite Hentry0. unfold updateInfo. cbn [negb].
      destruct (s =? state info); reflexivity.
  - assert (Hentry0 : mStateMap tr0 !! key = None) by exact Hentry.
    replace (snd (query tr key)) with kStateUnknown
      by (unfold getStateValue; rewrite Hentry; reflexivity).
    rewrite Hentry0.
    set (tr1 := mkTracker (mAtomId tr0) (mFieldId tr0)
                  (<[key := mkStateValueInfo kStateUnknown 0]> (mStateMap tr0))
                  (mListeners tr0)).
    assert (Hentry1 : mStateMap tr1 !! key = Some (mkStateValueInfo kStateUnknown 0))
      by apply lookup_insert_eq.
    destruct (update_frame tr1 ts key s false) as (_ & Hf & _ & Hframe).
    pose proof (update_entry tr1 ts key s false _ Hentry1) as Hnew. rewrite Hsb in Hnew.
    split; [|split; [|split]].
    + unfold getStateValue. rewrite Hnew. unfold updateInfo. cbn [negb state].
      rewrite Hsb. reflexivity.
    + intros other Hne. unfold getStateValue. rewrite (Hframe other Hne).
      subst tr1. cbn [mStateMap]. rewrite lookup_insert_ne by congruence. reflexivity.
    + exact Hf.
    + unfold updateStateForPrimaryKey. rewrite Hentry1. unfold updateInfo.
      cbn [negb state]. rewrite Hsb. reflexivity.
Qed.

(** X22.  An event without its exclusive state field, or whose state is not
    an [int], clears the key of the event: afterwards the key is not
    tracked, every other key is as before, and the listeners are told of the
    change to [kStateUnknown] exactly when the key was tracked in a known
    state. *)
Theorem onLogEvent_malformed_clears (tr : tracker) (event : LogEvent)
    (Hbad : getExclusiveStateFieldIndex event = None \/
            exists idx newState,
              getExclusiveStateFieldIndex event = Some idx /\
              getValues event !! idx = Some newState /\
              forall s, mValue newState <> Matcher.INT s) :
  let key := filterPrimaryKey (getValues event) in
  let tr' := fst (onEvent event tr) in
  query tr' key = (false, kStateUnknown) /\
  (forall other, other <> key -> query tr' other = query tr other) /\
  snd (onEvent event tr) =
    match mStateMap tr !! key with
    | Some info =>
        if kStateUnknown =? state info then []
        else callsFor tr (GetElapsedTimestampNs event) key (state info) kStateUnknown
    | None => []
    end.
Proof.
  cbv zeta.
  set (key := filterPrimaryKey (getValues event)).
  set (ts := GetElapsedTimestampNs event).
  assert (Hclear : forall tr1 : tracker,
            mStateMap tr1 = mStateMap tr -> mAtomId tr1 = mAtomId tr ->
            mListeners tr1 = mListeners tr ->
            query (fst (clear ts key tr1)) key = (false, kStateUnknown) /\
            (forall other, other <> key ->
               query (fst (clear ts key tr1)) other = query tr other) /\
            snd (clear ts key tr1) =
              match mStateMap tr !! key with
              | Some info =>
                  if kStateUnknown =? state info then []
                  else callsFor tr ts key (state info) kStateUnknown
              | None => []
              end).
  { intros tr1 Hm Ha Hl. unfold clearStateForPrimaryKey. rewrite Hm.
    destruct (mStateMap tr !! key) as [info|] eqn:Hentry.
    - assert (Hentry1 : mStateMap tr1 !! key = Some info) by (rewrite Hm; exact Hentry).
      destruct (update_frame tr1 ts key kStateUnknown false) as (_ & _ & _ & Hframe).
      pose proof (update_entry tr1 ts key kStateUnknown false info Hentry1) as Hnew.
      rewrite Z.eqb_refl in Hnew.
      split; [|split].
      + unfold getStateValue. rewrite Hnew. reflexivity.
      + intros other Hne. unfold getStateValue. rewrite (Hframe other Hne), Hm. reflexivity.
      + unfold updateStateForPrimaryKey. rewrite Hentry1. unfold updateInfo. cbn [negb].
        unfold callsFor, notifyListeners. rewrite Ha, Hl.
        destruct (kStateUnknown =? state info); reflexivity.
    - cbn [fst snd]. split; [|split].
      + unfold getStateValue. rewrite Hm, Hentry. reflexivity.
      + intros other Hne. unfold getStateValue. rewrite Hm. reflexivity.
      + reflexivity. }
  unfold onLogEvent. fold key. fold ts.
  destruct Hbad as [-> | (idx & newState & -> & -> & Hnot)].
  - apply Hclear; reflexivity.
  - destruct (mValue newState) as [s|l| | | | |] eqn:Hv;
      [exfalso; exact (Hnot s eq_refl)|..]; apply Hclear; reflexivity.
Qed.

End Events.

(** *** A concrete tracker *)

(** The primary key of an event is the [int] of its first value. *)
Definition firstInt (values : list FieldValue) : Z :=
  match values with
  | v :: _ => match mValue v with Matcher.INT k => k | _ => 0 end
  | [] => 0
  end.

(** Key 42 goes to state 0, not nested; and an event of key 42 that lost its
    state field. *)
Definition turn_off : LogEvent :=
  mkLogEvent 2000
    [mkFieldValue 1 (Matcher.INT 42) false; mkFieldValue 2 (Matcher.INT 0) false]
    (Some 1%nat) (-1).

Definition no_state : LogEvent :=
  mkLogEvent 3000 [mkFieldValue 1 (Matcher.INT 42) false] None (-1).

Lemma tracked_states_are_known_witness :
  (Z.of_nat (length [turn_off; no_state; turn_off]) < 2 ^ 31 /\
   Forall (fun e => getResetState e = -1 \/ getResetState e <> -1)
          [turn_off; no_state; turn_off]) /\
  forall key : Z,
    fst (getStateValue (-1) (handle (-1) firstInt [turn_off; no_state; turn_off] (create 10))
           key) = true <->
    snd (getStateValue (-1) (handle (-1) firstInt [turn_off; no_state; turn_off] (create 10))
           key) <> -1.
Proof.
  assert (Hfit : Z.of_nat (length [turn_off; no_state; turn_off]) < 2 ^ 31) by reflexivity.
  assert (Hreset : Forall (fun e => getResetState e = -1 \/ getResetState e <> -1)
                     [turn_off; no_state; turn_off]).
  { repeat constructor. }
  split; [exact (conj Hfit Hreset)|].
  exact (proj2 (tracked_states_are_known (-1) firstInt 10 [turn_off; no_state; turn_off]
                  Hfit Hreset)).
Defined.

Lemma handleReset_sets_every_key_witness :
  0 <> -1 /\
  getStateValue (-1) (fst (handleReset (-1) 5000 0 held_once)) 42 = (true, 0) /\
  snd (handleReset (-1) 5000 0 held_once) = [(7%nat, mkStateChanged 5000 10 42 1 0)].
Proof.
  assert (Hr : 0 <> -1) by discriminate.
  split; [exact Hr|].
  destruct (handleReset_sets_every_key (-1) held_once 5000 0 Hr) as (_ & Hq & _ & Hc).
  split.
  - apply Hq. exists (mkStateValueInfo 1 1). reflexivity.
  - rewrite Hc. reflexivity.
Defined.

Lemma onLogEvent_overwrites_witness :
  (getExclusiveStateFieldIndex turn_off = Some 1%nat /\
   getValues turn_off !! 1%nat = Some (mkFieldValue 2 (Matcher.INT 0) false) /\
   mValue (mkFieldValue 2 (Matcher.INT 0) false) = Matcher.INT 0 /\
   isNested (mkFieldValue 2 (Matcher.INT 0) false) = false /\
   getResetState turn_off = -1 /\ 0 <> -1) /\
  getStateValue (-1) (fst (onLogEvent (-1) firstInt turn_off held_once)) 42 = (true, 0) /\
  snd (onLogEvent (-1) firstInt turn_off held_once)
    = [(7%nat, mkStateChanged 2000 10 42 1 0)].
Proof.
  assert (Hknown : 0 <> -1) by discriminate.
  split; [repeat split; exact Hknown|].
  destruct (onLogEvent_overwrites (-1) firstInt held_once turn_off 1
              (mkFieldValue 2 (Matcher.INT 0) false) 0 eq_refl eq_refl eq_refl eq_refl
              eq_refl Hknown) as (Hq & _ & _ & Hc).
  split; [exact Hq|exact Hc].
Defined.

Lemma onLogEvent_malformed_clears_witness :
  (getExclusiveStateFieldIndex no_state = None \/
   exists idx newState,
     getExclusiveStateFieldIndex no_state = Some idx /\
     getValues no_state !! idx = Some newState /\
     forall s, mValue newState <> Matcher.INT s) /\
  getStateValue (-1) (fst (onLogEvent (-1) firstInt no_state held_once)) 42 = (false, -1) /\
  snd (onLogEvent (-1) firstInt no_state held_once)
    = [(7%nat, mkStateChanged 3000 10 42 1 (-1))].
Proof.
  assert (Hbad : getExclusiveStateFieldIndex no_state = None \/
                 exists idx newState,
                   getExclusiveStateFieldIndex no_state = Some idx /\
                   getValues no_state !! idx = Some newState /\
                   forall s, mValue newState <> Matcher.INT s) by (left; reflexivity).
  split; [exact Hbad|].
  destruct (onLogEvent_malformed_clears (-1) firstInt held_once no_state Hbad)
    as (Hq & _ & Hc).
  split; [exact Hq|exact Hc].
Defined.

End StateTrackerMoreFacts.

(** ** The lookups of the uid map, and wildcards against uid fields *)

Module LookupFacts.
Import UidMap UidMapFacts.




Section Wildcards.

Import Matcher.

Variable fnmatch : string -> string -> bool.
Variable isAttributionUidField : FieldValue -> bool.
Variable isUidField : FieldValue -> bool.
Variable uidMap : UidMap.t.


End Wildcards.


End LookupFacts.
